(** * Myers O(ND) difference algorithm: [FindMiddleSnake] and [ShortestEditScript]

    A shallow embedding of [src/myers-diff.cpp] and the properties of its
    functions.

    Conventions of the embedding.
    - An [int] is a [Z]; an [int] array argument ([const int old_sequence[]])
      is the [list Z] of the cells that start at the pointer, and pointer
      arithmetic [old_sequence + u] is [drop].  The arithmetic of the program
      is carried out in [Z] and overflow of [int] is not modelled: the
      development covers the inputs on which the arithmetic of the program
      stays within [int].  The values that a search stores lie between [0]
      and [N + D] ([fr_lb], [fr_ub]), and [D] is at most
      [ceil ((N + M) / 2)].  The offsets [current_x] and [current_y] of
      [ShortestEditScript] can be any [int]: a theorem that states the
      indices of the operations for offsets other than [0] assumes that
      the indices stay between [INT_MIN] and [INT_MAX].
    - The two function-local [static] arrays [Vf] and [Vb] of
      [FindMiddleSnake] live in an explicit store ([statics]) that is
      threaded through every call, as the program keeps them for the whole
      process.
    - An access outside an array, a read of a cell that was never written
      and an allocation of negative size are the outcome [Fault].
    - The text that [ShortestEditScript] writes to [std::cout] is not
      modelled; the element reads that it performs for printing are. *)

From Stdlib Require Import ZArith Lia String Ascii Sorted.
From stdpp Require Import base list gmap.

Open Scope Z_scope.

(* ================================================================= *)
(** * Part I: the program *)
(* ================================================================= *)

(** ** Outcomes and the state monad over the static store *)

Inductive outcome (A : Type) : Type :=
| Ok (a : A)
| Fault
| Timeout.
Arguments Ok {A} a.
Arguments Fault {A}.
Arguments Timeout {A}.

(** [class V]: the "circular array" with bounds [start_ .. end_]; [i_] maps
    an offset [index - start_] of the heap block to the value stored there,
    and has no entry for a cell that [new int[...]] left indeterminate. *)
Record V : Type := mkV { start_ : Z; end_ : Z; i_ : gmap Z Z }.

(** The function-local statics of [FindMiddleSnake]; [None] before the
    declaration has been executed for the first time. *)
Record statics : Type := mkStatics { Vf : option V; Vb : option V }.

Definition fresh : statics := mkStatics None None.

Definition comp (A : Type) : Type := statics -> outcome (A * statics).

Definition ret {A} (a : A) : comp A := fun s => Ok (a, s).

Definition bind {A B} (m : comp A) (f : A -> comp B) : comp B :=
  fun s => match m s with
           | Ok (a, s') => f a s'
           | Fault => Fault
           | Timeout => Timeout
           end.

Definition fault {A} : comp A := fun _ => Fault.
Definition timeout {A} : comp A := fun _ => Timeout.

Notation "x <- m ;; f" := (bind m (fun x => f))
  (at level 100, m at next level, right associativity).
Notation "m ;;; f" := (bind m (fun _ => f))
  (at level 100, right associativity).

(** ** [class V] *)

(** [V(int start, int end)]: allocates [end - start + 1] cells. *)
Definition V_new (s e : Z) : option V :=
  if e - s + 1 <? 0 then None else Some (mkV s e ∅).

(** [operator[]] used as an rvalue. *)
Definition V_get (v : V) (index : Z) : option Z :=
  if (start_ v <=? index) && (index <=? end_ v)
  then i_ v !! (index - start_ v) else None.

(** [operator[]] used as the target of an assignment. *)
Definition V_set (v : V) (index x : Z) : option V :=
  if (start_ v <=? index) && (index <=? end_ v)
  then Some (mkV (start_ v) (end_ v) (<[index - start_ v := x]> (i_ v)))
  else None.

Inductive which : Type := Fwd | Bwd.

Definition sel (w : which) (s : statics) : option V :=
  match w with Fwd => Vf s | Bwd => Vb s end.

Definition upd (w : which) (v : V) (s : statics) : statics :=
  match w with
  | Fwd => mkStatics (Some v) (Vb s)
  | Bwd => mkStatics (Vf s) (Some v)
  end.

(** [static V Vw(-MAX, MAX);]: runs the constructor the first time only. *)
Definition static_init (w : which) (MAX : Z) : comp unit :=
  fun s => match sel w s with
           | Some _ => Ok (tt, s)
           | None => match V_new (- MAX) MAX with
                     | Some v => Ok (tt, upd w v s)
                     | None => Fault
                     end
           end.

Definition rd (w : which) (index : Z) : comp Z :=
  fun s => match sel w s with
           | Some v => match V_get v index with
                       | Some x => Ok (x, s)
                       | None => Fault
                       end
           | None => Fault
           end.

Definition wr (w : which) (index x : Z) : comp unit :=
  fun s => match sel w s with
           | Some v => match V_set v index x with
                       | Some v' => Ok (tt, upd w v' s)
                       | None => Fault
                       end
           | None => Fault
           end.

(** ** Sequences *)

(** [seq[i]] for a pointer [seq] to the cells [l]. *)
Definition rd_seq (l : list Z) (i : Z) : comp Z :=
  if i <? 0 then fault
  else match l !! Z.to_nat i with
       | Some a => ret a
       | None => fault
       end.
(** [seq + u]: the result has to point into the array or just past it. *)
Definition ptr_add (l : list Z) (u : Z) : comp (list Z) :=
  if (0 <=? u) && (u <=? Z.of_nat (length l)) then ret (drop (Z.to_nat u) l)
  else fault.

(** ** [FindMiddleSnake] *)

(** How a loop body ends: it falls through to the next iteration, or it
    executes [return r]. *)
Inductive flow (R : Type) : Type :=
| Next
| Return (r : R).
Arguments Next {R}.
Arguments Return {R} r.

(** [for (i = i0; i <= last; i += step) body], for the [n] values of [i]
    that the loop goes through unless [body] returns from the function. *)
Fixpoint for_count {R} (n : nat) (i step : Z) (body : Z -> comp (flow R))
  : comp (flow R) :=
  match n with
  | O => ret Next
  | S n' =>
      r <- body i ;;
      match r with
      | Return t => ret (Return t)
      | Next => for_count n' (i + step) step body
      end
  end.

(** The tuple [(D, x, y, u, v)] that [FindMiddleSnake] returns. *)
Definition snake_tuple : Type := Z * Z * Z * Z * Z.

(** [std::ceil(MAX / 2.0)]: the division and the rounding are exact on the
    doubles that come from an [int]. *)
Definition ceil_half (MAX : Z) : Z := (MAX + 1) / 2.

(** The choice of the starting [x] on diagonal [k] (lines 91-98 and 120-125):
    [if (k == -D || k != D && V[k - 1] < V[k + 1]) x = V[k + 1];
     else x = V[k - 1] + 1;] with the short-circuit evaluation of C++. *)
Definition pick (w : which) (D k : Z) : comp Z :=
  c <- (if k =? - D then ret true
        else if negb (k =? D)
             then a <- rd w (k - 1) ;; b <- rd w (k + 1) ;; ret (a <? b)
             else ret false) ;;
  if c : bool then rd w (k + 1)
  else a <- rd w (k - 1) ;; ret (a + 1).

(** [while (x < N && y < M && old_sequence[x] == new_sequence[y])
       { x += 1; y += 1; }] *)
Fixpoint snake_fwd (fuel : nat) (old new : list Z) (N M x y : Z)
  : comp (Z * Z) :=
  match fuel with
  | O => timeout
  | S fuel' =>
      if (x <? N) && (y <? M) then
        a <- rd_seq old x ;;
        b <- rd_seq new y ;;
        if a =? b then snake_fwd fuel' old new N M (x + 1) (y + 1)
        else ret (x, y)
      else ret (x, y)
  end.

(** [while (x < N && y < M &&
            old_sequence[N - x - 1] == new_sequence[M - y - 1])
       { x += 1; y += 1; }] *)
Fixpoint snake_bwd (fuel : nat) (old new : list Z) (N M x y : Z)
  : comp (Z * Z) :=
  match fuel with
  | O => timeout
  | S fuel' =>
      if (x <? N) && (y <? M) then
        a <- rd_seq old (N - x - 1) ;;
        b <- rd_seq new (M - y - 1) ;;
        if a =? b then snake_bwd fuel' old new N M (x + 1) (y + 1)
        else ret (x, y)
      else ret (x, y)
  end.

(** One iteration of the first inner loop (lines 91-117). *)
Definition fwd_iter (old : list Z) (N : Z) (new : list Z) (M Delta D k : Z)
  : comp (flow snake_tuple) :=
  x_i <- pick Fwd D k ;;
  let y_i := x_i - k in
  xy <- snake_fwd (S (Z.to_nat (N - x_i))) old new N M x_i y_i ;;
  let '(x, y) := xy in
  wr Fwd k x ;;;
  if (Z.abs (Z.rem Delta 2) =? 1)
     && (- (D - 1) <=? - (k - Delta)) && (- (k - Delta) <=? D - 1)
  then
    a <- rd Fwd k ;;
    b <- rd Bwd (- (k - Delta)) ;;
    if N <=? a + b then ret (Return (2 * D - 1, x_i, y_i, x, y))
    else ret Next
  else ret Next.

(** One iteration of the second inner loop (lines 120-138). *)
Definition bwd_iter (old : list Z) (N : Z) (new : list Z) (M Delta D k : Z)
  : comp (flow snake_tuple) :=
  x_i <- pick Bwd D k ;;
  let y_i := x_i - k in
  xy <- snake_bwd (S (Z.to_nat (N - x_i))) old new N M x_i y_i ;;
  let '(x, y) := xy in
  wr Bwd k x ;;;
  if (Z.rem Delta 2 =? 0)
     && (- D <=? - (k - Delta)) && (- (k - Delta) <=? D)
  then
    a <- rd Bwd k ;;
    b <- rd Fwd (- (k - Delta)) ;;
    if N <=? a + b then ret (Return (2 * D, N - x, M - y, N - x_i, M - y_i))
    else ret Next
  else ret Next.

(** The body of the loop over [D] (lines 90-139): each of the two inner
    loops [for (int k = -D; k <= D; k += 2)] has the [D + 1] iterations
    [k = -D, -D + 2, ..., D]. *)
Definition round (old : list Z) (N : Z) (new : list Z) (M Delta D : Z)
  : comp (flow snake_tuple) :=
  r <- for_count (Z.to_nat (D + 1)) (- D) 2 (fwd_iter old N new M Delta D) ;;
  match r with
  | Return t => ret (Return t)
  | Next => for_count (Z.to_nat (D + 1)) (- D) 2 (bwd_iter old N new M Delta D)
  end.

(** The loop [for (int D = 0; D <= std::ceil(MAX / 2.0); D++)]: the
    iterations [D = 0, ..., ceil (MAX / 2)]. *)
Definition search (old : list Z) (N : Z) (new : list Z) (M : Z)
  : comp (flow snake_tuple) :=
  for_count (Z.to_nat (ceil_half (M + N) + 1)) 0 1
            (round old N new M (N - M)).

(** Lines 76-83: the two static arrays, constructed by the first call, and
    the two seeds [Vf[1] = 0] and [Vb[1] = 0]. *)
Definition setup (MAX : Z) : comp unit :=
  static_init Fwd MAX ;;;
  static_init Bwd MAX ;;;
  wr Fwd 1 0 ;;;
  wr Bwd 1 0.

(** What the function returns once the loop over [D] is left: the tuple of
    the [return] statement that left it or, when the loop ran to its end,
    the value-initialised tuple of [return {};] (line 141). *)
Definition finish (r : flow snake_tuple) : comp snake_tuple :=
  match r with
  | Return t => ret t
  | Next => ret (0, 0, 0, 0, 0)
  end.

Definition FindMiddleSnake (old : list Z) (N : Z) (new : list Z) (M : Z)
  : comp snake_tuple :=
  let MAX := M + N in
  setup MAX ;;;
  r <- search old N new M ;;
  finish r.

(** ** [ShortestEditScript] *)

(** [typedef std::multiset<std::pair<int, std::string>> Diff;] as the list
    of its elements in iteration order. *)
Definition Diff : Type := list (Z * string).

(** [operator<] of [std::pair<int, std::string>]. *)
Definition pair_lt (p q : Z * string) : bool :=
  (p.1 <? q.1) || ((p.1 =? q.1) && String.ltb p.2 q.2).

(** [multiset::insert(value)]: the new element goes after the elements that
    are not greater than it. *)
Fixpoint ms_insert (p : Z * string) (l : Diff) : Diff :=
  match l with
  | [] => [p]
  | q :: l' => if pair_lt p q then p :: l else q :: ms_insert p l'
  end.

(** [multiset::insert(first, last)]. *)
Definition ms_insert_range (l : Diff) (r : Diff) : Diff :=
  fold_left (fun acc p => ms_insert p acc) r l.

(** The range of [int].  The sums [current_x + i] and [current_y + i] of
    lines 201 and 208 and the offsets that [ShortestEditScript] passes on
    are [int] additions in the program and sums in [Z] here; the two agree
    while the sums stay in this range. *)
Definition INT_MIN : Z := -2147483648.
Definition INT_MAX : Z := 2147483647.

(** The two loops of lines 199-202 and 206-209: iteration [i] reads
    [seq[i]] (to print it) and inserts [(base + i, tag)]. *)
Fixpoint emit (n : nat) (i : Z) (seq : list Z) (base : Z) (tag : string)
  (rtn : Diff) : comp Diff :=
  match n with
  | O => ret rtn
  | S n' =>
      rd_seq seq i ;;;
      emit n' (i + 1) seq base tag (ms_insert (base + i, tag) rtn)
  end.

Fixpoint ShortestEditScript (fuel : nat) (old : list Z) (N : Z)
  (new : list Z) (M : Z) (current_x current_y : Z) : comp Diff :=
  match fuel with
  | O => timeout
  | S fuel' =>
      if (0 <? N) && (0 <? M) then
        t <- FindMiddleSnake old N new M ;;
        let '(D, x, y, u, v) := t in
        if (1 <? D) || (negb (x =? u) && negb (y =? v)) then
          r1 <- ShortestEditScript fuel' old x new y current_x current_y ;;
          let rtn := ms_insert_range [] r1 in
          old' <- ptr_add old u ;;
          new' <- ptr_add new v ;;
          r2 <- ShortestEditScript fuel' old' (N - u) new' (M - v)
                  (current_x + u) (current_y + v) ;;
          ret (ms_insert_range rtn r2)
        else if N <? M then
          old' <- ptr_add old N ;;
          new' <- ptr_add new N ;;
          r <- ShortestEditScript fuel' old' (N - N) new' (M - N)
                 (current_x + N) (current_y + N) ;;
          ret (ms_insert_range [] r)
        else if M <? N then
          old' <- ptr_add old M ;;
          new' <- ptr_add new M ;;
          r <- ShortestEditScript fuel' old' (N - M) new' (M - M)
                 (current_x + M) (current_y + M) ;;
          ret (ms_insert_range [] r)
        else ret []
      else if 0 <? N then emit (Z.to_nat N) 0 old current_x "del" []
      else if 0 <? M then emit (Z.to_nat M) 0 new current_y "add" []
      else ret []
  end.

(** The call of [main]: [ShortestEditScript(a, len a, b, len b, 0, 0)]. *)
Definition diff (fuel : nat) (a b : list Z) : comp Diff :=
  ShortestEditScript fuel a (Z.of_nat (length a)) b (Z.of_nat (length b)) 0 0.

Definition main_a : list Z := [1; 4; 27; 21; 23; 24; 26; 28; 13].
Definition main_b : list Z := [1; 4; 20; 21; 22; 23; 24; 25; 26; 13].

(** ** [main] *)

(** What [main] itself inserts into [std::cout]: numbers and texts, in
    the order of the insertions. *)
Inductive tok : Type :=
| Num (n : Z)
| Txt (s : string).

Definition nl : string := String (ascii_of_nat 10) EmptyString.
Definition tab : string := String (ascii_of_nat 9) EmptyString.

(** Lines 221-224: every element of the multiset, in iteration order, as
    [it->first << it->second << "\n"]. *)
Definition listing (result : Diff) : list tok :=
  flat_map (fun p => [Num p.1; Txt p.2; Txt nl]) result.

(** What the statements of lines 230-268 print for one element or one pair
    of elements, and the line break of line 252. *)
Inductive item : Type :=
| Added (c : Z)
| Removed (c : Z)
| Same (ca cb : Z)
| Break.

Definition show (e : item) : list tok :=
  match e with
  | Added c => [Txt "+ "; Num c]
  | Removed c => [Txt ("- " ++ tab); Num c]
  | Same ca cb => [Txt " "; Num ca; Txt tab; Num cb]
  | Break => [Txt nl]
  end.

(** [it != result.end() && it->second.compare(tag) == 0 && it->first == i] *)
Definition at_op (it : Diff) (tag : string) (i : Z) : bool :=
  match it with
  | [] => false
  | (p, t) :: _ => String.eqb t tag && (p =? i)
  end.

(** The loop of lines 230-253 from the iterator position [it] (the
    elements not yet passed) and the indices [i] and [j]; it returns the
    indices at which it stops and what it has printed. *)
Fixpoint walk (fuel : nat) (a b : list Z) (len_a len_b : Z) (it : Diff)
  (i j : Z) : comp (Z * Z * list item) :=
  match fuel with
  | O => timeout
  | S fuel' =>
      if (i <? len_a) && (j <? len_b) then
        if at_op it "add" j then
          c <- rd_seq b j ;;
          r <- walk fuel' a b len_a len_b (tail it) i (j + 1) ;;
          let '(i', j', out) := r in
          ret (i', j', Added c :: Break :: out)
        else if at_op it "del" i then
          c <- rd_seq a i ;;
          r <- walk fuel' a b len_a len_b (tail it) (i + 1) j ;;
          let '(i', j', out) := r in
          ret (i', j', Removed c :: Break :: out)
        else
          ca <- rd_seq a i ;;
          cb <- rd_seq b j ;;
          r <- walk fuel' a b len_a len_b it (i + 1) (j + 1) ;;
          let '(i', j', out) := r in
          ret (i', j', Same ca cb :: Break :: out)
      else ret (i, j, [])
  end.

(** The loops of lines 256-261 and 263-268: [n] elements of [seq] from
    index [i] on, each printed by [print], with no line break. *)
Fixpoint leftover (n : nat) (seq : list Z) (i : Z) (print : Z -> item)
  : comp (list item) :=
  match n with
  | O => ret []
  | S n' =>
      c <- rd_seq seq i ;;
      out <- leftover n' seq (i + 1) print ;;
      ret (print c :: out)
  end.

(** Lines 226-268 for the arrays [a] and [b] and the multiset [result]. *)
Definition display (fuel : nat) (a b : list Z) (result : Diff)
  : comp (list item) :=
  let len_a := Z.of_nat (length a) in
  let len_b := Z.of_nat (length b) in
  r <- walk fuel a b len_a len_b result 0 0 ;;
  let '(i, j, out) := r in
  out_a <- leftover (Z.to_nat (len_a - i)) a i Removed ;;
  out_b <- leftover (Z.to_nat (len_b - j)) b j Added ;;
  ret (out ++ out_a ++ out_b).

(** [main]: the script of its two arrays, the listing of the script and
    the display; the result is the text that [main] itself prints. *)
Definition main (fuel : nat) : comp (list tok) :=
  result <- diff fuel main_a main_b ;;
  out <- display fuel main_a main_b result ;;
  ret (listing result ++ flat_map show out).

(* ================================================================= *)
(** * Part II: what the program is measured against *)
(* ================================================================= *)

(** ** Longest common subsequence and edit distance *)

Definition len (l : list Z) : Z := Z.of_nat (length l).

(** The length of a longest common subsequence, by the textbook recursion. *)
Fixpoint lcs (s t : list Z) {struct s} : Z :=
  match s with
  | [] => 0
  | a :: s' =>
      (fix lcs_row (t : list Z) : Z :=
         match t with
         | [] => 0
         | b :: t' =>
             if a =? b then 1 + lcs s' t'
             else Z.max (lcs s' t) (lcs_row t')
         end) t
  end.

(** The least number of insertions and deletions that turn [s] into [t]. *)
Definition ed (s t : list Z) : Z := len s + len t - 2 * lcs s t.

(** ** The edit graph *)

(** The first [p] elements, and what follows them. *)
Definition pre (l : list Z) (p : Z) : list Z := take (Z.to_nat p) l.
Definition suf (l : list Z) (p : Z) : list Z := drop (Z.to_nat p) l.

(** The least number of horizontal and vertical edges on a path from the
    origin to the point [(x, y)], in the edit graph of [a] and [b] continued
    beyond its last row and column by rows and columns without diagonal
    edges. *)
Definition reach (a b : list Z) (x y : Z) : Z :=
  ed (pre a x) (pre b y) + Z.max 0 (x - len a) + Z.max 0 (y - len b).

(** The end of the snake that starts at [(x, y)]: its [x]. *)
Fixpoint slide_n (n : nat) (a b : list Z) (x y : Z) : Z :=
  match n with
  | O => x
  | S n' =>
      if (x <? len a) && (y <? len b)
         && bool_decide (a !! Z.to_nat x = b !! Z.to_nat y)
      then slide_n n' a b (x + 1) (y + 1)
      else x
  end.

Definition slide (a b : list Z) (x y : Z) : Z :=
  slide_n (Z.to_nat (len a - x)) a b x y.

(** The starting [x] on diagonal [k] in round [D], from the values [prev]
    of the round before. *)
Definition choose (prev : Z -> Z) (D k : Z) : Z :=
  if (k =? - D) || (negb (k =? D) && (prev (k - 1) <? prev (k + 1)))
  then prev (k + 1) else prev (k - 1) + 1.

(** [fr a b D k]: the value that a search over [a] and [b] stores for
    diagonal [k] in round [D]; round [0] starts from the seed [V[1] = 0]. *)
Fixpoint fr (a b : list Z) (D : nat) (k : Z) : Z :=
  let x := choose (match D with O => fun _ => 0 | S D' => fr a b D' end)
                  (Z.of_nat D) k in
  slide a b x (x - k).

(** The content of the array when round [D] begins. *)
Definition before (a b : list Z) (D : nat) : Z -> Z :=
  match D with O => fun _ => 0 | S D' => fr a b D' end.

(** The point at which round [D] enters diagonal [k]. *)
Definition entry (a b : list Z) (D : nat) (k : Z) : Z :=
  choose (before a b D) (Z.of_nat D) k.

(** Diagonal [k] is one of the diagonals [-D, -D + 2, ..., D] of round [D]. *)
Definition lane (D k : Z) : Prop :=
  exists i, 0 <= i <= D /\ k = 2 * i - D.

(** The cells [(x + i, y + i)], [0 <= i < j], all carry a diagonal edge. *)
Definition run (a b : list Z) (x y j : Z) : Prop :=
  forall i, 0 <= i < j ->
    x + i < len a /\ y + i < len b /\
    a !! Z.to_nat (x + i) = b !! Z.to_nat (y + i).

(** No diagonal edge leaves [(x, y)]. *)
Definition stuck (a b : list Z) (x y : Z) : Prop :=
  ~ (x < len a /\ y < len b /\ a !! Z.to_nat x = b !! Z.to_nat y).

(** ** What a middle snake is *)

(** [(D, x, y, u, v)] is a middle snake of [a] and [b]: a run of diagonal
    edges from [(x, y)] to [(u, v)] inside the graph, on a shortest path,
    that splits its [D] non-diagonal edges in two halves; when there is at
    most one such edge and the run is empty, the shorter list is a prefix
    of the longer. *)
Definition middle_ok (a b : list Z) (t : snake_tuple) : Prop :=
  let '(D, x, y, u, v) := t in
  (0 <= x <= u /\ u <= len a) /\ (0 <= y <= v /\ v <= len b) /\
  u - x = v - y /\
  run a b x y (u - x) /\
  D = ed a b /\
  ed (pre a x) (pre b y) + ed (suf a u) (suf b v) = D /\
  2 * ed (pre a x) (pre b y) <= D + 1 /\
  2 * ed (suf a u) (suf b v) <= D + 1 /\
  (D <= 1 -> x = u ->
   pre a (Z.min (len a) (len b)) = pre b (Z.min (len a) (len b))).

(** The test of the first inner loop for diagonal [k] in round [D], on the
    values that the arrays hold at that point. *)
Definition fwd_hit (a b : list Z) (D : nat) (k : Z) : bool :=
  let Delta := len a - len b in
  (Z.abs (Z.rem Delta 2) =? 1)
  && (- (Z.of_nat D - 1) <=? - (k - Delta)) && (- (k - Delta) <=? Z.of_nat D - 1)
  && (len a <=? fr a b D k + before (reverse a) (reverse b) D (- (k - Delta))).

(** The test of the second inner loop. *)
Definition bwd_hit (a b : list Z) (D : nat) (k : Z) : bool :=
  let Delta := len a - len b in
  (Z.rem Delta 2 =? 0)
  && (- Z.of_nat D <=? - (k - Delta)) && (- (k - Delta) <=? Z.of_nat D)
  && (len a <=? fr (reverse a) (reverse b) D k + fr a b D (- (k - Delta))).

(** The tuples that the two tests return. *)
Definition fwd_tuple (a b : list Z) (D : nat) (k : Z) : snake_tuple :=
  (2 * Z.of_nat D - 1,
   entry a b D k, entry a b D k - k, fr a b D k, fr a b D k - k).

Definition bwd_tuple (a b : list Z) (D : nat) (k : Z) : snake_tuple :=
  let x_i := entry (reverse a) (reverse b) D k in
  let x := fr (reverse a) (reverse b) D k in
  (2 * Z.of_nat D, len a - x, len b - (x - k), len a - x_i, len b - (x_i - k)).

(** [k] is the first diagonal of round [D] on which the test [hit]
    succeeds. *)
Definition first_hit (hit : Z -> bool) (D k : Z) : Prop :=
  lane D k /\ hit k = true /\ forall j, lane D j -> j < k -> hit j = false.

(** Round [D] returns [t]: the tuple of the first hit of the first inner
    loop or, when that loop has none, of the first hit of the second. *)
Definition round_result (a b : list Z) (D : nat) (t : snake_tuple) : Prop :=
  (exists k, first_hit (fwd_hit a b D) (Z.of_nat D) k /\ t = fwd_tuple a b D k) \/
  ((forall k, lane (Z.of_nat D) k -> fwd_hit a b D k = false) /\
   exists k, first_hit (bwd_hit a b D) (Z.of_nat D) k /\ t = bwd_tuple a b D k).

(** A round has no hit at all. *)
Definition round_misses (a b : list Z) (D : nat) : Prop :=
  forall k, lane (Z.of_nat D) k ->
    fwd_hit a b D k = false /\ bwd_hit a b D k = false.

(** The search returns [t]: the result of the first round that has a hit. *)
Definition search_result (a b : list Z) (t : snake_tuple) : Prop :=
  exists D : nat,
    round_result a b D t /\ forall D' : nat, (D' < D)%nat -> round_misses a b D'.

(** ** The static arrays during a search *)

(** Array [w] holds the value [v] at index [j]. *)
Definition holds (w : which) (s : statics) (j v : Z) : Prop :=
  exists V, sel w s = Some V /\ V_get V j = Some v.

(** Both arrays exist and their bounds include [-n .. n]. *)
Definition wide (n : Z) (v : V) : Prop := start_ v <= - n /\ n <= end_ v.

Definition cap (n : Z) (s : statics) : Prop :=
  exists vf vb, Vf s = Some vf /\ Vb s = Some vb /\ wide n vf /\ wide n vb.

(** The arrays are not yet constructed, or they are wide enough. *)
Definition room (n : Z) (s : statics) : Prop :=
  (Vf s = None /\ Vb s = None) \/ cap n s.

(** Whatever fits into the arrays of [s] fits into those of [s']. *)
Definition keeps (s s' : statics) : Prop := forall n, cap n s -> cap n s'.

(** The indices that round [D] reads from the round before. *)
Definition src (D : nat) (j : Z) : Prop :=
  match D with O => j = 1 | S D' => lane (Z.of_nat D') j end.

(** The arrays are not yet constructed, or they reach out to some [c]
    with [c >= 1] and [2c >= e]: what a search over sequences at edit
    distance [e] needs. *)
Definition fits (e : Z) (s : statics) : Prop :=
  (Vf s = None /\ Vb s = None) \/ exists c, cap c s /\ 1 <= c /\ e <= 2 * c.

(** Array [w] is ready for round [D] of the search over [a] and [b]. *)
Definition ready (w : which) (a b : list Z) (D : nat) (s : statics) : Prop :=
  forall j, src D j -> holds w s j (before a b D j).

(** ** Edit scripts *)

(** The positions of the operations of [ops] that carry [tag], in the
    iteration order of the multiset. *)
Fixpoint positions (tag : string) (ops : Diff) : list Z :=
  match ops with
  | [] => []
  | (p, t) :: ops' =>
      if String.eqb t tag then p :: positions tag ops' else positions tag ops'
  end.

(** [l] without the elements whose index, counted from [base], is in [ps]. *)
Fixpoint strike (ps : list Z) (base : Z) (l : list Z) : list Z :=
  match l with
  | [] => []
  | c :: l' =>
      if bool_decide (base ∈ ps) then strike ps (base + 1) l'
      else c :: strike ps (base + 1) l'
  end.

(** The operations [(base, tag), ..., (base + n - 1, tag)]. *)
Definition span (base : Z) (n : nat) (tag : string) : Diff :=
  map (fun i => (base + Z.of_nat i, tag)) (seq 0 n).

(** Sorting positions. *)
Fixpoint insert_asc (p : Z) (l : list Z) : list Z :=
  match l with
  | [] => [p]
  | q :: l' => if p <=? q then p :: l else q :: insert_asc p l'
  end.

Definition sort_asc (l : list Z) : list Z := foldr insert_asc [] l.
Definition sort_desc (l : list Z) : list Z := reverse (sort_asc l).

(** Deleting the element at index [i], and inserting [c] so that it gets
    index [j]. *)
Definition delete_at (i : Z) (l : list Z) : list Z :=
  if i <? 0 then l else delete (Z.to_nat i) l.

Definition insert_at (j c : Z) (l : list Z) : list Z :=
  take (Z.to_nat j) l ++ c :: drop (Z.to_nat j) l.

(** Applying a script to [A]: the deletions, largest index first, and then
    the insertions, smallest index first, each inserting the element that
    [B] has at that index. *)
Definition apply_script (A B : list Z) (ops : Diff) : list Z :=
  let A' := fold_left (fun l i => delete_at i l)
                      (sort_desc (positions "del" ops)) A in
  fold_left (fun l j => match B !! Z.to_nat j with
                        | Some c => insert_at j c l
                        | None => l
                        end)
            (sort_asc (positions "add" ops)) A'.

(** [ops] is a shortest script for [a] and [b], whose elements have the
    indices [cx ..] and [cy ..]. *)
Definition script_ok (a b : list Z) (cx cy : Z) (ops : Diff) : Prop :=
  NoDup ops /\
  (forall p t, (p, t) ∈ ops ->
     (t = "del"%string /\ cx <= p < cx + len a) \/
     (t = "add"%string /\ cy <= p < cy + len b)) /\
  strike (positions "del" ops) cx a = strike (positions "add" ops) cy b /\
  Z.of_nat (length ops) = ed a b.

(** ** The tuples of the two [return] statements *)

(** [t] has the form of the tuple that the first inner loop returns in
    round [D] on diagonal [k], and [N - M] is odd. *)
Definition fwd_shape (N M D : Z) (t : snake_tuple) : Prop :=
  exists k x_i x,
    t = (2 * D - 1, x_i, x_i - k, x, x - k) /\ Z.abs (Z.rem (N - M) 2) = 1.

(** The same for the second inner loop, with [N - M] even. *)
Definition bwd_shape (N M D : Z) (t : snake_tuple) : Prop :=
  exists k x_i x,
    t = (2 * D, N - x, M - (x - k), N - x_i, M - (x_i - k)) /\
    Z.rem (N - M) 2 = 0.

(** ** Observations on runs *)

(** The bounds of array [w], when it has been constructed. *)
Definition bounds (w : which) (s : statics) : option (Z * Z) :=
  match sel w s with
  | Some v => Some (start_ v, end_ v)
  | None => None
  end.

(** The store that a run leaves behind. *)
Definition store_after {A} (m : comp A) (s : statics) : statics :=
  match m s with
  | Ok (_, s') => s'
  | _ => s
  end.

(** A computation that never constructs an array anew nor changes the
    bounds of one. *)
Definition stable {A} (m : comp A) : Prop :=
  forall s a s', m s = Ok (a, s') ->
    forall w b, bounds w s = Some b -> bounds w s' = Some b.

(** ** Arrays of a given size *)

(** Both arrays exist and have the bounds [-c .. c]: the store of a
    process in which the first call of [FindMiddleSnake] had
    [N + M = c]. *)
Definition sized (c : Z) (s : statics) : Prop :=
  bounds Fwd s = Some (- c, c) /\ bounds Bwd s = Some (- c, c).

(** ** The two columns of the display of [main] *)

(** The elements of the first array that the display shows: those of the
    lines [- c] and the left ones of the lines [ca cb]. *)
Fixpoint old_column (out : list item) : list Z :=
  match out with
  | [] => []
  | Removed c :: out' => c :: old_column out'
  | Same ca _ :: out' => ca :: old_column out'
  | _ :: out' => old_column out'
  end.

(** The elements of the second array that it shows. *)
Fixpoint new_column (out : list item) : list Z :=
  match out with
  | [] => []
  | Added c :: out' => c :: new_column out'
  | Same _ cb :: out' => cb :: new_column out'
  | _ :: out' => new_column out'
  end.

(** ** The order of a script *)

(** The rank of an operation in the order of the multiset: its index
    first, and an insertion before a deletion at the same index. *)
Definition key (p : Z * string) : Z :=
  2 * p.1 + (if String.eqb p.2 "add" then 0 else 1).

Definition tagged (p : Z * string) : Prop :=
  p.2 = "add"%string \/ p.2 = "del"%string.

Definition ascending (ops : Diff) : Prop :=
  StronglySorted (fun p q => key p <= key q) ops.

(** Moving the deletions by [dx] and the insertions by [dy]. *)
Definition shift (dx dy : Z) (p : Z * string) : Z * string :=
  (p.1 + (if String.eqb p.2 "del" then dx else dy), p.2).

(** ** The same run on wider arrays *)






(** ** Stores used in examples *)

(** The store in which the call [FindMiddleSnake(main_a, 9, main_b, 10)]
    of a new process begins diagonal [-1] of round [3] of its first inner
    loop: after lines 76-83, the rounds [0 .. 2] and diagonal [-3]. *)
Definition store_before_fwd_check : statics :=
  store_after (for_count 1 (-3) 2 (fwd_iter main_a 9 main_b 10 (9 - 10) 3))
    (store_after (for_count 3 0 1 (round main_a 9 main_b 10 (9 - 10)))
       (store_after (setup (10 + 9)) fresh)).

(** The store in which the call
    [FindMiddleSnake({1, 2, 3, 4}, 4, {1, 9, 3, 4}, 4)] of a new process
    begins the second inner loop of round [1]. *)
Definition store_before_bwd_check : statics :=
  store_after (for_count 2 (-1) 2 (fwd_iter [1; 2; 3; 4] 4 [1; 9; 3; 4] 4 (4 - 4) 1))
    (store_after (for_count 1 0 1 (round [1; 2; 3; 4] 4 [1; 9; 3; 4] 4 (4 - 4)))
       (store_after (setup (4 + 4)) fresh)).



(* ================================================================= *)
(** * Part III: proofs *)
(* ================================================================= *)

(** ** Lengths *)

Lemma len_nil : len [] = 0.
Proof. reflexivity. Qed.

Lemma len_cons a l : len (a :: l) = 1 + len l.
Proof. unfold len. simpl length. lia. Qed.

Lemma len_app l k : len (l ++ k) = len l + len k.
Proof. unfold len. rewrite length_app. lia. Qed.

Lemma len_nonneg l : 0 <= len l.
Proof. unfold len. lia. Qed.

Lemma len_reverse l : len (reverse l) = len l.
Proof. unfold len. by rewrite length_reverse. Qed.

Lemma len_zero_nil l : len l = 0 -> l = [].
Proof. destruct l; [done|]. rewrite len_cons. pose proof (len_nonneg l). lia. Qed.

(** ** The recursion equations of [lcs] *)

Lemma lcs_nil_l t : lcs [] t = 0.
Proof. reflexivity. Qed.

Lemma lcs_nil_r s : lcs s [] = 0.
Proof. by destruct s. Qed.

Lemma lcs_cons a s b t :
  lcs (a :: s) (b :: t) =
  if a =? b then 1 + lcs s t else Z.max (lcs s (b :: t)) (lcs (a :: s) t).
Proof. reflexivity. Qed.

Lemma lcs_cons_eq a s t : lcs (a :: s) (a :: t) = 1 + lcs s t.
Proof. rewrite lcs_cons. by rewrite Z.eqb_refl. Qed.

Lemma lcs_cons_ne a s b t :
  a <> b -> lcs (a :: s) (b :: t) = Z.max (lcs s (b :: t)) (lcs (a :: s) t).
Proof. intros H. rewrite lcs_cons. by apply Z.eqb_neq in H as ->. Qed.

Global Opaque lcs.

(** ** [lcs] is the length of a longest common subsequence *)

Lemma lcs_witness s t :
  exists w, w `sublist_of` s /\ w `sublist_of` t /\ len w = lcs s t.
Proof.
  revert t. induction s as [|a s IHs]; intros t.
  { exists []. split_and!; [constructor|apply sublist_nil_l|done]. }
  induction t as [|b t IHt].
  { exists []. rewrite lcs_nil_r. split_and!; [apply sublist_nil_l|constructor|done]. }
  destruct (Z.eq_dec a b) as [->|Hne].
  - rewrite lcs_cons_eq. destruct (IHs t) as (w & H1 & H2 & H3).
    exists (b :: w). rewrite len_cons, H3.
    split_and!; [by apply sublist_skip|by apply sublist_skip|done].
  - rewrite lcs_cons_ne by done.
    destruct (Z.max_spec (lcs s (b :: t)) (lcs (a :: s) t)) as [[_ ->]|[_ ->]].
    + destruct IHt as (w & H1 & H2 & H3). exists w.
      split_and!; [done|by apply sublist_cons|done].
    + destruct (IHs (b :: t)) as (w & H1 & H2 & H3).
      exists w. split_and!; [by apply sublist_cons|done|done].
Qed.

Lemma lcs_upper s t w :
  w `sublist_of` s -> w `sublist_of` t -> len w <= lcs s t.
Proof.
  revert t w. induction s as [|a s IHs]; intros t w Hs Ht.
  { apply sublist_nil_r in Hs as ->. rewrite lcs_nil_l. done. }
  revert w Hs Ht. induction t as [|b t IHt]; intros w Hs Ht.
  { apply sublist_nil_r in Ht as ->. rewrite lcs_nil_r. done. }
  destruct (Z.eq_dec a b) as [->|Hne].
  - rewrite lcs_cons_eq.
    apply sublist_cons_r in Hs as [Hs|(w' & -> & Hs)].
    + apply sublist_cons_r in Ht as [Ht|(w' & -> & Ht)].
      * specialize (IHs _ _ Hs Ht). lia.
      * rewrite len_cons. enough (len w' <= lcs s t) by lia.
        apply IHs; [|done]. etrans; [|exact Hs]. by constructor.
    + rewrite len_cons. enough (len w' <= lcs s t) by lia.
      apply IHs; [done|].
      apply sublist_cons_r in Ht as [Ht|(w'' & Heq & Ht)].
      * etrans; [|exact Ht]. by constructor.
      * by simplify_eq.
  - rewrite lcs_cons_ne by done.
    apply sublist_cons_r in Hs as [Hs|(w' & -> & Hs)].
    + specialize (IHs _ _ Hs Ht). lia.
    + apply sublist_cons_r in Ht as [Ht|(w'' & Heq & Ht)].
      * assert (len (a :: w') <= lcs (a :: s) t); [|lia].
        apply IHt; [|done]. by constructor.
      * by simplify_eq.
Qed.

Lemma sublist_reverse (l k : list Z) :
  l `sublist_of` k -> reverse l `sublist_of` reverse k.
Proof.
  induction 1 as [|x l k _ IH|x l k _ IH]; [done| |].
  - rewrite !reverse_cons. by apply sublist_app.
  - rewrite reverse_cons. by apply sublist_inserts_r.
Qed.

Lemma lcs_reverse_le s t : lcs s t <= lcs (reverse s) (reverse t).
Proof.
  destruct (lcs_witness s t) as (w & H1 & H2 & <-).
  rewrite <- (len_reverse w). apply lcs_upper; by apply sublist_reverse.
Qed.

Lemma lcs_reverse s t : lcs (reverse s) (reverse t) = lcs s t.
Proof.
  apply Z.le_antisymm; [|apply lcs_reverse_le].
  rewrite <- (reverse_involutive s) at 2. rewrite <- (reverse_involutive t) at 2.
  apply lcs_reverse_le.
Qed.

Lemma lcs_nonneg s t : 0 <= lcs s t.
Proof.
  destruct (lcs_witness s t) as (w & _ & _ & <-). apply len_nonneg.
Qed.

Lemma sublist_len (l k : list Z) : l `sublist_of` k -> len l <= len k.
Proof. intros H%sublist_length. unfold len. lia. Qed.

Lemma lcs_le_l s t : lcs s t <= len s.
Proof. destruct (lcs_witness s t) as (w & H & _ & <-). by apply sublist_len. Qed.

Lemma lcs_le_r s t : lcs s t <= len t.
Proof. destruct (lcs_witness s t) as (w & _ & H & <-). by apply sublist_len. Qed.

Lemma lcs_refl s : lcs s s = len s.
Proof.
  apply Z.le_antisymm; [apply lcs_le_l|]. by apply lcs_upper.
Qed.

(** Concatenation: common subsequences of the parts combine. *)
Lemma lcs_app s1 s2 t1 t2 :
  lcs s1 t1 + lcs s2 t2 <= lcs (s1 ++ s2) (t1 ++ t2).
Proof.
  destruct (lcs_witness s1 t1) as (w1 & H1 & H2 & <-).
  destruct (lcs_witness s2 t2) as (w2 & H3 & H4 & <-).
  rewrite <- len_app. apply lcs_upper; by apply sublist_app.
Qed.

(** One more element on one side adds at most one. *)
Lemma lcs_cons_l_le a s t : lcs (a :: s) t <= 1 + lcs s t.
Proof.
  destruct (lcs_witness (a :: s) t) as (w & H1 & H2 & <-).
  apply sublist_cons_r in H1 as [H1|(w' & -> & H1)].
  - pose proof (lcs_upper _ _ _ H1 H2). lia.
  - rewrite len_cons. enough (len w' <= lcs s t) by lia.
    apply lcs_upper; [done|]. etrans; [|exact H2]. by constructor.
Qed.

Lemma lcs_cons_l_ge a s t : lcs s t <= lcs (a :: s) t.
Proof.
  destruct (lcs_witness s t) as (w & H1 & H2 & <-).
  apply lcs_upper; [by constructor|done].
Qed.

Lemma lcs_cons_r_le b s t : lcs s (b :: t) <= 1 + lcs s t.
Proof.
  destruct (lcs_witness s (b :: t)) as (w & H1 & H2 & <-).
  apply sublist_cons_r in H2 as [H2|(w' & -> & H2)].
  - pose proof (lcs_upper _ _ _ H1 H2). lia.
  - rewrite len_cons. enough (len w' <= lcs s t) by lia.
    apply lcs_upper; [|done]. etrans; [|exact H1]. by constructor.
Qed.

Lemma lcs_cons_r_ge b s t : lcs s t <= lcs s (b :: t).
Proof.
  destruct (lcs_witness s t) as (w & H1 & H2 & <-).
  apply lcs_upper; [done|by constructor].
Qed.

(** One more element on both sides adds at most one. *)
Lemma lcs_cons_cons_le a b s t : lcs (a :: s) (b :: t) <= 1 + lcs s t.
Proof.
  rewrite lcs_cons. destruct (a =? b); [lia|].
  pose proof (lcs_cons_r_le b s t). pose proof (lcs_cons_l_le a s t). lia.
Qed.

(** The same equations at the other end of the lists. *)
Lemma lcs_snoc s x t y :
  lcs (s ++ [x]) (t ++ [y]) =
  if x =? y then 1 + lcs s t else Z.max (lcs s (t ++ [y])) (lcs (s ++ [x]) t).
Proof.
  rewrite <- (lcs_reverse (s ++ [x]) (t ++ [y])), !reverse_snoc, lcs_cons.
  rewrite <- (lcs_reverse s t), <- (lcs_reverse s (t ++ [y])),
    <- (lcs_reverse (s ++ [x]) t), !reverse_snoc. done.
Qed.

Lemma lcs_snoc_l_le x s t : lcs (s ++ [x]) t <= 1 + lcs s t.
Proof.
  rewrite <- (lcs_reverse (s ++ [x]) t), reverse_snoc, <- (lcs_reverse s t).
  apply lcs_cons_l_le.
Qed.

Lemma lcs_snoc_l_ge x s t : lcs s t <= lcs (s ++ [x]) t.
Proof.
  rewrite <- (lcs_reverse (s ++ [x]) t), reverse_snoc, <- (lcs_reverse s t).
  apply lcs_cons_l_ge.
Qed.

Lemma lcs_snoc_r_le y s t : lcs s (t ++ [y]) <= 1 + lcs s t.
Proof.
  rewrite <- (lcs_reverse s (t ++ [y])), reverse_snoc, <- (lcs_reverse s t).
  apply lcs_cons_r_le.
Qed.

Lemma lcs_snoc_r_ge y s t : lcs s t <= lcs s (t ++ [y]).
Proof.
  rewrite <- (lcs_reverse s (t ++ [y])), reverse_snoc, <- (lcs_reverse s t).
  apply lcs_cons_r_ge.
Qed.

(** ** Edit distance *)

Lemma ed_nil_l t : ed [] t = len t.
Proof. unfold ed. rewrite lcs_nil_l, len_nil. lia. Qed.

Lemma ed_nil_r s : ed s [] = len s.
Proof. unfold ed. rewrite lcs_nil_r, len_nil. lia. Qed.

Lemma ed_refl s : ed s s = 0.
Proof. unfold ed. rewrite lcs_refl. lia. Qed.

Lemma ed_ge_diff s t : Z.abs (len s - len t) <= ed s t.
Proof.
  unfold ed. pose proof (lcs_le_l s t). pose proof (lcs_le_r s t). lia.
Qed.

Lemma ed_nonneg s t : 0 <= ed s t.
Proof. pose proof (ed_ge_diff s t). lia. Qed.

Lemma ed_le_sum s t : ed s t <= len s + len t.
Proof. unfold ed. pose proof (lcs_nonneg s t). lia. Qed.

Lemma ed_parity s t : exists c, ed s t = len s - len t + 2 * c.
Proof. exists (len t - lcs s t). unfold ed. lia. Qed.

Lemma sublist_len_eq (l k : list Z) : l `sublist_of` k -> len l = len k -> l = k.
Proof.
  induction 1 as [|x l k _ IH|x l k Hs IH]; [done| |].
  - rewrite !len_cons. intros ?. f_equal. apply IH. lia.
  - rewrite len_cons. intros ?. apply sublist_len in Hs. lia.
Qed.

Lemma ed_zero_eq s t : ed s t = 0 -> s = t.
Proof.
  unfold ed. intros H.
  pose proof (lcs_le_l s t) as Hl. pose proof (lcs_le_r s t) as Hr.
  destruct (lcs_witness s t) as (w & H1 & H2 & H3).
  rewrite <- (sublist_len_eq w s), <- (sublist_len_eq w t); [done|done|lia|done|lia].
Qed.

Lemma ed_reverse s t : ed (reverse s) (reverse t) = ed s t.
Proof. unfold ed. by rewrite lcs_reverse, !len_reverse. Qed.

Lemma ed_app s1 s2 t1 t2 : ed (s1 ++ s2) (t1 ++ t2) <= ed s1 t1 + ed s2 t2.
Proof. unfold ed. rewrite !len_app. pose proof (lcs_app s1 s2 t1 t2). lia. Qed.

Lemma ed_cons_l_le a s t : ed (a :: s) t <= ed s t + 1.
Proof. unfold ed. rewrite len_cons. pose proof (lcs_cons_l_ge a s t). lia. Qed.

Lemma ed_cons_r_le b s t : ed s (b :: t) <= ed s t + 1.
Proof. unfold ed. rewrite len_cons. pose proof (lcs_cons_r_ge b s t). lia. Qed.

Lemma ed_cons_same a s t : ed (a :: s) (a :: t) = ed s t.
Proof. unfold ed. rewrite lcs_cons_eq, !len_cons. lia. Qed.

Lemma ed_cons_ne a s b t :
  a <> b -> ed (a :: s) (b :: t) = 1 + Z.min (ed s (b :: t)) (ed (a :: s) t).
Proof. intros H. unfold ed. rewrite lcs_cons_ne, !len_cons by done. lia. Qed.

Lemma ed_snoc_l_le x s t : ed (s ++ [x]) t <= ed s t + 1.
Proof.
  unfold ed. rewrite len_app. change (len [x]) with 1.
  pose proof (lcs_snoc_l_ge x s t). lia.
Qed.

Lemma ed_snoc_l_ge x s t : ed s t - 1 <= ed (s ++ [x]) t.
Proof.
  unfold ed. rewrite len_app. change (len [x]) with 1.
  pose proof (lcs_snoc_l_le x s t). lia.
Qed.

Lemma ed_snoc_r_le y s t : ed s (t ++ [y]) <= ed s t + 1.
Proof.
  unfold ed. rewrite len_app. change (len [y]) with 1.
  pose proof (lcs_snoc_r_ge y s t). lia.
Qed.

Lemma ed_snoc_r_ge y s t : ed s t - 1 <= ed s (t ++ [y]).
Proof.
  unfold ed. rewrite len_app. change (len [y]) with 1.
  pose proof (lcs_snoc_r_le y s t). lia.
Qed.

Lemma ed_snoc_same x s t : ed (s ++ [x]) (t ++ [x]) = ed s t.
Proof.
  unfold ed. rewrite lcs_snoc, Z.eqb_refl, !len_app. change (len [x]) with 1. lia.
Qed.

Lemma ed_snoc_snoc_ge x y s t : ed s t <= ed (s ++ [x]) (t ++ [y]).
Proof.
  unfold ed. rewrite lcs_snoc, !len_app. change (len [x]) with 1. change (len [y]) with 1.
  pose proof (lcs_snoc_r_le y s t). pose proof (lcs_snoc_l_le x s t).
  destruct (x =? y); lia.
Qed.

(** How a distance of at most [d] between two non-empty lists arises. *)
Lemma ed_snoc_inv x y s t d :
  ed (s ++ [x]) (t ++ [y]) <= d ->
  (x = y /\ ed s t <= d) \/ ed s (t ++ [y]) <= d - 1 \/ ed (s ++ [x]) t <= d - 1.
Proof.
  unfold ed. rewrite lcs_snoc, !len_app. change (len [x]) with 1. change (len [y]) with 1.
  destruct (Z.eqb_spec x y) as [->|Hne]; [left; split; [done|lia]|].
  intros H. right. lia.
Qed.

(** Every amount between [0] and the distance is the distance of a prefix
    pair whose suffixes account for the rest. *)
Lemma ed_split s t e :
  0 <= e <= ed s t ->
  exists s1 s2 t1 t2,
    s = s1 ++ s2 /\ t = t1 ++ t2 /\ ed s1 t1 = e /\ ed s2 t2 = ed s t - e.
Proof.
  revert t e. induction s as [|a s IHs]; intros t e He.
  { rewrite ed_nil_l in *. exists [], [], (take (Z.to_nat e) t), (drop (Z.to_nat e) t).
    rewrite take_drop, !ed_nil_l. unfold len in *.
    rewrite length_take, length_drop. split_and!; [done|done|lia|lia]. }
  revert e He. induction t as [|b t IHt]; intros e He.
  { rewrite ed_nil_r in *. exists (take (Z.to_nat e) (a :: s)), (drop (Z.to_nat e) (a :: s)), [], [].
    rewrite take_drop, !ed_nil_r. unfold len in *.
    rewrite length_take, length_drop. split_and!; [done|done|lia|lia]. }
  destruct (Z.eq_dec e 0) as [->|He0].
  { exists [], (a :: s), [], (b :: t). rewrite ed_refl. split_and!; [done|done|done|lia]. }
  destruct (Z.eq_dec a b) as [->|Hne].
  - rewrite ed_cons_same in *.
    destruct (IHs t e He) as (s1 & s2 & t1 & t2 & -> & -> & H1 & H2).
    exists (b :: s1), s2, (b :: t1), t2. rewrite ed_cons_same. done.
  - rewrite ed_cons_ne in * by done.
    destruct (Z.le_gt_cases (ed s (b :: t)) (ed (a :: s) t)) as [Hm|Hm].
    + destruct (IHs (b :: t) (e - 1)) as (s1 & s2 & t1 & t2 & -> & Ht & H1 & H2); [lia|].
      exists (a :: s1), s2, t1, t2. split_and!; [done|done| |lia].
      pose proof (ed_cons_l_le a s1 t1).
      pose proof (ed_app (a :: s1) s2 t1 t2) as Happ.
      rewrite <- Ht in Happ. change ((a :: s1) ++ s2) with (a :: (s1 ++ s2)) in Happ.
      rewrite ed_cons_ne in Happ by done. lia.
    + destruct (IHt (e - 1)) as (s1 & s2 & t1 & t2 & Hs & -> & H1 & H2); [lia|].
      exists s1, s2, (b :: t1), t2. split_and!; [done|done| |lia].
      pose proof (ed_cons_r_le b s1 t1).
      pose proof (ed_app s1 s2 (b :: t1) t2) as Happ.
      rewrite <- Hs in Happ. change ((b :: t1) ++ t2) with (b :: (t1 ++ t2)) in Happ.
      rewrite ed_cons_ne in Happ by done. lia.
Qed.

(** ** Prefixes and suffixes *)

Lemma pre_0 l : pre l 0 = [].
Proof. reflexivity. Qed.

Lemma pre_all l p : len l <= p -> pre l p = l.
Proof. intros H. unfold pre. apply take_ge. unfold len in H. lia. Qed.

Lemma suf_0 l : suf l 0 = l.
Proof. reflexivity. Qed.

Lemma suf_all l p : len l <= p -> suf l p = [].
Proof. intros H. unfold suf. apply drop_ge. unfold len in H. lia. Qed.

Lemma pre_suf l p : pre l p ++ suf l p = l.
Proof. apply take_drop. Qed.

Lemma len_pre l p : 0 <= p <= len l -> len (pre l p) = p.
Proof. intros H. unfold pre, len in *. rewrite length_take. lia. Qed.

Lemma len_suf l p : 0 <= p <= len l -> len (suf l p) = len l - p.
Proof. intros H. unfold suf, len in *. rewrite length_drop. lia. Qed.

Lemma len_suf_max l p : 0 <= p -> len (suf l p) = Z.max 0 (len l - p).
Proof. intros H. unfold suf, len in *. rewrite length_drop. lia. Qed.

Lemma lookup_lt_len (l : list Z) p :
  0 <= p < len l -> exists c, l !! Z.to_nat p = Some c.
Proof.
  intros H. apply lookup_lt_is_Some. unfold len in H. lia.
Qed.

Lemma pre_succ l p c :
  0 <= p -> l !! Z.to_nat p = Some c -> pre l (p + 1) = pre l p ++ [c].
Proof.
  intros Hp Hc. unfold pre.
  replace (Z.to_nat (p + 1)) with (S (Z.to_nat p)) by lia.
  by apply take_S_r.
Qed.

Lemma suf_succ l p c :
  0 <= p -> l !! Z.to_nat p = Some c -> suf l p = c :: suf l (p + 1).
Proof.
  intros Hp Hc. unfold suf.
  replace (Z.to_nat (p + 1)) with (S (Z.to_nat p)) by lia.
  by apply drop_S.
Qed.

Lemma pre_pre l p q : 0 <= p <= q -> pre (pre l q) p = pre l p.
Proof. intros H. unfold pre. rewrite take_take. f_equal. lia. Qed.

Lemma pre_reverse l p :
  0 <= p <= len l -> pre (reverse l) p = reverse (suf l (len l - p)).
Proof.
  intros H. unfold pre, suf, len in *. rewrite take_reverse. do 2 f_equal. lia.
Qed.

Lemma lookup_reverse_Z (l : list Z) p :
  0 <= p < len l ->
  reverse l !! Z.to_nat p = l !! Z.to_nat (len l - p - 1).
Proof.
  intros H. unfold len in *. rewrite reverse_lookup by lia. f_equal. lia.
Qed.

(** ** Distances in the extended edit graph *)

Section Graph.
Variables a b : list Z.

Lemma reach_origin : reach a b 0 0 = 0.
Proof.
  unfold reach. rewrite !pre_0, ed_refl.
  pose proof (len_nonneg a). pose proof (len_nonneg b). lia.
Qed.

Lemma reach_inside x y :
  x <= len a -> y <= len b -> reach a b x y = ed (pre a x) (pre b y).
Proof. unfold reach. lia. Qed.

Lemma reach_nonneg x y : 0 <= reach a b x y.
Proof. unfold reach. pose proof (ed_nonneg (pre a x) (pre b y)). lia. Qed.

Lemma reach_right x y : 0 <= x -> reach a b (x + 1) y <= reach a b x y + 1.
Proof.
  intros Hx. unfold reach. destruct (Z.lt_ge_cases x (len a)) as [Hlt|Hge].
  - destruct (lookup_lt_len a x) as [c Hc]; [lia|].
    rewrite (pre_succ a x c) by done.
    pose proof (ed_snoc_l_le c (pre a x) (pre b y)). lia.
  - rewrite !(pre_all a) by lia. lia.
Qed.

Lemma reach_down x y : 0 <= y -> reach a b x (y + 1) <= reach a b x y + 1.
Proof.
  intros Hy. unfold reach. destruct (Z.lt_ge_cases y (len b)) as [Hlt|Hge].
  - destruct (lookup_lt_len b y) as [c Hc]; [lia|].
    rewrite (pre_succ b y c) by done.
    pose proof (ed_snoc_r_le c (pre a x) (pre b y)). lia.
  - rewrite !(pre_all b) by lia. lia.
Qed.

Lemma reach_match x y :
  0 <= x < len a -> 0 <= y < len b ->
  a !! Z.to_nat x = b !! Z.to_nat y ->
  reach a b (x + 1) (y + 1) = reach a b x y.
Proof.
  intros Hx Hy Heq. unfold reach.
  destruct (lookup_lt_len a x) as [c Hc]; [lia|].
  rewrite (pre_succ a x c), (pre_succ b y c) by (done || lia || congruence).
  rewrite ed_snoc_same. lia.
Qed.

Lemma reach_diag x y :
  0 <= x -> 0 <= y -> reach a b x y <= reach a b (x + 1) (y + 1).
Proof.
  intros Hx Hy. unfold reach.
  destruct (Z.lt_ge_cases x (len a)) as [Hxa|Hxa];
    destruct (Z.lt_ge_cases y (len b)) as [Hyb|Hyb].
  - destruct (lookup_lt_len a x) as [c Hc]; [lia|].
    destruct (lookup_lt_len b y) as [c' Hc']; [lia|].
    rewrite (pre_succ a x c), (pre_succ b y c') by done.
    pose proof (ed_snoc_snoc_ge c c' (pre a x) (pre b y)). lia.
  - destruct (lookup_lt_len a x) as [c Hc]; [lia|].
    rewrite (pre_succ a x c), !(pre_all b) by (done || lia).
    pose proof (ed_snoc_l_ge c (pre a x) b). lia.
  - destruct (lookup_lt_len b y) as [c' Hc']; [lia|].
    rewrite (pre_succ b y c'), !(pre_all a) by (done || lia).
    pose proof (ed_snoc_r_ge c' a (pre b y)). lia.
  - rewrite !(pre_all a), !(pre_all b) by lia. lia.
Qed.

Lemma reach_diag_n x y j :
  0 <= x -> 0 <= y -> 0 <= j -> reach a b x y <= reach a b (x + j) (y + j).
Proof.
  intros Hx Hy Hj. revert j Hj. apply natlike_ind.
  - rewrite !Z.add_0_r. lia.
  - intros j Hj IH. pose proof (reach_diag (x + j) (y + j)).
    replace (x + Z.succ j) with (x + j + 1) by lia.
    replace (y + Z.succ j) with (y + j + 1) by lia. lia.
Qed.

(** From any point the end of the graph is a few steps away. *)
Lemma reach_total x y :
  0 <= x -> 0 <= y -> ed a b <= reach a b x y + (len a - x) + (len b - y).
Proof.
  intros Hx Hy. unfold reach.
  pose proof (ed_app (pre a x) (suf a x) (pre b y) (suf b y)) as H.
  rewrite !pre_suf in H.
  pose proof (ed_le_sum (suf a x) (suf b y)).
  rewrite !len_suf_max in * by done. lia.
Qed.

Lemma reach_ge_diff x y :
  0 <= x -> 0 <= y -> Z.abs (x - y) <= reach a b x y.
Proof.
  intros Hx Hy. unfold reach.
  pose proof (ed_ge_diff (pre a x) (pre b y)) as H.
  unfold pre, len in *. rewrite !length_take in H. lia.
Qed.
End Graph.

(** ** Snakes *)

Section Snake.
Variables a b : list Z.

Lemma slide_n_spec n x y :
  0 <= x -> 0 <= y -> len a - x <= Z.of_nat n ->
  exists j, 0 <= j /\ slide_n n a b x y = x + j /\
            run a b x y j /\ stuck a b (x + j) (y + j).
Proof.
  revert x y. induction n as [|n IH]; intros x y Hx Hy Hn.
  - exists 0. rewrite !Z.add_0_r. split_and!; [done|done| |].
    + intros i Hi. lia.
    + intros (? & _). lia.
  - simpl. destruct ((x <? len a) && (y <? len b)
                     && bool_decide (a !! Z.to_nat x = b !! Z.to_nat y)) eqn:Hc.
    + apply andb_prop in Hc as [Hc Heq]. apply andb_prop in Hc as [Hxa Hyb].
      apply bool_decide_eq_true in Heq.
      apply Z.ltb_lt in Hxa. apply Z.ltb_lt in Hyb.
      destruct (IH (x + 1) (y + 1)) as (j & Hj & -> & Hrun & Hstuck); [lia..|].
      exists (j + 1). split_and!; [lia|lia| |].
      * intros i Hi. destruct (Z.eq_dec i 0) as [->|Hi0].
        { rewrite !Z.add_0_r. done. }
        destruct (Hrun (i - 1)) as (H1 & H2 & H3); [lia|].
        replace (x + 1 + (i - 1)) with (x + i) in * by lia.
        replace (y + 1 + (i - 1)) with (y + i) in * by lia. done.
      * replace (x + (j + 1)) with (x + 1 + j) by lia.
        replace (y + (j + 1)) with (y + 1 + j) by lia. done.
    + exists 0. rewrite !Z.add_0_r. split_and!; [done|done| |].
      * intros i Hi. lia.
      * intros (H1 & H2 & H3).
        apply Z.ltb_lt in H1. apply Z.ltb_lt in H2.
        apply (bool_decide_eq_true_2 _) in H3.
        rewrite H1, H2, H3 in Hc. done.
Qed.

Lemma slide_spec x y :
  0 <= x -> 0 <= y ->
  exists j, 0 <= j /\ slide a b x y = x + j /\
            run a b x y j /\ stuck a b (x + j) (y + j).
Proof. intros Hx Hy. apply slide_n_spec; lia. Qed.

Lemma run_reach x y j :
  0 <= x -> 0 <= y -> 0 <= j -> run a b x y j ->
  reach a b (x + j) (y + j) = reach a b x y.
Proof.
  intros Hx Hy Hj. revert j Hj. apply (natlike_ind (fun j => run a b x y j -> _)).
  - intros _. by rewrite !Z.add_0_r.
  - intros j Hj IH Hrun.
    rewrite <- IH by (intros i Hi; apply Hrun; lia).
    destruct (Hrun j) as (H1 & H2 & H3); [lia|].
    replace (x + Z.succ j) with (x + j + 1) by lia.
    replace (y + Z.succ j) with (y + j + 1) by lia.
    apply reach_match; [lia|lia|done].
Qed.

Lemma run_inside x y j :
  0 <= j -> x <= len a -> y <= len b -> run a b x y j ->
  x + j <= len a /\ y + j <= len b.
Proof.
  intros Hj Hx Hy Hrun. destruct (Z.eq_dec j 0) as [->|Hne]; [lia|].
  destruct (Hrun (j - 1)) as (H1 & H2 & _); lia.
Qed.

(** The two segments that a run covers are equal. *)
Lemma run_segments x y j :
  0 <= x -> 0 <= y -> 0 <= j -> run a b x y j ->
  pre (suf a x) j = pre (suf b y) j.
Proof.
  intros Hx Hy Hj Hrun. unfold pre, suf. apply list_eq. intros i.
  destruct (decide (i < Z.to_nat j)%nat) as [Hi|Hi].
  - rewrite !lookup_take_lt, !lookup_drop by done.
    destruct (Hrun (Z.of_nat i)) as (_ & _ & H); [lia|].
    replace (Z.to_nat x + i)%nat with (Z.to_nat (x + Z.of_nat i)) by lia.
    replace (Z.to_nat y + i)%nat with (Z.to_nat (y + Z.of_nat i)) by lia.
    done.
  - rewrite !lookup_take_ge by lia. done.
Qed.

(** Equal suffixes from a stuck point are empty. *)
Lemma stuck_suffix x y :
  0 <= x -> 0 <= y -> stuck a b x y -> suf a x = suf b y ->
  len a <= x /\ len b <= y.
Proof.
  intros Hx Hy Hstuck Heq.
  destruct (Z.lt_ge_cases x (len a)) as [Hxa|Hxa].
  - exfalso. destruct (lookup_lt_len a x) as [c Hc]; [lia|].
    rewrite (suf_succ a x c) in Heq by done.
    destruct (Z.lt_ge_cases y (len b)) as [Hyb|Hyb].
    + destruct (lookup_lt_len b y) as [c' Hc']; [lia|].
      rewrite (suf_succ b y c') in Heq by done.
      apply Hstuck. split_and!; [done|done|]. congruence.
    + rewrite (suf_all b y) in Heq by done. done.
  - split; [done|]. rewrite (suf_all a x) in Heq by done.
    destruct (Z.lt_ge_cases y (len b)) as [Hyb|Hyb]; [|done].
    destruct (lookup_lt_len b y) as [c' Hc']; [lia|].
    rewrite (suf_succ b y c') in Heq by done. done.
Qed.
End Snake.

(** ** The values of a search *)

Lemma choose_first prev D k : k = - D -> choose prev D k = prev (k + 1).
Proof. intros ->. unfold choose. by rewrite Z.eqb_refl. Qed.

Lemma choose_last prev D k :
  k <> - D -> k = D -> choose prev D k = prev (k - 1) + 1.
Proof.
  intros H1 H2. unfold choose.
  apply Z.eqb_neq in H1 as ->. apply Z.eqb_eq in H2 as ->. done.
Qed.

Lemma choose_inner prev D k :
  k <> - D -> k <> D ->
  choose prev D k = Z.max (prev (k - 1) + 1) (prev (k + 1)).
Proof.
  intros H1 H2. unfold choose.
  apply Z.eqb_neq in H1 as ->. apply Z.eqb_neq in H2 as ->. simpl.
  destruct (Z.ltb_spec (prev (k - 1)) (prev (k + 1))); lia.
Qed.

Lemma choose_either prev D k :
  (k <> D /\ choose prev D k = prev (k + 1)) \/
  (k <> - D /\ choose prev D k = prev (k - 1) + 1) \/
  (D = 0 /\ k = 0 /\ choose prev D k = prev 1).
Proof.
  destruct (Z.eq_dec k (- D)) as [H1|H1].
  - rewrite choose_first by done. destruct (Z.eq_dec k D).
    + right; right. split_and!; [lia|lia|]. f_equal. lia.
    + by left.
  - destruct (Z.eq_dec k D) as [H2|H2].
    + rewrite choose_last by done. right; left. done.
    + rewrite choose_inner by done.
      destruct (Z.max_spec (prev (k - 1) + 1) (prev (k + 1))) as [[_ ->]|[_ ->]];
        [by left|by right; left].
Qed.

Lemma choose_ge_up prev D k : k <> D -> prev (k + 1) <= choose prev D k.
Proof.
  intros H. destruct (Z.eq_dec k (- D)).
  - rewrite choose_first by done. lia.
  - rewrite choose_inner by done. lia.
Qed.

Lemma choose_ge_left prev D k : k <> - D -> prev (k - 1) + 1 <= choose prev D k.
Proof.
  intros H. destruct (Z.eq_dec k D).
  - rewrite choose_last by done. lia.
  - rewrite choose_inner by done. lia.
Qed.

Lemma lane_up D k : lane (D + 1) k -> k <> D + 1 -> 0 <= D -> lane D (k + 1).
Proof. intros (i & Hi & ->) Hk HD. exists i. lia. Qed.

Lemma lane_left D k : lane (D + 1) k -> k <> - (D + 1) -> 0 <= D -> lane D (k - 1).
Proof. intros (i & Hi & ->) Hk HD. exists (i - 1). lia. Qed.

Lemma lane_bounds D k : lane D k -> - D <= k <= D.
Proof. intros (i & Hi & ->). lia. Qed.

Section Search.
Variables a b : list Z.

Lemma fr_entry D k :
  fr a b D k = slide a b (entry a b D k) (entry a b D k - k).
Proof. by destruct D. Qed.

Lemma before_S D : before a b (S D) = fr a b D.
Proof. reflexivity. Qed.

(** A value never lies left of or above the graph. *)
Lemma entry_fr_lb D k :
  lane (Z.of_nat D) k ->
  (0 <= entry a b D k /\ k <= entry a b D k) /\
  (entry a b D k <= fr a b D k).
Proof.
  revert k. induction D as [|D IH]; intros k Hl.
  - assert (k = 0) as -> by (apply lane_bounds in Hl; lia).
    split; [done|]. rewrite fr_entry.
    destruct (slide_spec a b (entry a b 0 0) (entry a b 0 0 - 0)) as (j & Hj & -> & _);
      [done|done|lia].
  - assert (Hlb : 0 <= entry a b (S D) k /\ k <= entry a b (S D) k).
    { unfold entry. rewrite before_S.
      destruct (choose_either (fr a b D) (Z.of_nat (S D)) k)
        as [[Hk ->]|[[Hk ->]|(? & _)]]; [| |lia].
      - destruct (IH (k + 1)) as [[? ?] ?]; [apply lane_up; [|lia..]|lia].
        by replace (Z.of_nat D + 1) with (Z.of_nat (S D)) by lia.
      - destruct (IH (k - 1)) as [[? ?] ?]; [apply lane_left; [|lia..]|lia].
        by replace (Z.of_nat D + 1) with (Z.of_nat (S D)) by lia. }
    split; [done|]. rewrite fr_entry.
    destruct (slide_spec a b (entry a b (S D) k) (entry a b (S D) k - k))
      as (j & Hj & -> & _); lia.
Qed.

Lemma fr_lb D k :
  lane (Z.of_nat D) k -> 0 <= fr a b D k /\ k <= fr a b D k.
Proof. intros H. destruct (entry_fr_lb D k H) as [[? ?] ?]. lia. Qed.

(** Soundness: the points of round [D] are at most [D] steps away. *)
Lemma reach_entry_fr D k :
  lane (Z.of_nat D) k ->
  reach a b (entry a b D k) (entry a b D k - k) <= Z.of_nat D /\
  reach a b (fr a b D k) (fr a b D k - k) <= Z.of_nat D.
Proof.
  revert k. induction D as [|D IH]; intros k Hl.
  - assert (k = 0) as -> by (apply lane_bounds in Hl; lia).
    assert (He : reach a b (entry a b 0 0) (entry a b 0 0 - 0) <= 0).
    { change (entry a b 0 0) with 0. rewrite reach_origin. done. }
    split; [done|]. rewrite fr_entry.
    destruct (slide_spec a b (entry a b 0 0) (entry a b 0 0 - 0))
      as (j & Hj & -> & Hrun & _); [done|done|].
    replace (entry a b 0 0 + j - 0) with (entry a b 0 0 - 0 + j) by lia.
    rewrite run_reach; done.
  - destruct (entry_fr_lb (S D) k Hl) as [[Hx Hy] _].
    assert (He : reach a b (entry a b (S D) k) (entry a b (S D) k - k)
                 <= Z.of_nat (S D)).
    { revert Hx Hy. unfold entry. rewrite before_S.
      destruct (choose_either (fr a b D) (Z.of_nat (S D)) k)
        as [[Hk ->]|[[Hk ->]|(? & _)]]; [| |lia]; intros Hx Hy.
      - assert (Hl' : lane (Z.of_nat D) (k + 1)).
        { apply lane_up; [|lia..].
          by replace (Z.of_nat D + 1) with (Z.of_nat (S D)) by lia. }
        destruct (IH _ Hl') as [_ Hr]. destruct (fr_lb _ _ Hl') as [? ?].
        pose proof (reach_down a b (fr a b D (k + 1)) (fr a b D (k + 1) - (k + 1))).
        replace (fr a b D (k + 1) - (k + 1) + 1) with (fr a b D (k + 1) - k) in * by lia.
        lia.
      - assert (Hl' : lane (Z.of_nat D) (k - 1)).
        { apply lane_left; [|lia..].
          by replace (Z.of_nat D + 1) with (Z.of_nat (S D)) by lia. }
        destruct (IH _ Hl') as [_ Hr]. destruct (fr_lb _ _ Hl') as [? ?].
        pose proof (reach_right a b (fr a b D (k - 1)) (fr a b D (k - 1) - (k - 1))).
        replace (fr a b D (k - 1) + 1 - k) with (fr a b D (k - 1) - (k - 1)) by lia.
        lia. }
    split; [done|]. rewrite fr_entry.
    destruct (slide_spec a b (entry a b (S D) k) (entry a b (S D) k - k))
      as (j & Hj & -> & Hrun & _); [lia|lia|].
    replace (entry a b (S D) k + j - k) with (entry a b (S D) k - k + j) by lia.
    rewrite run_reach; [done|lia|lia|done|done].
Qed.

(** A value lies at most [D] columns and [D] rows beyond the graph. *)
Lemma fr_ub D k :
  lane (Z.of_nat D) k ->
  fr a b D k <= len a + Z.of_nat D /\ fr a b D k - k <= len b + Z.of_nat D.
Proof.
  intros L. destruct (reach_entry_fr D k L) as [_ H].
  unfold reach in H.
  pose proof (ed_nonneg (pre a (fr a b D k)) (pre b (fr a b D k - k))). lia.
Qed.

(** Completeness: no point of diagonal [k] that is at most [D] steps away
    lies beyond the value of round [D]. *)
Lemma fr_complete D p q :
  0 <= p <= len a -> 0 <= q <= len b ->
  lane (Z.of_nat D) (p - q) ->
  ed (pre a p) (pre b q) <= Z.of_nat D ->
  p <= fr a b D (p - q).
Proof.
  revert p q. induction D as [|D IHD].
  all: intros p q [Hp0 Hp]; revert q Hp; pattern p; apply natlike_ind; [| |done].
  all: clear p Hp0.
  - intros q _ _ Hl _. apply fr_lb in Hl. lia.
  - intros p Hp0 IHp q Hp Hq Hl Hed.
    destruct (Z.eq_dec q 0) as [->|Hq0]; [apply fr_lb in Hl; lia|].
    destruct (lookup_lt_len a p) as [c Hc]; [lia|].
    destruct (lookup_lt_len b (q - 1)) as [c' Hc']; [lia|].
    replace (Z.succ p) with (p + 1) in * by lia.
    assert (Hpre : pre b q = pre b (q - 1) ++ [c']).
    { rewrite <- (pre_succ b (q - 1) c') by (done || lia). f_equal. lia. }
    rewrite (pre_succ a p c), Hpre in Hed by done.
    apply ed_snoc_inv in Hed as [[-> Hed]|[Hed|Hed]].
    + specialize (IHp (q - 1)).
      replace (p - (q - 1)) with (p + 1 - q) in IHp by lia.
      specialize (IHp ltac:(lia) ltac:(lia) Hl Hed).
      destruct (Z.eq_dec p (fr a b 0 (p + 1 - q))) as [Heq|]; [exfalso|lia].
      rewrite fr_entry in Heq.
      destruct (entry_fr_lb 0 _ Hl) as [[? ?] _].
      destruct (slide_spec a b (entry a b 0 (p + 1 - q)) (entry a b 0 (p + 1 - q) - (p + 1 - q)))
        as (j & Hj & Hs & _ & Hstuck); [lia|lia|].
      rewrite Hs in Heq. apply Hstuck. rewrite <- Heq.
      replace (entry a b 0 (p + 1 - q) - (p + 1 - q) + j) with (q - 1) by lia.
      split_and!; [lia|lia|congruence].
    + pose proof (ed_nonneg (pre a p) (pre b (q - 1) ++ [c'])). lia.
    + pose proof (ed_nonneg (pre a p ++ [c]) (pre b (q - 1))). lia.
  - intros q _ _ Hl _. apply fr_lb in Hl. lia.
  - intros p Hp0 IHp q Hp Hq Hl Hed.
    destruct (Z.eq_dec q 0) as [->|Hq0]; [apply fr_lb in Hl; lia|].
    destruct (lookup_lt_len a p) as [c Hc]; [lia|].
    destruct (lookup_lt_len b (q - 1)) as [c' Hc']; [lia|].
    replace (Z.succ p) with (p + 1) in * by lia.
    assert (Hpre : pre b q = pre b (q - 1) ++ [c']).
    { rewrite <- (pre_succ b (q - 1) c') by (done || lia). f_equal. lia. }
    pose proof (entry_fr_lb (S D) _ Hl) as [[? ?] Hef].
    rewrite (pre_succ a p c), Hpre in Hed by done.
    apply ed_snoc_inv in Hed as [[-> Hed]|[Hed|Hed]].
    + specialize (IHp (q - 1)).
      replace (p - (q - 1)) with (p + 1 - q) in IHp by lia.
      specialize (IHp ltac:(lia) ltac:(lia) Hl Hed).
      destruct (Z.eq_dec p (fr a b (S D) (p + 1 - q))) as [Heq|]; [exfalso|lia].
      rewrite fr_entry in Heq.
      destruct (slide_spec a b (entry a b (S D) (p + 1 - q))
                  (entry a b (S D) (p + 1 - q) - (p + 1 - q)))
        as (j & Hj & Hs & _ & Hstuck); [lia|lia|].
      rewrite Hs in Heq. apply Hstuck. rewrite <- Heq.
      replace (entry a b (S D) (p + 1 - q) - (p + 1 - q) + j) with (q - 1) by lia.
      split_and!; [lia|lia|congruence].
    + rewrite <- Hpre in Hed.
      pose proof (ed_ge_diff (pre a p) (pre b q)) as Hd.
      rewrite !len_pre in Hd by lia.
      assert (Hk : p + 1 - q <> - Z.of_nat (S D)) by lia.
      assert (Hl' : lane (Z.of_nat D) (p - q)).
      { replace (p - q) with (p + 1 - q - 1) by lia. apply lane_left; [|lia..].
        by replace (Z.of_nat D + 1) with (Z.of_nat (S D)) by lia. }
      specialize (IHD p q ltac:(lia) ltac:(lia) Hl' ltac:(lia)).
      pose proof (choose_ge_left (fr a b D) (Z.of_nat (S D)) (p + 1 - q) Hk) as Hc1.
      unfold entry in Hef. rewrite before_S in Hef.
      replace (p + 1 - q - 1) with (p - q) in Hc1 by lia. lia.
    + rewrite <- (pre_succ a p c) in Hed by done.
      pose proof (ed_ge_diff (pre a (p + 1)) (pre b (q - 1))) as Hd.
      rewrite !len_pre in Hd by lia.
      assert (Hk : p + 1 - q <> Z.of_nat (S D)) by lia.
      assert (Hl' : lane (Z.of_nat D) (p + 1 - (q - 1))).
      { replace (p + 1 - (q - 1)) with (p + 1 - q + 1) by lia. apply lane_up; [|lia..].
        by replace (Z.of_nat D + 1) with (Z.of_nat (S D)) by lia. }
      specialize (IHD (p + 1) (q - 1) ltac:(lia) ltac:(lia) Hl' ltac:(lia)).
      pose proof (choose_ge_up (fr a b D) (Z.of_nat (S D)) (p + 1 - q) Hk) as Hc1.
      unfold entry in Hef. rewrite before_S in Hef.
      replace (p + 1 - q + 1) with (p + 1 - (q - 1)) in Hc1 by lia. lia.
Qed.
End Search.

(** ** The graph seen from its far corner *)

Lemma suf_reverse l p :
  0 <= p <= len l -> suf (reverse l) p = reverse (pre l (len l - p)).
Proof.
  intros H. unfold pre, suf, len in *. rewrite drop_reverse. do 2 f_equal. lia.
Qed.

Lemma ed_pre_reverse a b p q :
  0 <= p <= len a -> 0 <= q <= len b ->
  ed (pre (reverse a) p) (pre (reverse b) q)
  = ed (suf a (len a - p)) (suf b (len b - q)).
Proof. intros Hp Hq. rewrite !pre_reverse by done. apply ed_reverse. Qed.

Lemma ed_suf_reverse a b p q :
  0 <= p <= len a -> 0 <= q <= len b ->
  ed (suf (reverse a) p) (suf (reverse b) q)
  = ed (pre a (len a - p)) (pre b (len b - q)).
Proof. intros Hp Hq. rewrite !suf_reverse by done. apply ed_reverse. Qed.

Lemma run_reverse a b x y j :
  0 <= x -> 0 <= y -> 0 <= j -> x + j <= len a -> y + j <= len b ->
  run (reverse a) (reverse b) x y j ->
  run a b (len a - (x + j)) (len b - (y + j)) j.
Proof.
  intros Hx Hy Hj Hxa Hyb Hrun i Hi.
  destruct (Hrun (j - 1 - i)) as (_ & _ & H); [lia|].
  rewrite !lookup_reverse_Z in H by (rewrite ?len_reverse; lia).
  split_and!; [lia|lia|].
  replace (len a - (x + j) + i) with (len a - (x + (j - 1 - i)) - 1) by lia.
  replace (len b - (y + j) + i) with (len b - (y + (j - 1 - i)) - 1) by lia.
  done.
Qed.

Lemma lane_of_ed s t D :
  ed s t = D -> lane D (len s - len t).
Proof.
  intros H. destruct (ed_parity s t) as [c Hc].
  pose proof (ed_ge_diff s t). exists (D - c). lia.
Qed.

(** ** The two searches meet *)

Section Meet.
Variables a b : list Z.

(** Every optimal path is met: when the distance is [Dx + Dy], some
    diagonal carries a value of round [Dx] of the search from the
    origin and a value of round [Dy] of the search from the far corner
    that overlap. *)
Lemma meet_exists (Dx Dy : nat) :
  ed a b = Z.of_nat Dx + Z.of_nat Dy ->
  exists k, lane (Z.of_nat Dx) k /\ lane (Z.of_nat Dy) (len a - len b - k) /\
            len a <= fr a b Dx k
                     + fr (reverse a) (reverse b) Dy (len a - len b - k).
Proof.
  intros Hd.
  destruct (ed_split a b (Z.of_nat Dx)) as (s1 & s2 & t1 & t2 & Ha & Hb & H1 & H2);
    [lia|].
  assert (Hs1 : pre a (len s1) = s1).
  { rewrite Ha. unfold pre, len. rewrite Nat2Z.id. by rewrite take_app_length. }
  assert (Ht1 : pre b (len t1) = t1).
  { rewrite Hb. unfold pre, len. rewrite Nat2Z.id. by rewrite take_app_length. }
  assert (Hs2 : suf a (len s1) = s2).
  { rewrite Ha. unfold suf, len. rewrite Nat2Z.id. by rewrite drop_app_length. }
  assert (Ht2 : suf b (len t1) = t2).
  { rewrite Hb. unfold suf, len. rewrite Nat2Z.id. by rewrite drop_app_length. }
  assert (HN : len a = len s1 + len s2) by (rewrite Ha, len_app; done).
  assert (HM : len b = len t1 + len t2) by (rewrite Hb, len_app; done).
  pose proof (len_nonneg s1). pose proof (len_nonneg s2).
  pose proof (len_nonneg t1). pose proof (len_nonneg t2).
  exists (len s1 - len t1).
  assert (L1 : lane (Z.of_nat Dx) (len s1 - len t1)) by by apply lane_of_ed.
  assert (L2 : lane (Z.of_nat Dy) (len a - len b - (len s1 - len t1))).
  { replace (len a - len b - (len s1 - len t1)) with (len s2 - len t2) by lia.
    apply lane_of_ed. lia. }
  split_and!; [done|done|].
  pose proof (fr_complete a b Dx (len s1) (len t1)) as Hf.
  rewrite Hs1, Ht1 in Hf. specialize (Hf ltac:(lia) ltac:(lia) L1 ltac:(lia)).
  pose proof (fr_complete (reverse a) (reverse b) Dy (len s2) (len t2)) as Hg.
  rewrite !len_reverse in Hg. rewrite ed_pre_reverse in Hg by lia.
  replace (len a - len s2) with (len s1) in Hg by lia.
  replace (len b - len t2) with (len t1) in Hg by lia.
  rewrite Hs2, Ht2 in Hg.
  replace (len s2 - len t2) with (len a - len b - (len s1 - len t1)) in Hg by lia.
  specialize (Hg ltac:(lia) ltac:(lia) L2 ltac:(lia)). lia.
Qed.

(** An overlap that is found no later than the distance allows is a
    middle snake. *)
Lemma meet_sound (Dx Dy : nat) k :
  lane (Z.of_nat Dx) k -> lane (Z.of_nat Dy) (len a - len b - k) ->
  len a <= fr a b Dx k + fr (reverse a) (reverse b) Dy (len a - len b - k) ->
  Z.of_nat Dx + Z.of_nat Dy <= ed a b ->
  let x_i := entry a b Dx k in
  let x := fr a b Dx k in
  (0 <= x_i <= x /\ x <= len a) /\ (0 <= x_i - k /\ x - k <= len b) /\
  run a b x_i (x_i - k) (x - x_i) /\ stuck a b x (x - k) /\
  ed a b = Z.of_nat Dx + Z.of_nat Dy /\
  ed (pre a x_i) (pre b (x_i - k)) <= Z.of_nat Dx /\
  ed (suf a x) (suf b (x - k)) <= Z.of_nat Dy.
Proof.
  intros L1 L2 Hov Hd x_i x.
  destruct (entry_fr_lb a b Dx k L1) as [[Hx0 Hy0] Hxx]. fold x_i x in Hx0, Hy0, Hxx.
  destruct (reach_entry_fr a b Dx k L1) as [Hri Hr]. fold x_i x in Hri, Hr.
  pose proof (lane_bounds _ _ L2) as Hk.
  pose proof (reach_total a b x (x - k) ltac:(lia) ltac:(lia)) as Htot.
  assert (HxN : x <= len a) by lia.
  assert (HyM : x - k <= len b) by lia.
  destruct (slide_spec a b x_i (x_i - k)) as (j & Hj & Hs & Hrun & Hstuck); [lia|lia|].
  assert (Hx : x = x_i + j) by (unfold x, x_i; rewrite fr_entry at 1; done).
  rewrite <- Hx in Hstuck.
  replace (x_i - k + j) with (x - k) in Hstuck by lia.
  replace j with (x - x_i) in Hrun by lia.
  rewrite reach_inside in Hr by done. rewrite reach_inside in Hri by lia.
  (* the other search *)
  fold x in Hov.
  destruct (fr_lb (reverse a) (reverse b) Dy _ L2) as [Hx'0 Hy'0].
  destruct (reach_entry_fr (reverse a) (reverse b) Dy _ L2) as [_ Hr'].
  revert Hov Hx'0 Hy'0 Hr'.
  generalize (fr (reverse a) (reverse b) Dy (len a - len b - k)). intros x' Hov Hx'0 Hy'0 Hr'.
  pose proof (reach_diag_n (reverse a) (reverse b) (len a - x) (len b - (x - k))
                (x' - (len a - x)) ltac:(lia) ltac:(lia) ltac:(lia)) as Hmono.
  replace (len a - x + (x' - (len a - x))) with x' in Hmono by lia.
  replace (len b - (x - k) + (x' - (len a - x))) with (x' - (len a - len b - k))
    in Hmono by lia.
  rewrite reach_inside in Hmono by (rewrite len_reverse; lia).
  rewrite ed_pre_reverse in Hmono by lia.
  replace (len a - (len a - x)) with x in Hmono by lia.
  replace (len b - (len b - (x - k))) with (x - k) in Hmono by lia.
  pose proof (ed_app (pre a x) (suf a x) (pre b (x - k)) (suf b (x - k))) as Happ.
  rewrite !pre_suf in Happ.
  split_and!; try done; try lia.
Qed.
End Meet.

Lemma rem2_cases n :
  exists q, (n = 2 * q /\ Z.rem n 2 = 0) \/
            (n = 2 * q + 1 /\ Z.abs (Z.rem n 2) = 1).
Proof.
  pose proof (Z.quot_rem' n 2) as H.
  pose proof (Z.rem_bound_abs n 2 ltac:(lia)) as Hb.
  destruct (Z.eq_dec (Z.rem n 2) 0) as [E|E].
  - exists (Z.quot n 2). left. lia.
  - destruct (Z.eq_dec (Z.rem n 2) 1).
    + exists (Z.quot n 2). right. lia.
    + exists (Z.quot n 2 - 1). right. lia.
Qed.

Lemma suf_suf l p q : 0 <= p -> 0 <= q -> suf (suf l p) q = suf l (p + q).
Proof. intros Hp Hq. unfold suf. rewrite drop_drop. f_equal. lia. Qed.

(** A run of diagonal edges costs nothing. *)
Lemma ed_through_run a b x y j :
  0 <= x -> 0 <= y -> 0 <= j -> run a b x y j ->
  ed a b <= ed (pre a x) (pre b y) + ed (suf a (x + j)) (suf b (y + j)).
Proof.
  intros Hx Hy Hj Hrun.
  pose proof (run_segments a b x y j Hx Hy Hj Hrun) as Hseg.
  rewrite <- (pre_suf a x) at 1. rewrite <- (pre_suf b y) at 1.
  rewrite <- (pre_suf (suf a x) j), <- (pre_suf (suf b y) j), Hseg.
  rewrite !suf_suf by done.
  etrans; [apply ed_app|]. apply Z.add_le_mono_l.
  etrans; [apply ed_app|]. rewrite ed_refl. lia.
Qed.

Section Hits.
Variables a b : list Z.

Lemma fwd_hit_inv D k :
  fwd_hit a b D k = true ->
  exists D', D = S D' /\ - Z.of_nat D' <= len a - len b - k <= Z.of_nat D' /\
    (exists q, len a - len b = 2 * q + 1) /\
    len a <= fr a b D k + fr (reverse a) (reverse b) D' (len a - len b - k).
Proof.
  unfold fwd_hit. intros H.
  apply andb_prop in H as [H H4]. apply andb_prop in H as [H H3].
  apply andb_prop in H as [H1 H2].
  apply Z.eqb_eq in H1. apply Z.leb_le in H2, H3, H4.
  destruct D as [|D']; [lia|]. exists D'. split; [done|].
  replace (- (k - (len a - len b))) with (len a - len b - k) in * by lia.
  split_and!; [lia|lia| |done].
  destruct (rem2_cases (len a - len b)) as [q [[_ Hq]|[Hq _]]]; [lia|by exists q].
Qed.

Lemma bwd_hit_inv D k :
  bwd_hit a b D k = true ->
  - Z.of_nat D <= len a - len b - k <= Z.of_nat D /\
  (exists q, len a - len b = 2 * q) /\
  len a <= fr (reverse a) (reverse b) D k + fr a b D (len a - len b - k).
Proof.
  unfold bwd_hit. intros H.
  apply andb_prop in H as [H H4]. apply andb_prop in H as [H H3].
  apply andb_prop in H as [H1 H2].
  apply Z.eqb_eq in H1. apply Z.leb_le in H2, H3, H4.
  replace (- (k - (len a - len b))) with (len a - len b - k) in * by lia.
  split_and!; [lia|lia| |done].
  destruct (rem2_cases (len a - len b)) as [q [[Hq _]|[_ Hq]]]; [by exists q|lia].
Qed.

(** A hit of the first loop, no later than the distance allows, returns
    a middle snake. *)
Lemma fwd_hit_ok D k :
  lane (Z.of_nat D) k -> fwd_hit a b D k = true ->
  2 * Z.of_nat D - 1 <= ed a b ->
  middle_ok a b (fwd_tuple a b D k).
Proof.
  intros L1 Hhit Hd.
  destruct (fwd_hit_inv D k Hhit) as (D' & -> & Hk & [q Hq] & Hov).
  assert (L2 : lane (Z.of_nat D') (len a - len b - k)).
  { destruct L1 as (i & Hi & ->). exists (q - i + Z.of_nat D' + 1). lia. }
  destruct (meet_sound a b (S D') D' k L1 L2 Hov ltac:(lia))
    as ((Hx0 & HxN) & (Hy0 & HyM) & Hrun & Hstuck & Hed & Hp & Hs).
  pose proof (ed_through_run a b (entry a b (S D') k) (entry a b (S D') k - k)
                (fr a b (S D') k - entry a b (S D') k)
                ltac:(lia) Hy0 ltac:(lia) Hrun) as Hthru.
  replace (entry a b (S D') k + (fr a b (S D') k - entry a b (S D') k))
    with (fr a b (S D') k) in Hthru by lia.
  replace (entry a b (S D') k - k + (fr a b (S D') k - entry a b (S D') k))
    with (fr a b (S D') k - k) in Hthru by lia.
  unfold middle_ok, fwd_tuple.
  split_and!; try lia; try done.
  intros HD Hempty. assert (D' = 0%nat) as -> by lia.
  pose proof (ed_nonneg (suf a (fr a b 1 k)) (suf b (fr a b 1 k - k))) as Hnn.
  assert (Hsuf : suf a (fr a b 1 k) = suf b (fr a b 1 k - k))
    by (apply ed_zero_eq; lia).
  destruct (stuck_suffix a b (fr a b 1 k) (fr a b 1 k - k)
              ltac:(lia) ltac:(lia) Hstuck Hsuf) as [HN HM].
  destruct (slide_spec a b 0 0) as (j & Hj & Hsl & Hrun0 & _); [done|done|].
  pose proof (run_segments a b 0 0 j ltac:(done) ltac:(done) Hj Hrun0) as Hseg.
  rewrite !suf_0 in Hseg.
  assert (Hfr0 : fr a b 0 0 = j) by (rewrite fr_entry; exact Hsl).
  assert (k = len a - len b) as Hkd by lia.
  destruct (Z.eq_dec k (-1)) as [Hk1|Hk1].
  - assert (He : entry a b 1 k = fr a b 0 0).
    { unfold entry. rewrite before_S, choose_first by (simpl; lia). f_equal. lia. }
    replace (Z.min (len a) (len b)) with j by lia. done.
  - assert (He : entry a b 1 k = fr a b 0 0 + 1).
    { apply lane_bounds in L1. unfold entry.
      rewrite before_S, choose_last by (simpl; lia). do 2 f_equal.
      destruct L1 as [? ?]. simpl in *. lia. }
    replace (Z.min (len a) (len b)) with j by (apply lane_bounds in L1; lia). done.
Qed.

(** The same for the second loop. *)
Lemma bwd_hit_ok D k :
  lane (Z.of_nat D) k -> bwd_hit a b D k = true ->
  2 * Z.of_nat D <= ed a b ->
  middle_ok a b (bwd_tuple a b D k).
Proof.
  intros L1 Hhit Hd.
  destruct (bwd_hit_inv D k Hhit) as (Hk & [q Hq] & Hov).
  assert (L2 : lane (Z.of_nat D) (len a - len b - k)).
  { destruct L1 as (i & Hi & ->). exists (q - i + Z.of_nat D). lia. }
  pose proof (meet_sound (reverse a) (reverse b) D D k) as Hm.
  rewrite !reverse_involutive, !len_reverse, ed_reverse in Hm.
  destruct (Hm L1 L2 Hov ltac:(lia))
    as ((Hx0 & HxN) & (Hy0 & HyM) & Hrun & Hstuck & Hed & Hp & Hs).
  clear Hm.
  rewrite ed_pre_reverse in Hp by lia. rewrite ed_suf_reverse in Hs by lia.
  apply run_reverse in Hrun; [|lia..].
  revert Hx0 HxN Hy0 HyM Hrun Hp Hs. unfold middle_ok, bwd_tuple.
  generalize (entry (reverse a) (reverse b) D k).
  generalize (fr (reverse a) (reverse b) D k). intros x x_i Hx0 HxN Hy0 HyM Hrun Hp Hs.
  replace (x_i + (x - x_i)) with x in Hrun by lia.
  replace (x_i - k + (x - x_i)) with (x - k) in Hrun by lia.
  replace (len a - x_i - (len a - x)) with (x - x_i) by lia.
  pose proof (ed_through_run a b (len a - x) (len b - (x - k)) (x - x_i)
                ltac:(lia) ltac:(lia) ltac:(lia) Hrun) as Hthru.
  replace (len a - x + (x - x_i)) with (len a - x_i) in Hthru by lia.
  replace (len b - (x - k) + (x - x_i)) with (len b - (x_i - k)) in Hthru by lia.
  split_and!; try lia; try done.
  intros HD _. assert (a = b) as -> by (apply ed_zero_eq; lia). done.
Qed.

(** A round without a hit shows that the distance is larger. *)
Lemma no_hit_progress D :
  2 * Z.of_nat D <= ed a b + 1 ->
  (forall k, lane (Z.of_nat D) k -> fwd_hit a b D k = false) ->
  (forall k, lane (Z.of_nat D) k -> bwd_hit a b D k = false) ->
  2 * Z.of_nat (S D) <= ed a b + 1.
Proof.
  intros Hd Hf Hb.
  destruct (ed_parity a b) as [c Hc].
  destruct (Z.eq_dec (ed a b) (2 * Z.of_nat D - 1)) as [E1|E1].
  { exfalso. destruct D as [|D']; [pose proof (ed_nonneg a b); lia|].
    destruct (meet_exists a b (S D') D' ltac:(lia)) as (k & L1 & L2 & Hov).
    specialize (Hf k L1). apply lane_bounds in L2.
    unfold fwd_hit in Hf. rewrite before_S in Hf.
    replace (- (k - (len a - len b))) with (len a - len b - k) in Hf by lia.
    destruct (rem2_cases (len a - len b)) as [q [[Hq _]|[_ Hq]]]; [lia|].
    rewrite Hq in Hf. change (1 =? 1) with true in Hf. rewrite andb_true_l in Hf.
    apply andb_false_iff in Hf as [Hf|Hf]; [|apply Z.leb_gt in Hf; lia].
    apply andb_false_iff in Hf as [Hf|Hf]; apply Z.leb_gt in Hf; lia. }
  destruct (Z.eq_dec (ed a b) (2 * Z.of_nat D)) as [E2|E2]; [exfalso|lia].
  pose proof (meet_exists (reverse a) (reverse b) D D) as Hm.
  rewrite !reverse_involutive, !len_reverse, ed_reverse in Hm.
  destruct (Hm ltac:(lia)) as (k & L1 & L2 & Hov).
  specialize (Hb k L1). apply lane_bounds in L2.
  unfold bwd_hit in Hb.
  replace (- (k - (len a - len b))) with (len a - len b - k) in Hb by lia.
  destruct (rem2_cases (len a - len b)) as [q [[_ Hq]|[Hq _]]]; [|lia].
  rewrite Hq in Hb. change (0 =? 0) with true in Hb. rewrite andb_true_l in Hb.
  apply andb_false_iff in Hb as [Hb|Hb]; [|apply Z.leb_gt in Hb; lia].
  apply andb_false_iff in Hb as [Hb|Hb]; apply Z.leb_gt in Hb; lia.
Qed.
End Hits.

(** ** The result of a search is determined by the sequences *)

Lemma first_hit_unique hit D k k' :
  first_hit hit D k -> first_hit hit D k' -> k = k'.
Proof.
  intros (L & H & Hmin) (L' & H' & Hmin').
  destruct (Z.lt_trichotomy k k') as [Hlt|[->|Hlt]]; [|done|].
  - rewrite (Hmin' k L Hlt) in H. done.
  - rewrite (Hmin k' L' Hlt) in H'. done.
Qed.

Lemma round_result_unique a b D t t' :
  round_result a b D t -> round_result a b D t' -> t = t'.
Proof.
  intros [(k & Hk & ->)|(Hmiss & k & Hk & ->)]
         [(k' & Hk' & ->)|(Hmiss' & k' & Hk' & ->)].
  - by rewrite (first_hit_unique _ _ _ _ Hk Hk').
  - destruct Hk as (L & H & _). rewrite (Hmiss' k L) in H. done.
  - destruct Hk' as (L & H & _). rewrite (Hmiss k' L) in H. done.
  - by rewrite (first_hit_unique _ _ _ _ Hk Hk').
Qed.

Lemma round_result_hit a b D t :
  round_result a b D t -> ~ round_misses a b D.
Proof.
  intros [(k & (L & H & _) & _)|(_ & k & (L & H & _) & _)] Hmiss;
    destruct (Hmiss k L) as [H1 H2]; congruence.
Qed.

Lemma search_result_unique a b t t' :
  search_result a b t -> search_result a b t' -> t = t'.
Proof.
  intros (D & Hr & Hbefore) (D' & Hr' & Hbefore').
  destruct (Nat.lt_trichotomy D D') as [Hlt|[->|Hlt]].
  - exfalso. by apply (round_result_hit _ _ _ _ Hr), Hbefore'.
  - by eapply round_result_unique.
  - exfalso. by apply (round_result_hit _ _ _ _ Hr'), Hbefore.
Qed.

(** ** Reading and writing the arrays *)

Lemma keeps_refl s : keeps s s.
Proof. by intros n. Qed.

Lemma keeps_trans s1 s2 s3 : keeps s1 s2 -> keeps s2 s3 -> keeps s1 s3.
Proof. intros H1 H2 n H. by apply H2, H1. Qed.

Lemma cap_le n m s : m <= n -> cap n s -> cap m s.
Proof.
  intros Hle (vf & vb & H1 & H2 & [? ?] & [? ?]).
  exists vf, vb. unfold wide. split_and!; (done || lia).
Qed.

Lemma rd_holds w s j v : holds w s j v -> rd w j s = Ok (v, s).
Proof. intros (V & H1 & H2). unfold rd. by rewrite H1, H2. Qed.

Lemma sel_upd_same w v s : sel w (upd w v s) = Some v.
Proof. by destruct w. Qed.

Lemma sel_upd_other w w' v s : w' <> w -> sel w' (upd w v s) = sel w' s.
Proof. by destruct w, w'. Qed.

Lemma wr_spec w n s j v :
  cap n s -> - n <= j <= n ->
  exists s', wr w j v s = Ok (tt, s') /\ keeps s s' /\
    holds w s' j v /\
    (forall j' v', j' <> j -> holds w s j' v' -> holds w s' j' v') /\
    (forall w' j' v', w' <> w -> holds w' s j' v' -> holds w' s' j' v').
Proof.
  intros (vf & vb & Hf & Hb & [Hf1 Hf2] & [Hb1 Hb2]) Hj.
  assert (exists V, sel w s = Some V /\ start_ V <= j <= end_ V) as (V & HV & Hr).
  { destruct w; [exists vf|exists vb]; (split; [done|lia]). }
  assert (Hin : (start_ V <=? j) && (j <=? end_ V) = true).
  { apply andb_true_intro. split; apply Z.leb_le; lia. }
  unfold wr, V_set. rewrite HV, Hin. eexists. split; [done|]. split_and!.
  - intros m (vf' & vb' & Hf' & Hb' & Hw1 & Hw2).
    destruct w; simpl in *; simplify_eq;
      (eexists _, _; split_and!; [done|done|by unfold wide in *|by unfold wide in *]).
  - eexists. split; [apply sel_upd_same|].
    unfold V_get. simpl. rewrite Hin. apply lookup_insert_eq.
  - intros j' v' Hne (V' & HV' & Hg). rewrite HV in HV'. simplify_eq.
    eexists. split; [apply sel_upd_same|].
    unfold V_get in *. simpl.
    destruct ((start_ V' <=? j') && (j' <=? end_ V')); [|done].
    rewrite lookup_insert_ne by lia. done.
  - intros w' j' v' Hne (V' & HV' & Hg).
    exists V'. rewrite sel_upd_other by done. done.
Qed.

(** ** The choice of the starting point *)

Lemma pick_spec w s (prev : Z -> Z) D k :
  (k = - D \/ k <> D -> holds w s (k + 1) (prev (k + 1))) ->
  (k <> - D -> holds w s (k - 1) (prev (k - 1))) ->
  pick w D k s = Ok (choose prev D k, s).
Proof.
  intros Hup Hleft. unfold pick, choose, bind, ret.
  destruct (Z.eqb_spec k (- D)) as [H1|H1].
  - simpl. apply rd_holds, Hup. by left.
  - destruct (Z.eqb_spec k D) as [H2|H2]; simpl.
    + rewrite (rd_holds _ _ _ _ (Hleft H1)). done.
    + rewrite (rd_holds _ _ _ _ (Hleft H1)).
      rewrite (rd_holds _ _ _ _ (Hup (or_intror H2))).
      destruct (prev (k - 1) <? prev (k + 1)).
      * apply rd_holds, Hup. by right.
      * rewrite (rd_holds _ _ _ _ (Hleft H1)). done.
Qed.

(** ** The two snake loops *)

Lemma rd_seq_ok (l : list Z) i c s :
  0 <= i -> l !! Z.to_nat i = Some c -> rd_seq l i s = Ok (c, s).
Proof.
  intros Hi Hc. unfold rd_seq. destruct (Z.ltb_spec i 0); [lia|]. by rewrite Hc.
Qed.

Lemma lookup_pre (l : list Z) p i :
  0 <= i < p -> pre l p !! Z.to_nat i = l !! Z.to_nat i.
Proof. intros H. unfold pre. apply lookup_take_lt. lia. Qed.

Section Loops.
Variables (old new : list Z) (N M : Z).
Hypothesis HN : 0 <= N <= len old.
Hypothesis HM : 0 <= M <= len new.

Local Abbreviation a := (pre old N).
Local Abbreviation b := (pre new M).

Lemma len_a : len a = N.
Proof. by apply len_pre. Qed.

Lemma len_b : len b = M.
Proof. by apply len_pre. Qed.

Lemma snake_fwd_S n x y :
  snake_fwd (S n) old new N M x y
  = if (x <? N) && (y <? M)
    then c <- rd_seq old x ;; c' <- rd_seq new y ;;
         if c =? c' then snake_fwd n old new N M (x + 1) (y + 1)
         else ret (x, y)
    else ret (x, y).
Proof. reflexivity. Qed.

Lemma snake_bwd_S n x y :
  snake_bwd (S n) old new N M x y
  = if (x <? N) && (y <? M)
    then c <- rd_seq old (N - x - 1) ;; c' <- rd_seq new (M - y - 1) ;;
         if c =? c' then snake_bwd n old new N M (x + 1) (y + 1)
         else ret (x, y)
    else ret (x, y).
Proof. reflexivity. Qed.

Lemma slide_n_S n (l k : list Z) x y :
  slide_n (S n) l k x y
  = if (x <? len l) && (y <? len k)
       && bool_decide (l !! Z.to_nat x = k !! Z.to_nat y)
    then slide_n n l k (x + 1) (y + 1) else x.
Proof. reflexivity. Qed.

Lemma snake_fwd_slide_n n x y s :
  0 <= x -> 0 <= y -> N - x <= Z.of_nat n ->
  snake_fwd (S n) old new N M x y s
  = Ok ((slide_n n a b x y, y + (slide_n n a b x y - x)), s).
Proof.
  revert x y. induction n as [|n IH]; intros x y Hx Hy Hn.
  - rewrite snake_fwd_S. destruct (Z.ltb_spec x N); [lia|].
    rewrite andb_false_l. unfold ret. simpl slide_n. do 3 f_equal. lia.
  - rewrite snake_fwd_S, slide_n_S, len_a, len_b.
    destruct (Z.ltb_spec x N) as [HxN|HxN];
      [|rewrite !andb_false_l; unfold ret; do 3 f_equal; lia].
    destruct (Z.ltb_spec y M) as [HyM|HyM];
      [|rewrite !andb_false_r, !andb_false_l; unfold ret; do 3 f_equal; lia].
    rewrite !andb_true_l.
    destruct (lookup_lt_len old x) as [c Hc]; [lia|].
    destruct (lookup_lt_len new y) as [c' Hc']; [lia|].
    unfold bind. rewrite (rd_seq_ok old x c), (rd_seq_ok new y c') by done.
    rewrite !lookup_pre, Hc, Hc' by lia.
    destruct (Z.eqb_spec c c') as [->|Hne].
    + rewrite bool_decide_eq_true_2 by done.
      rewrite IH by lia. do 3 f_equal. lia.
    + rewrite bool_decide_eq_false_2 by congruence.
      unfold ret. do 3 f_equal. lia.
Qed.

Lemma snake_fwd_spec x y s :
  0 <= x -> 0 <= y ->
  snake_fwd (S (Z.to_nat (N - x))) old new N M x y s
  = Ok ((slide a b x y, y + (slide a b x y - x)), s).
Proof.
  intros Hx Hy. rewrite snake_fwd_slide_n by lia.
  unfold slide. by rewrite len_a.
Qed.

Lemma snake_bwd_slide_n n x y s :
  0 <= x -> 0 <= y -> N - x <= Z.of_nat n ->
  snake_bwd (S n) old new N M x y s
  = Ok ((slide_n n (reverse a) (reverse b) x y,
         y + (slide_n n (reverse a) (reverse b) x y - x)), s).
Proof.
  revert x y. induction n as [|n IH]; intros x y Hx Hy Hn.
  - rewrite snake_bwd_S. destruct (Z.ltb_spec x N); [lia|].
    rewrite andb_false_l. unfold ret. simpl slide_n. do 3 f_equal. lia.
  - rewrite snake_bwd_S, slide_n_S, !len_reverse, len_a, len_b.
    destruct (Z.ltb_spec x N) as [HxN|HxN];
      [|rewrite !andb_false_l; unfold ret; do 3 f_equal; lia].
    destruct (Z.ltb_spec y M) as [HyM|HyM];
      [|rewrite !andb_false_r, !andb_false_l; unfold ret; do 3 f_equal; lia].
    rewrite !andb_true_l.
    destruct (lookup_lt_len old (N - x - 1)) as [c Hc]; [lia|].
    destruct (lookup_lt_len new (M - y - 1)) as [c' Hc']; [lia|].
    unfold bind.
    rewrite (rd_seq_ok old (N - x - 1) c), (rd_seq_ok new (M - y - 1) c')
      by (done || lia).
    rewrite !lookup_reverse_Z by (rewrite ?len_a, ?len_b; lia).
    rewrite len_a, len_b, !lookup_pre, Hc, Hc' by lia.
    destruct (Z.eqb_spec c c') as [->|Hne].
    + rewrite bool_decide_eq_true_2 by done.
      rewrite IH by lia. do 3 f_equal. lia.
    + rewrite bool_decide_eq_false_2 by congruence.
      unfold ret. do 3 f_equal. lia.
Qed.

Lemma snake_bwd_spec x y s :
  0 <= x -> 0 <= y ->
  snake_bwd (S (Z.to_nat (N - x))) old new N M x y s
  = Ok ((slide (reverse a) (reverse b) x y,
         y + (slide (reverse a) (reverse b) x y - x)), s).
Proof.
  intros Hx Hy. rewrite snake_bwd_slide_n by lia.
  unfold slide. by rewrite len_reverse, len_a.
Qed.
End Loops.

(** ** One iteration of each inner loop *)

Lemma src_up D k :
  lane (Z.of_nat D) k -> k = - Z.of_nat D \/ k <> Z.of_nat D -> src D (k + 1).
Proof.
  intros L H. destruct D as [|D']; simpl.
  - apply lane_bounds in L. lia.
  - destruct L as (i & Hi & ->). exists i. lia.
Qed.

Lemma src_left D k :
  lane (Z.of_nat D) k -> k <> - Z.of_nat D -> src D (k - 1).
Proof.
  intros L H. destruct D as [|D']; simpl.
  - apply lane_bounds in L. lia.
  - destruct L as (i & Hi & ->). exists (i - 1). lia.
Qed.

Lemma src_meet_odd D k Delta :
  lane (Z.of_nat D) k -> Z.abs (Z.rem Delta 2) = 1 ->
  - (Z.of_nat D - 1) <= - (k - Delta) <= Z.of_nat D - 1 ->
  src D (- (k - Delta)).
Proof.
  intros L Hodd Hr. destruct D as [|D']; simpl; [lia|].
  destruct (rem2_cases Delta) as [q [[_ Hq]|[Hq _]]]; [lia|].
  destruct L as (i & Hi & ->). exists (q - i + Z.of_nat D' + 1). lia.
Qed.

Lemma src_meet_even D k Delta :
  lane (Z.of_nat D) k -> Z.rem Delta 2 = 0 ->
  - Z.of_nat D <= - (k - Delta) <= Z.of_nat D ->
  src (S D) (- (k - Delta)).
Proof.
  intros L Heven Hr. simpl.
  destruct (rem2_cases Delta) as [q [[Hq _]|[_ Hq]]]; [|lia].
  destruct L as (i & Hi & ->). exists (q - i + Z.of_nat D). lia.
Qed.

Section Iterations.
Variables (old new : list Z) (N M : Z).
Hypothesis HN : 0 <= N <= len old.
Hypothesis HM : 0 <= M <= len new.

Local Abbreviation a := (pre old N).
Local Abbreviation b := (pre new M).

Lemma fwd_iter_spec (D : nat) k n s :
  lane (Z.of_nat D) k -> cap n s -> Z.max 1 (Z.of_nat D) <= n ->
  ready Fwd a b D s -> ready Bwd (reverse a) (reverse b) D s ->
  exists s',
    fwd_iter old N new M (N - M) (Z.of_nat D) k s
    = Ok (if fwd_hit a b D k then Return (fwd_tuple a b D k) else Next, s') /\
    keeps s s' /\ holds Fwd s' k (fr a b D k) /\
    (forall j v, j <> k -> holds Fwd s j v -> holds Fwd s' j v) /\
    (forall j v, holds Bwd s j v -> holds Bwd s' j v).
Proof.
  intros L Hcap Hn Hf Hb.
  destruct (entry_fr_lb a b D k L) as [[Hx0 Hy0] _].
  pose proof (lane_bounds _ _ L) as Hk.
  destruct (wr_spec Fwd n s k (fr a b D k) Hcap ltac:(lia))
    as (s' & Hwr & Hkeep & Hnew & Hsame & Hother).
  exists s'. split_and!; [|done|done|done|intros j v; by apply Hother].
  unfold fwd_iter, bind.
  rewrite (pick_spec Fwd s (before a b D) (Z.of_nat D) k);
    [|intros H; by apply Hf, src_up|intros H; by apply Hf, src_left].
  fold (entry a b D k).
  rewrite (snake_fwd_spec old new N M HN HM) by lia.
  rewrite <- fr_entry.
  replace (entry a b D k - k + (fr a b D k - entry a b D k))
    with (fr a b D k - k) by lia.
  rewrite Hwr. unfold fwd_hit, fwd_tuple.
  rewrite (len_a old N HN), (len_b new M HM).
  destruct ((Z.abs (Z.rem (N - M) 2) =? 1)
            && (- (Z.of_nat D - 1) <=? - (k - (N - M)))
            && (- (k - (N - M)) <=? Z.of_nat D - 1)) eqn:Hc;
    [|by rewrite andb_false_l].
  rewrite andb_true_l.
  apply andb_prop in Hc as [Hc H3]. apply andb_prop in Hc as [H1 H2].
  apply Z.eqb_eq in H1. apply Z.leb_le in H2, H3.
  rewrite (rd_holds _ _ _ _ Hnew).
  rewrite (rd_holds Bwd s' (- (k - (N - M)))
             (before (reverse a) (reverse b) D (- (k - (N - M))))).
  2:{ apply Hother; [done|]. apply Hb. by apply src_meet_odd. }
  by destruct (N <=? _).
Qed.

Lemma bwd_iter_spec (D : nat) k n s :
  lane (Z.of_nat D) k -> cap n s -> Z.max 1 (Z.of_nat D) <= n ->
  ready Fwd a b (S D) s -> ready Bwd (reverse a) (reverse b) D s ->
  exists s',
    bwd_iter old N new M (N - M) (Z.of_nat D) k s
    = Ok (if bwd_hit a b D k then Return (bwd_tuple a b D k) else Next, s') /\
    keeps s s' /\ holds Bwd s' k (fr (reverse a) (reverse b) D k) /\
    (forall j v, j <> k -> holds Bwd s j v -> holds Bwd s' j v) /\
    (forall j v, holds Fwd s j v -> holds Fwd s' j v).
Proof.
  intros L Hcap Hn Hf Hb.
  destruct (entry_fr_lb (reverse a) (reverse b) D k L) as [[Hx0 Hy0] _].
  pose proof (lane_bounds _ _ L) as Hk.
  destruct (wr_spec Bwd n s k (fr (reverse a) (reverse b) D k) Hcap ltac:(lia))
    as (s' & Hwr & Hkeep & Hnew & Hsame & Hother).
  exists s'. split_and!; [|done|done|done|intros j v; by apply Hother].
  unfold bwd_iter, bind.
  rewrite (pick_spec Bwd s (before (reverse a) (reverse b) D) (Z.of_nat D) k);
    [|intros H; by apply Hb, src_up|intros H; by apply Hb, src_left].
  fold (entry (reverse a) (reverse b) D k).
  rewrite (snake_bwd_spec old new N M HN HM) by lia.
  rewrite <- fr_entry.
  replace (entry (reverse a) (reverse b) D k - k
           + (fr (reverse a) (reverse b) D k - entry (reverse a) (reverse b) D k))
    with (fr (reverse a) (reverse b) D k - k) by lia.
  rewrite Hwr. unfold bwd_hit, bwd_tuple.
  rewrite (len_a old N HN), (len_b new M HM).
  destruct ((Z.rem (N - M) 2 =? 0)
            && (- Z.of_nat D <=? - (k - (N - M)))
            && (- (k - (N - M)) <=? Z.of_nat D)) eqn:Hc;
    [|by rewrite andb_false_l].
  rewrite andb_true_l.
  apply andb_prop in Hc as [Hc H3]. apply andb_prop in Hc as [H1 H2].
  apply Z.eqb_eq in H1. apply Z.leb_le in H2, H3.
  rewrite (rd_holds _ _ _ _ Hnew).
  rewrite (rd_holds Fwd s' (- (k - (N - M))) (fr a b D (- (k - (N - M))))).
  2:{ apply Hother; [done|]. apply (Hf (- (k - (N - M)))). by apply src_meet_even. }
  by destruct (N <=? _).
Qed.
End Iterations.

(** ** Loops *)

Lemma for_count_rule {R} (I : nat -> statics -> Prop) (Q : R -> statics -> Prop)
  n i0 step (body : Z -> comp (flow R)) :
  (forall m s, (m < n)%nat -> I m s ->
     exists r s', body (i0 + step * Z.of_nat m) s = Ok (r, s') /\
       match r with Next => I (S m) s' | Return t => Q t s' end) ->
  forall s, I 0%nat s ->
  exists r s', for_count n i0 step body s = Ok (r, s') /\
    match r with Next => I n s' | Return t => Q t s' end.
Proof.
  revert I i0. induction n as [|n IH]; intros I i0 Hbody s HI.
  - exists Next, s. done.
  - destruct (Hbody 0%nat s ltac:(lia) HI) as (r & s1 & Hr & Hpost).
    replace (i0 + step * Z.of_nat 0) with i0 in Hr by lia.
    simpl. unfold bind. rewrite Hr. destruct r as [|t].
    + apply (IH (fun m => I (S m))); [|done].
      intros m s2 Hm HI2.
      replace (i0 + step + step * Z.of_nat m) with (i0 + step * Z.of_nat (S m)) by lia.
      apply Hbody; [lia|done].
    + exists (Return t), s1. done.
Qed.

Lemma src_lane_disjoint D j k : src D j -> lane (Z.of_nat D) k -> j <> k.
Proof.
  intros Hs (i & Hi & ->). destruct D as [|D']; simpl in Hs; [lia|].
  destruct Hs as (i' & Hi' & ->). lia.
Qed.

Section Passes.
Variables (old new : list Z) (N M : Z).
Hypothesis HN : 0 <= N <= len old.
Hypothesis HM : 0 <= M <= len new.

Local Abbreviation a := (pre old N).
Local Abbreviation b := (pre new M).

Lemma fwd_pass_spec (D : nat) n s :
  cap n s -> Z.max 1 (Z.of_nat D) <= n ->
  ready Fwd a b D s -> ready Bwd (reverse a) (reverse b) D s ->
  exists r s',
    for_count (Z.to_nat (Z.of_nat D + 1)) (- Z.of_nat D) 2
      (fwd_iter old N new M (N - M) (Z.of_nat D)) s = Ok (r, s') /\
    keeps s s' /\
    match r with
    | Return t =>
        exists k, first_hit (fwd_hit a b D) (Z.of_nat D) k /\
                  t = fwd_tuple a b D k
    | Next =>
        ready Fwd a b (S D) s' /\ ready Bwd (reverse a) (reverse b) D s' /\
        forall k, lane (Z.of_nat D) k -> fwd_hit a b D k = false
    end.
Proof.
  intros Hcap Hn Hf Hb.
  pose (I := fun (m : nat) (s1 : statics) =>
    keeps s s1 /\ ready Fwd a b D s1 /\ ready Bwd (reverse a) (reverse b) D s1 /\
    forall i, 0 <= i < Z.of_nat m ->
      holds Fwd s1 (2 * i - Z.of_nat D) (fr a b D (2 * i - Z.of_nat D)) /\
      fwd_hit a b D (2 * i - Z.of_nat D) = false).
  pose (Q := fun (t : snake_tuple) (s1 : statics) =>
    keeps s s1 /\
    exists k, first_hit (fwd_hit a b D) (Z.of_nat D) k /\
              t = fwd_tuple a b D k).
  destruct (for_count_rule I Q (Z.to_nat (Z.of_nat D + 1)) (- Z.of_nat D) 2
              (fwd_iter old N new M (N - M) (Z.of_nat D))) with (s := s)
    as (r & s' & Hrun & Hpost).
  - intros m s1 Hm (Hk1 & Hf1 & Hb1 & Hdone).
    assert (L : lane (Z.of_nat D) (- Z.of_nat D + 2 * Z.of_nat m))
      by (exists (Z.of_nat m); lia).
    destruct (fwd_iter_spec old new N M HN HM D _ n s1 L (Hk1 _ Hcap) Hn Hf1 Hb1)
      as (s2 & Hit & Hk2 & Hnew & Hsame & Hother).
    eexists _, s2. split; [exact Hit|].
    destruct (fwd_hit a b D (- Z.of_nat D + 2 * Z.of_nat m)) eqn:Hhit.
    + split; [by eapply keeps_trans|]. eexists. split; [|done].
      split_and!; [done|done|]. intros j (i & Hi & ->) Hj.
      apply Hdone. lia.
    + split_and!; [by eapply keeps_trans| | |].
      * intros j Hj. apply Hsame; [|by apply Hf1].
        by eapply src_lane_disjoint.
      * intros j Hj. by apply Hother, Hb1.
      * intros i Hi. destruct (Z.eq_dec i (Z.of_nat m)) as [->|Hne].
        { replace (2 * Z.of_nat m - Z.of_nat D)
            with (- Z.of_nat D + 2 * Z.of_nat m) by lia. done. }
        destruct (Hdone i ltac:(lia)) as [H1 H2]. split; [|done].
        apply Hsame; [lia|done].
  - split_and!; [apply keeps_refl|done|done|]. intros i Hi. lia.
  - exists r, s'. split; [done|]. destruct r as [|t].
    + destruct Hpost as (Hk1 & Hf1 & Hb1 & Hdone). split_and!; [done| |done|].
      * intros j (i & Hi & ->). rewrite before_S. apply Hdone. lia.
      * intros k (i & Hi & ->). apply Hdone. lia.
    + destruct Hpost as (Hk1 & Hq). done.
Qed.

Lemma bwd_pass_spec (D : nat) n s :
  cap n s -> Z.max 1 (Z.of_nat D) <= n ->
  ready Fwd a b (S D) s -> ready Bwd (reverse a) (reverse b) D s ->
  exists r s',
    for_count (Z.to_nat (Z.of_nat D + 1)) (- Z.of_nat D) 2
      (bwd_iter old N new M (N - M) (Z.of_nat D)) s = Ok (r, s') /\
    keeps s s' /\
    match r with
    | Return t =>
        exists k, first_hit (bwd_hit a b D) (Z.of_nat D) k /\
                  t = bwd_tuple a b D k
    | Next =>
        ready Fwd a b (S D) s' /\ ready Bwd (reverse a) (reverse b) (S D) s' /\
        forall k, lane (Z.of_nat D) k -> bwd_hit a b D k = false
    end.
Proof.
  intros Hcap Hn Hf Hb.
  pose (I := fun (m : nat) (s1 : statics) =>
    keeps s s1 /\ ready Fwd a b (S D) s1 /\
    ready Bwd (reverse a) (reverse b) D s1 /\
    forall i, 0 <= i < Z.of_nat m ->
      holds Bwd s1 (2 * i - Z.of_nat D)
        (fr (reverse a) (reverse b) D (2 * i - Z.of_nat D)) /\
      bwd_hit a b D (2 * i - Z.of_nat D) = false).
  pose (Q := fun (t : snake_tuple) (s1 : statics) =>
    keeps s s1 /\
    exists k, first_hit (bwd_hit a b D) (Z.of_nat D) k /\
              t = bwd_tuple a b D k).
  destruct (for_count_rule I Q (Z.to_nat (Z.of_nat D + 1)) (- Z.of_nat D) 2
              (bwd_iter old N new M (N - M) (Z.of_nat D))) with (s := s)
    as (r & s' & Hrun & Hpost).
  - intros m s1 Hm (Hk1 & Hf1 & Hb1 & Hdone).
    assert (L : lane (Z.of_nat D) (- Z.of_nat D + 2 * Z.of_nat m))
      by (exists (Z.of_nat m); lia).
    destruct (bwd_iter_spec old new N M HN HM D _ n s1 L (Hk1 _ Hcap) Hn Hf1 Hb1)
      as (s2 & Hit & Hk2 & Hnew & Hsame & Hother).
    eexists _, s2. split; [exact Hit|].
    destruct (bwd_hit a b D (- Z.of_nat D + 2 * Z.of_nat m)) eqn:Hhit.
    + split; [by eapply keeps_trans|]. eexists. split; [|done].
      split_and!; [done|done|]. intros j (i & Hi & ->) Hj.
      apply Hdone. lia.
    + split_and!; [by eapply keeps_trans| | |].
      * intros j Hj. by apply Hother, Hf1.
      * intros j Hj. apply Hsame; [|by apply Hb1].
        by eapply src_lane_disjoint.
      * intros i Hi. destruct (Z.eq_dec i (Z.of_nat m)) as [->|Hne].
        { replace (2 * Z.of_nat m - Z.of_nat D)
            with (- Z.of_nat D + 2 * Z.of_nat m) by lia. done. }
        destruct (Hdone i ltac:(lia)) as [H1 H2]. split; [|done].
        apply Hsame; [lia|done].
  - split_and!; [apply keeps_refl|done|done|]. intros i Hi. lia.
  - exists r, s'. split; [done|]. destruct r as [|t].
    + destruct Hpost as (Hk1 & Hf1 & Hb1 & Hdone). split_and!; [done|done| |].
      * intros j (i & Hi & ->). rewrite before_S. apply Hdone. lia.
      * intros k (i & Hi & ->). apply Hdone. lia.
    + destruct Hpost as (Hk1 & Hq). done.
Qed.

(** One round of the search: it returns a middle snake, or the distance
    is larger than the round could see. *)
Lemma round_spec (D : nat) n s :
  cap n s -> Z.max 1 (Z.of_nat D) <= n ->
  ready Fwd a b D s -> ready Bwd (reverse a) (reverse b) D s ->
  2 * Z.of_nat D <= ed a b + 1 ->
  exists r s',
    round old N new M (N - M) (Z.of_nat D) s = Ok (r, s') /\ keeps s s' /\
    match r with
    | Return t => middle_ok a b t /\ round_result a b D t
    | Next =>
        ready Fwd a b (S D) s' /\ ready Bwd (reverse a) (reverse b) (S D) s' /\
        2 * Z.of_nat (S D) <= ed a b + 1 /\ round_misses a b D
    end.
Proof.
  intros Hcap Hn Hf Hb Hd. unfold round, bind.
  destruct (fwd_pass_spec D n s Hcap Hn Hf Hb) as (r1 & s1 & H1 & Hk1 & Hp1).
  rewrite H1. destruct r1 as [|t].
  - destruct Hp1 as (Hf1 & Hb1 & Hmiss1).
    destruct (bwd_pass_spec D n s1 (Hk1 _ Hcap) Hn Hf1 Hb1)
      as (r2 & s2 & H2 & Hk2 & Hp2).
    exists r2, s2. split; [done|]. split; [by eapply keeps_trans|].
    destruct r2 as [|t].
    + destruct Hp2 as (Hf2 & Hb2 & Hmiss2). split_and!; [done|done| |].
      * by apply no_hit_progress.
      * intros k L. split; [by apply Hmiss1|by apply Hmiss2].
    + destruct Hp2 as (k & Hfirst & ->). split.
      * destruct Hfirst as (L & Hhit & _). apply bwd_hit_ok; [done|done|].
        destruct (bwd_hit_inv a b D k Hhit) as (_ & [q Hq] & _).
        destruct (ed_parity a b) as [c Hc]. lia.
      * right. split; [done|]. by exists k.
  - exists (Return t), s1. split; [done|]. split; [done|].
    destruct Hp1 as (k & Hfirst & ->). split.
    + destruct Hfirst as (L & Hhit & _). apply fwd_hit_ok; [done|done|lia].
    + left. by exists k.
Qed.

(** The search always returns, and what it returns is a middle snake. *)
Lemma search_spec n s :
  cap n s -> 1 <= n -> ed a b <= 2 * n ->
  ready Fwd a b 0 s -> ready Bwd (reverse a) (reverse b) 0 s ->
  exists t s',
    search old N new M s = Ok (Return t, s') /\ keeps s s' /\
    middle_ok a b t /\ search_result a b t.
Proof.
  intros Hcap Hn1 Hn Hf Hb.
  pose proof (ed_le_sum a b) as Hsum.
  rewrite (len_a old N HN), (len_b new M HM) in Hsum.
  pose (I := fun (m : nat) (s1 : statics) =>
    keeps s s1 /\ ready Fwd a b m s1 /\ ready Bwd (reverse a) (reverse b) m s1 /\
    2 * Z.of_nat m <= ed a b + 1 /\
    forall D' : nat, (D' < m)%nat -> round_misses a b D').
  pose (Q := fun (t : snake_tuple) (s1 : statics) =>
    keeps s s1 /\ middle_ok a b t /\ search_result a b t).
  destruct (for_count_rule I Q (Z.to_nat (ceil_half (M + N) + 1)) 0 1
              (round old N new M (N - M))) with (s := s)
    as (r & s' & Hrun & Hpost).
  - intros m s1 Hm (Hk1 & Hf1 & Hb1 & Hd1 & Hno).
    replace (0 + 1 * Z.of_nat m) with (Z.of_nat m) by lia.
    destruct (round_spec m n s1 (Hk1 _ Hcap) ltac:(lia) Hf1 Hb1 Hd1)
      as (r & s2 & Hr & Hk2 & Hp).
    exists r, s2. split; [done|]. destruct r as [|t].
    + destruct Hp as (Hf2 & Hb2 & Hd2 & Hmiss).
      split_and!; [by eapply keeps_trans|done|done|done|].
      intros D' HD'. destruct (decide (D' = m)) as [->|]; [done|].
      apply Hno. lia.
    + destruct Hp as [Hok Hres].
      split_and!; [by eapply keeps_trans|done|]. by exists m.
  - split_and!; [apply keeps_refl|done|done| |].
    + pose proof (ed_nonneg a b). lia.
    + intros D' HD'. lia.
  - destruct r as [|t].
    + exfalso. destruct Hpost as (_ & _ & _ & Hd & _).
      unfold ceil_half in Hd.
      pose proof (Z.div_mod (M + N + 1) 2 ltac:(lia)).
      pose proof (Z.mod_pos_bound (M + N + 1) 2 ltac:(lia)). lia.
    + destruct Hpost as (Hk & Hok & Hres). exists t, s'. done.
Qed.
End Passes.

(** ** [FindMiddleSnake] *)

Lemma static_init_spec n s :
  0 <= n -> room n s ->
  exists s0 s1,
    static_init Fwd n s = Ok (tt, s0) /\ static_init Bwd n s0 = Ok (tt, s1) /\
    cap n s1 /\ keeps s s1.
Proof.
  intros Hn [[Hf Hb]|Hcap].
  - assert (Hnew : V_new (- n) n = Some (mkV (- n) n ∅)).
    { unfold V_new. destruct (Z.ltb_spec (n - - n + 1) 0); [lia|done]. }
    exists (upd Fwd (mkV (- n) n ∅) s), (upd Bwd (mkV (- n) n ∅) (upd Fwd (mkV (- n) n ∅) s)).
    unfold static_init. simpl. rewrite Hf, Hb, Hnew. split_and!; [done|done| |].
    + eexists _, _. simpl. split_and!; [done|done| |]; unfold wide; simpl; lia.
    + intros m (vf & vb & H1 & _). congruence.
  - exists s, s. destruct Hcap as (vf & vb & H1 & H2 & Hw1 & Hw2).
    unfold static_init. simpl. rewrite H1, H2. split_and!; [done|done| |apply keeps_refl].
    by exists vf, vb.
Qed.

Lemma setup_spec n s :
  1 <= n -> room n s ->
  exists s1, setup n s = Ok (tt, s1) /\ cap n s1 /\ keeps s s1 /\
    holds Fwd s1 1 0 /\ holds Bwd s1 1 0.
Proof.
  intros Hn Hroom. unfold setup, bind.
  destruct (static_init_spec n s ltac:(lia) Hroom) as (s0 & s1 & -> & -> & Hcap1 & Hk1).
  destruct (wr_spec Fwd n s1 1 0 Hcap1 ltac:(lia)) as (s2 & -> & Hk2 & Hf2 & _ & Ho2).
  destruct (wr_spec Bwd n s2 1 0 (Hk2 _ Hcap1) ltac:(lia))
    as (s3 & -> & Hk3 & Hb3 & _ & Ho3).
  exists s3. split_and!; [done|by apply Hk3, Hk2|eauto using keeps_trans|by apply Ho3|done].
Qed.

Lemma setup_cap MAX c s :
  cap c s -> 1 <= c ->
  exists s1, setup MAX s = Ok (tt, s1) /\ cap c s1 /\ keeps s s1 /\
    holds Fwd s1 1 0 /\ holds Bwd s1 1 0.
Proof.
  intros Hcap Hc. unfold setup, bind.
  assert (static_init Fwd MAX s = Ok (tt, s)) as ->.
  { destruct Hcap as (vf & vb & H1 & _). unfold static_init. simpl. by rewrite H1. }
  assert (static_init Bwd MAX s = Ok (tt, s)) as ->.
  { destruct Hcap as (vf & vb & _ & H2 & _). unfold static_init. simpl. by rewrite H2. }
  destruct (wr_spec Fwd c s 1 0 Hcap ltac:(lia)) as (s2 & -> & Hk2 & Hf2 & _ & Ho2).
  destruct (wr_spec Bwd c s2 1 0 (Hk2 _ Hcap) ltac:(lia))
    as (s3 & -> & Hk3 & Hb3 & _ & Ho3).
  exists s3. split_and!; [done|by apply Hk3, Hk2|eauto using keeps_trans|by apply Ho3|done].
Qed.

Lemma room_fits n e s : 1 <= n -> e <= 2 * n -> room n s -> fits e s.
Proof. intros Hn He [H|H]; [by left|right; by exists n]. Qed.

Section Middle.
Variables (old new : list Z) (N M : Z).
Hypothesis HN : 0 <= N <= len old.
Hypothesis HM : 0 <= M <= len new.

Local Abbreviation a := (pre old N).
Local Abbreviation b := (pre new M).

(** With room for [N + M], the loop of [FindMiddleSnake] is left by one
    of its [return] statements, with a middle snake. *)
Lemma setup_search_spec s :
  1 <= N + M -> room (N + M) s ->
  exists s1 t s',
    setup (M + N) s = Ok (tt, s1) /\
    search old N new M s1 = Ok (Return t, s') /\
    (middle_ok a b t /\ search_result a b t) /\ cap (N + M) s' /\ keeps s s'.
Proof.
  intros Hpos Hroom. replace (M + N) with (N + M) by lia.
  destruct (setup_spec (N + M) s Hpos Hroom) as (s1 & Hset & Hcap1 & Hk1 & Hf & Hb).
  pose proof (ed_le_sum a b) as Hsum.
  rewrite (len_pre old N HN), (len_pre new M HM) in Hsum.
  destruct (search_spec old new N M HN HM (N + M) s1)
    as (t & s2 & Hs & Hk2 & Hok & Hres);
    [done|done|lia|by intros j ->|by intros j ->|].
  exists s1, t, s2.
  split_and!; [done|done|done|done|by apply Hk2|eauto using keeps_trans].
Qed.

(** With room for [N + M], [FindMiddleSnake] returns a middle snake. *)
Lemma FindMiddleSnake_spec s :
  1 <= N + M -> room (N + M) s ->
  exists t s',
    FindMiddleSnake old N new M s = Ok (t, s') /\
    middle_ok a b t /\ cap (N + M) s' /\ keeps s s'.
Proof.
  intros Hpos Hroom.
  destruct (setup_search_spec s Hpos Hroom)
    as (s1 & t & s' & H1 & H2 & [Hok _] & Hcap & Hk).
  exists t, s'. split; [|done].
  unfold FindMiddleSnake, bind. by rewrite H1, H2.
Qed.

(** In two stores with room, [FindMiddleSnake] returns the same tuple. *)
Lemma FindMiddleSnake_store_independent s1 s2 t1 t2 s1' s2' :
  1 <= N + M -> room (N + M) s1 -> room (N + M) s2 ->
  FindMiddleSnake old N new M s1 = Ok (t1, s1') ->
  FindMiddleSnake old N new M s2 = Ok (t2, s2') ->
  t1 = t2.
Proof.
  intros Hpos Hr1 Hr2 H1 H2.
  destruct (setup_search_spec s1 Hpos Hr1)
    as (s1a & t1a & s1b & Hs1 & Hq1 & [_ Hres1] & _).
  destruct (setup_search_spec s2 Hpos Hr2)
    as (s2a & t2a & s2b & Hs2 & Hq2 & [_ Hres2] & _).
  unfold FindMiddleSnake, bind in H1, H2.
  rewrite Hs1, Hq1 in H1. rewrite Hs2, Hq2 in H2.
  simpl in H1, H2. unfold ret in H1, H2.
  injection H1 as <- _. injection H2 as <- _.
  by eapply search_result_unique.
Qed.

(** The same in a store that fits the distance of the two sequences,
    however long these are. *)
Lemma setup_search_fits s :
  1 <= N + M -> fits (ed a b) s ->
  exists s1 t s',
    setup (M + N) s = Ok (tt, s1) /\
    search old N new M s1 = Ok (Return t, s') /\
    (middle_ok a b t /\ search_result a b t) /\
    (exists c, cap c s' /\ 1 <= c /\ ed a b <= 2 * c) /\ keeps s s'.
Proof.
  intros Hpos [Hfresh|(c & Hcap & Hc & He)].
  - destruct (setup_search_spec s Hpos (or_introl Hfresh))
      as (s1 & t & s' & H1 & H2 & Hok & Hcap & Hk).
    exists s1, t, s'. do 3 (split; [done|]). split; [|done].
    exists (N + M). split_and!; [done|done|].
    pose proof (ed_le_sum a b) as Hsum.
    rewrite (len_pre old N HN), (len_pre new M HM) in Hsum. lia.
  - destruct (setup_cap (M + N) c s Hcap Hc) as (s1 & Hset & Hcap1 & Hk1 & Hf & Hb).
    destruct (search_spec old new N M HN HM c s1)
      as (t & s2 & Hs & Hk2 & Hok & Hres);
      [done|done|done|by intros j ->|by intros j ->|].
    exists s1, t, s2. do 3 (split; [done|]). split; [|eauto using keeps_trans].
    exists c. split_and!; [by apply Hk2|done|done].
Qed.

Lemma FindMiddleSnake_fits s :
  1 <= N + M -> fits (ed a b) s ->
  exists t s',
    FindMiddleSnake old N new M s = Ok (t, s') /\
    middle_ok a b t /\ search_result a b t /\
    (exists c, cap c s' /\ 1 <= c /\ ed a b <= 2 * c) /\ keeps s s'.
Proof.
  intros Hpos Hfits.
  destruct (setup_search_fits s Hpos Hfits)
    as (s1 & t & s' & H1 & H2 & [Hok Hres] & Hcap & Hk).
  exists t, s'. split; [|done].
  unfold FindMiddleSnake, bind. by rewrite H1, H2.
Qed.
End Middle.

(** [FindMiddleSnake] reads the first [N] and [M] elements only, and what
    the arrays hold when it is called does not matter. *)
Lemma FindMiddleSnake_agree old old' new new' N M s1 s2 t1 t2 s1' s2' :
  0 <= N <= len old -> 0 <= N <= len old' ->
  0 <= M <= len new -> 0 <= M <= len new' ->
  pre old N = pre old' N -> pre new M = pre new' M ->
  1 <= N + M ->
  fits (ed (pre old N) (pre new M)) s1 -> fits (ed (pre old N) (pre new M)) s2 ->
  FindMiddleSnake old N new M s1 = Ok (t1, s1') ->
  FindMiddleSnake old' N new' M s2 = Ok (t2, s2') ->
  t1 = t2.
Proof.
  intros HN HN' HM HM' Ea Eb Hpos Hf1 Hf2 H1 H2.
  destruct (FindMiddleSnake_fits old new N M HN HM s1 Hpos Hf1)
    as (t & s & H & _ & Hres1 & _).
  rewrite H in H1. injection H1 as -> _.
  rewrite Ea, Eb in Hf2.
  destruct (FindMiddleSnake_fits old' new' N M HN' HM' s2 Hpos Hf2)
    as (t' & s' & H' & _ & Hres2 & _).
  rewrite H' in H2. injection H2 as -> _.
  rewrite <- Ea, <- Eb in Hres2.
  by eapply search_result_unique.
Qed.

(** ** The multiset *)

Lemma ms_insert_perm p l : ms_insert p l ≡ₚ p :: l.
Proof.
  induction l as [|q l IH]; simpl; [done|].
  destruct (pair_lt p q); [done|]. rewrite IH. apply Permutation_swap.
Qed.

Lemma ms_insert_range_perm l r : ms_insert_range l r ≡ₚ r ++ l.
Proof.
  unfold ms_insert_range. revert l. induction r as [|p r IH]; intros l; simpl; [done|].
  rewrite IH, ms_insert_perm. by rewrite Permutation_middle.
Qed.

Lemma ms_insert_last p l :
  (forall q, q ∈ l -> q.1 < p.1) -> ms_insert p l = l ++ [p].
Proof.
  induction l as [|q l IH]; intros H; simpl; [done|].
  assert (Hq : q.1 < p.1) by (apply H; left).
  unfold pair_lt. destruct (Z.ltb_spec p.1 q.1); [lia|].
  destruct (Z.eqb_spec p.1 q.1); [lia|]. simpl.
  rewrite IH; [done|]. intros q' Hq'. apply H. by right.
Qed.

Lemma span_S base n tag :
  span base (S n) tag = span base n tag ++ [(base + Z.of_nat n, tag)].
Proof. unfold span. rewrite seq_S, map_app. done. Qed.

Lemma elem_of_span base n tag q :
  q ∈ span base n tag <-> exists i, 0 <= i < Z.of_nat n /\ q = (base + i, tag).
Proof.
  unfold span. rewrite list_elem_of_fmap. split.
  - intros (i & -> & Hi). apply elem_of_seq in Hi. exists (Z.of_nat i). split; [lia|done].
  - intros (i & Hi & ->). exists (Z.to_nat i). split; [f_equal; lia|].
    apply elem_of_seq. lia.
Qed.

Lemma length_span base n tag : length (span base n tag) = n.
Proof. unfold span. by rewrite length_map, length_seq. Qed.

(** The loops of the two base cases. *)
Lemma emit_spec n (i : nat) seq base tag s :
  Z.of_nat i + Z.of_nat n <= len seq ->
  emit n (Z.of_nat i) seq base tag (span base i tag) s
  = Ok (span base (i + n) tag, s).
Proof.
  revert i. induction n as [|n IH]; intros i Hi; simpl.
  - unfold ret. by rewrite Nat.add_0_r.
  - destruct (lookup_lt_len seq (Z.of_nat i)) as [c Hc]; [lia|].
    unfold bind. rewrite (rd_seq_ok seq (Z.of_nat i) c) by (done || lia).
    rewrite ms_insert_last.
    + rewrite <- span_S. replace (Z.of_nat i + 1) with (Z.of_nat (S i)) by lia.
      rewrite IH by lia. do 3 f_equal. lia.
    + intros q (j & Hj & ->)%elem_of_span. simpl. lia.
Qed.

(** ** Striking positions out of a list *)

Lemma strike_app ps base l1 l2 :
  strike ps base (l1 ++ l2)
  = strike ps base l1 ++ strike ps (base + len l1) l2.
Proof.
  revert base. induction l1 as [|c l1 IH]; intros base; simpl.
  - rewrite len_nil. f_equal. lia.
  - rewrite len_cons, IH.
    replace (base + 1 + len l1) with (base + (1 + len l1)) by lia.
    by destruct (bool_decide (base ∈ ps)).
Qed.

Lemma strike_ext ps qs base l :
  (forall i, base <= i < base + len l -> i ∈ ps <-> i ∈ qs) ->
  strike ps base l = strike qs base l.
Proof.
  revert base. induction l as [|c l IH]; intros base H; simpl; [done|].
  rewrite len_cons in H. pose proof (len_nonneg l).
  rewrite (IH (base + 1)) by (intros i Hi; apply H; lia).
  rewrite (bool_decide_ext (base ∈ ps) (base ∈ qs)) by (apply H; lia). done.
Qed.

Lemma strike_none ps base l :
  (forall i, base <= i < base + len l -> i ∉ ps) -> strike ps base l = l.
Proof.
  revert base. induction l as [|c l IH]; intros base H; simpl; [done|].
  rewrite len_cons in H. pose proof (len_nonneg l).
  rewrite bool_decide_eq_false_2 by (apply H; lia).
  rewrite IH; [done|]. intros i Hi. apply H. lia.
Qed.

Lemma strike_all ps base l :
  (forall i, base <= i < base + len l -> i ∈ ps) -> strike ps base l = [].
Proof.
  revert base. induction l as [|c l IH]; intros base H; simpl; [done|].
  rewrite len_cons in H. pose proof (len_nonneg l).
  rewrite bool_decide_eq_true_2 by (apply H; lia).
  apply IH. intros i Hi. apply H. lia.
Qed.

Lemma elem_of_positions tag ops p : p ∈ positions tag ops <-> (p, tag) ∈ ops.
Proof.
  induction ops as [|[q t] ops IH]; simpl.
  - split; intros H; inversion H.
  - destruct (String.eqb_spec t tag) as [->|Hne].
    + rewrite !elem_of_cons, IH. split; intros [H|H]; (by right) || left; congruence.
    + rewrite elem_of_cons, IH. split; [by right|]. intros [H|H]; [congruence|done].
Qed.

Lemma NoDup_positions tag ops : NoDup ops -> NoDup (positions tag ops).
Proof.
  induction ops as [|[q t] ops IH]; simpl; intros H; [constructor|].
  apply NoDup_cons in H as [H1 H2].
  destruct (String.eqb_spec t tag) as [->|Hne]; [|by apply IH].
  apply NoDup_cons. split; [|by apply IH]. by rewrite elem_of_positions.
Qed.

(** ** Scripts of sub-problems combine *)

Lemma pre_of_pre old N x : 0 <= x <= N -> pre (pre old N) x = pre old x.
Proof. apply pre_pre. Qed.

Lemma pre_of_suf old N u :
  0 <= u <= N -> pre (suf old u) (N - u) = suf (pre old N) u.
Proof.
  intros H. unfold pre, suf. rewrite take_drop_commute. do 2 f_equal. lia.
Qed.

Lemma run_of_pre a b n :
  0 <= n <= len a -> n <= len b -> pre a n = pre b n -> run a b 0 0 n.
Proof.
  intros Ha Hb Heq i Hi. split_and!; [lia|lia|]. rewrite !Z.add_0_l.
  rewrite <- (lookup_pre a n i), <- (lookup_pre b n i) by lia. by rewrite Heq.
Qed.

Lemma ed_app_same w s t : ed (w ++ s) (w ++ t) = ed s t.
Proof. induction w as [|c w IH]; simpl; [done|]. by rewrite ed_cons_same. Qed.

Lemma ed_of_prefix a b n :
  pre a n = pre b n -> ed a b = ed (suf a n) (suf b n).
Proof.
  intros Heq. rewrite <- (pre_suf a n) at 1. rewrite <- (pre_suf b n) at 1.
  rewrite Heq. apply ed_app_same.
Qed.

Lemma script_nil cx cy : script_ok [] [] cx cy [].
Proof.
  split_and!; [constructor| |done|by rewrite ed_refl].
  intros p t H. inversion H.
Qed.

Lemma script_join a b cx cy x y u v ops1 ops2 ops :
  0 <= x <= u /\ u <= len a -> 0 <= y <= v /\ v <= len b -> u - x = v - y ->
  run a b x y (u - x) ->
  script_ok (pre a x) (pre b y) cx cy ops1 ->
  script_ok (suf a u) (suf b v) (cx + u) (cy + v) ops2 ->
  ops ≡ₚ ops1 ++ ops2 ->
  ed (pre a x) (pre b y) + ed (suf a u) (suf b v) <= ed a b ->
  script_ok a b cx cy ops.
Proof.
  intros Hx Hy Hdiag Hrun (Hnd1 & Hr1 & Hs1 & Hc1) (Hnd2 & Hr2 & Hs2 & Hc2) Hperm Hed.
  rewrite !len_pre in Hr1 by lia. rewrite !len_suf in Hr2 by lia.
  assert (Hin : forall q, q ∈ ops <-> q ∈ ops1 \/ q ∈ ops2).
  { intros q. rewrite Hperm. apply elem_of_app. }
  split_and!.
  - rewrite Hperm. apply NoDup_app. split_and!; [done| |done].
    intros [p t] H1 H2. apply Hr1 in H1. apply Hr2 in H2.
    destruct H1 as [[-> ?]|[-> ?]], H2 as [[? ?]|[? ?]]; (done || lia).
  - intros p t [H|H]%Hin; [apply Hr1 in H|apply Hr2 in H];
      (destruct H as [[-> ?]|[-> ?]]; [left|right]; (split; [done|lia])).
  - pose proof (run_segments a b x y (u - x) ltac:(lia) ltac:(lia) ltac:(lia) Hrun)
      as Hseg.
    assert (Ha : a = pre a x ++ pre (suf a x) (u - x) ++ suf a u).
    { rewrite <- (pre_suf a x) at 1. f_equal.
      rewrite <- (pre_suf (suf a x) (u - x)) at 1. f_equal.
      rewrite suf_suf by lia. f_equal. lia. }
    assert (Hb : b = pre b y ++ pre (suf b y) (u - x) ++ suf b v).
    { rewrite <- (pre_suf b y) at 1. f_equal.
      rewrite <- (pre_suf (suf b y) (u - x)) at 1. f_equal.
      rewrite suf_suf by lia. f_equal. lia. }
    assert (Hl1 : len (pre (suf a x) (u - x)) = u - x).
    { rewrite len_pre; [done|]. rewrite len_suf by lia. lia. }
    assert (Hl2 : len (pre (suf b y) (u - x)) = u - x).
    { rewrite len_pre; [done|]. rewrite len_suf by lia. lia. }
    rewrite Ha at 1. rewrite Hb at 1.
    rewrite !strike_app, Hl1, Hl2, (len_pre a x), (len_pre b y) by lia.
    rewrite (strike_ext (positions "del" ops) (positions "del" ops1) cx (pre a x)).
    2:{ intros i Hi. rewrite len_pre in Hi by lia. rewrite !elem_of_positions, Hin.
        split; [|by left]. intros [H|H]; [done|]. apply Hr2 in H.
        destruct H as [[? ?]|[? ?]]; (done || lia). }
    rewrite (strike_ext (positions "add" ops) (positions "add" ops1) cy (pre b y)).
    2:{ intros i Hi. rewrite len_pre in Hi by lia. rewrite !elem_of_positions, Hin.
        split; [|by left]. intros [H|H]; [done|]. apply Hr2 in H.
        destruct H as [[? ?]|[? ?]]; (done || lia). }
    rewrite (strike_none _ (cx + x)).
    2:{ intros i Hi. rewrite Hl1 in Hi. rewrite elem_of_positions, Hin.
        intros [H|H]; [apply Hr1 in H|apply Hr2 in H];
          (destruct H as [[? ?]|[? ?]]; (done || lia)). }
    rewrite (strike_none _ (cy + y)).
    2:{ intros i Hi. rewrite Hl2 in Hi. rewrite elem_of_positions, Hin.
        intros [H|H]; [apply Hr1 in H|apply Hr2 in H];
          (destruct H as [[? ?]|[? ?]]; (done || lia)). }
    replace (cx + x + (u - x)) with (cx + u) by lia.
    replace (cy + y + (u - x)) with (cy + v) by lia.
    rewrite (strike_ext (positions "del" ops) (positions "del" ops2) (cx + u)).
    2:{ intros i Hi. rewrite len_suf in Hi by lia. rewrite !elem_of_positions, Hin.
        split; [|by right]. intros [H|H]; [|done]. apply Hr1 in H.
        destruct H as [[? ?]|[? ?]]; (done || lia). }
    rewrite (strike_ext (positions "add" ops) (positions "add" ops2) (cy + v)).
    2:{ intros i Hi. rewrite len_suf in Hi by lia. rewrite !elem_of_positions, Hin.
        split; [|by right]. intros [H|H]; [|done]. apply Hr1 in H.
        destruct H as [[? ?]|[? ?]]; (done || lia). }
    by rewrite Hs1, Hs2, Hseg.
  - rewrite Hperm, length_app, Nat2Z.inj_add, Hc1, Hc2.
    pose proof (ed_through_run a b x y (u - x) ltac:(lia) ltac:(lia) ltac:(lia) Hrun) as H.
    replace (x + (u - x)) with u in H by lia.
    replace (y + (u - x)) with v in H by lia. lia.
Qed.

(** When one list is a prefix of the other, a script for what follows the
    prefix is a script for the lists. *)
Lemma script_after_prefix a b cx cy n ops :
  0 <= n <= len a -> n <= len b -> pre a n = pre b n ->
  script_ok (suf a n) (suf b n) (cx + n) (cy + n) ops ->
  script_ok a b cx cy ops.
Proof.
  intros Ha Hb Heq Hok.
  apply (script_join a b cx cy 0 0 n n [] ops ops); try done; try lia.
  - rewrite Z.sub_0_r. by apply run_of_pre.
  - rewrite !pre_0. apply script_nil.
  - rewrite !pre_0, ed_refl, (ed_of_prefix a b n Heq). lia.
Qed.

Lemma script_perm a b cx cy ops ops' :
  ops ≡ₚ ops' -> script_ok a b cx cy ops' -> script_ok a b cx cy ops.
Proof.
  intros Hperm (Hnd & Hr & Hs & Hc). split_and!.
  - by rewrite Hperm.
  - intros p t H. apply Hr. by rewrite <- Hperm.
  - rewrite (strike_ext (positions "del" ops) (positions "del" ops')),
      (strike_ext (positions "add" ops) (positions "add" ops')); [done| |].
    all: intros i _; rewrite !elem_of_positions; by rewrite Hperm.
  - by rewrite Hperm.
Qed.

Lemma NoDup_span base n tag : NoDup (span base n tag).
Proof.
  unfold span. apply NoDup_fmap_2; [|apply NoDup_seq].
  intros i j H. injection H. lia.
Qed.

Lemma script_dels a cx cy :
  script_ok a [] cx cy (span cx (Z.to_nat (len a)) "del").
Proof.
  pose proof (len_nonneg a). split_and!.
  - apply NoDup_span.
  - intros p t (i & Hi & Heq)%elem_of_span. injection Heq as -> ->. left. split; [done|lia].
  - simpl. apply strike_all. intros i Hi. rewrite elem_of_positions, elem_of_span.
    exists (i - cx). split; [lia|]. f_equal. lia.
  - rewrite length_span, ed_nil_r. lia.
Qed.

Lemma script_adds b cx cy :
  script_ok [] b cx cy (span cy (Z.to_nat (len b)) "add").
Proof.
  pose proof (len_nonneg b). split_and!.
  - apply NoDup_span.
  - intros p t (i & Hi & Heq)%elem_of_span. injection Heq as -> ->. right. split; [done|lia].
  - simpl. symmetry. apply strike_all. intros i Hi.
    rewrite elem_of_positions, elem_of_span.
    exists (i - cy). split; [lia|]. f_equal. lia.
  - rewrite length_span, ed_nil_l. lia.
Qed.

(** ** [ShortestEditScript] *)

Lemma ShortestEditScript_S fuel old N new M current_x current_y :
  ShortestEditScript (S fuel) old N new M current_x current_y
  = if (0 <? N) && (0 <? M) then
      t <- FindMiddleSnake old N new M ;;
      let '(D, x, y, u, v) := t in
      if (1 <? D) || (negb (x =? u) && negb (y =? v)) then
        r1 <- ShortestEditScript fuel old x new y current_x current_y ;;
        let rtn := ms_insert_range [] r1 in
        old' <- ptr_add old u ;;
        new' <- ptr_add new v ;;
        r2 <- ShortestEditScript fuel old' (N - u) new' (M - v)
                (current_x + u) (current_y + v) ;;
        ret (ms_insert_range rtn r2)
      else if N <? M then
        old' <- ptr_add old N ;;
        new' <- ptr_add new N ;;
        r <- ShortestEditScript fuel old' (N - N) new' (M - N)
               (current_x + N) (current_y + N) ;;
        ret (ms_insert_range [] r)
      else if M <? N then
        old' <- ptr_add old M ;;
        new' <- ptr_add new M ;;
        r <- ShortestEditScript fuel old' (N - M) new' (M - M)
               (current_x + M) (current_y + M) ;;
        ret (ms_insert_range [] r)
      else ret []
    else if 0 <? N then emit (Z.to_nat N) 0 old current_x "del" []
    else if 0 <? M then emit (Z.to_nat M) 0 new current_y "add" []
    else ret [].
Proof. reflexivity. Qed.

Lemma ptr_add_ok l u s :
  0 <= u <= len l -> ptr_add l u s = Ok (suf l u, s).
Proof.
  intros H. unfold ptr_add. fold (len l).
  destruct (Z.leb_spec 0 u); [|lia]. destruct (Z.leb_spec u (len l)); [|lia]. done.
Qed.

(** With room for [N + M] and fuel beyond [N + M], [ShortestEditScript]
    returns a shortest script. *)
Lemma ShortestEditScript_spec fuel :
  forall old N new M cx cy s,
    0 <= N <= len old -> 0 <= M <= len new ->
    N + M < Z.of_nat fuel -> room (N + M) s ->
    exists ops s',
      ShortestEditScript fuel old N new M cx cy s = Ok (ops, s') /\
      script_ok (pre old N) (pre new M) cx cy ops /\
      room (N + M) s' /\ keeps s s'.
Proof.
  induction fuel as [|fuel IH]; intros old N new M cx cy s HN HM Hfuel Hroom; [lia|].
  rewrite ShortestEditScript_S.
  destruct (Z.ltb_spec 0 N) as [HN0|HN0]; destruct (Z.ltb_spec 0 M) as [HM0|HM0];
    cbn [andb].
  - (* both sequences are non-empty *)
    destruct (FindMiddleSnake_spec old new N M HN HM s ltac:(lia) Hroom)
      as (t & s1 & Hfms & Hok & Hcap1 & Hk1).
    unfold bind at 1. rewrite Hfms. destruct t as [[[[D x] y] u] v].
    destruct Hok as ((Hx & Hu) & (Hy & Hv) & Hdiag & Hrun & HD & Hsum & Hp & Hs & Htriv).
    rewrite (len_pre old N), (len_pre new M) in * by done.
    pose proof (ed_le_sum (pre (pre old N) x) (pre (pre new M) y)) as Hle1.
    pose proof (ed_le_sum (suf (pre old N) u) (suf (pre new M) v)) as Hle2.
    rewrite !len_pre in Hle1 by (rewrite ?len_pre; lia).
    rewrite !len_suf in Hle2 by (rewrite ?len_pre; lia).
    rewrite (len_pre old N), (len_pre new M) in * by done.
    destruct ((1 <? D) || (negb (x =? u) && negb (y =? v))) eqn:Hc.
    + (* the graph is divided at the snake *)
      assert (Hlt : x + y < N + M /\ (N - u) + (M - v) < N + M).
      { apply orb_prop in Hc as [Hc|Hc].
        - apply Z.ltb_lt in Hc. lia.
        - apply andb_prop in Hc as [Hc _]. apply negb_true_iff, Z.eqb_neq in Hc. lia. }
      destruct (IH old x new y cx cy s1) as (ops1 & s2 & H1 & Hok1 & _ & Hk2);
        [lia|lia|lia|right; apply (cap_le (N + M)); [lia|done]|].
      rewrite <- (pre_of_pre old N x), <- (pre_of_pre new M y) in Hok1 by lia.
      unfold bind. rewrite H1.
      rewrite (ptr_add_ok old u), (ptr_add_ok new v) by lia.
      destruct (IH (suf old u) (N - u) (suf new v) (M - v) (cx + u) (cy + v) s2)
        as (ops2 & s3 & H2 & Hok2 & _ & Hk3);
        [rewrite len_suf; lia|rewrite len_suf; lia|lia
        |right; apply (cap_le (N + M)); [lia|by apply Hk2]|].
      rewrite (pre_of_suf old N u), (pre_of_suf new M v) in Hok2 by lia.
      rewrite H2. eexists _, s3. split; [done|]. split_and!.
      * apply (script_join _ _ cx cy x y u v ops1 ops2);
          rewrite ?(len_pre old N), ?(len_pre new M); try done; try lia.
        rewrite !ms_insert_range_perm, app_nil_r. apply Permutation_app_comm.
      * right. by apply Hk3, Hk2.
      * eauto using keeps_trans.
    + (* at most one edit and an empty snake *)
      apply orb_false_elim in Hc as [Hc1 Hc2]. apply Z.ltb_ge in Hc1.
      assert (x = u) as Hxu.
      { apply andb_false_iff in Hc2 as [Hc2|Hc2];
          apply negb_false_iff, Z.eqb_eq in Hc2; lia. }
      specialize (Htriv Hc1 Hxu).
      destruct (Z.ltb_spec N M) as [HNM|HNM]; [|destruct (Z.ltb_spec M N) as [HMN|HMN]].
      * replace (Z.min N M) with N in Htriv by lia.
        unfold bind. rewrite (ptr_add_ok old N), (ptr_add_ok new N) by lia.
        destruct (IH (suf old N) (N - N) (suf new N) (M - N) (cx + N) (cy + N) s1)
          as (ops2 & s3 & H2 & Hok2 & _ & Hk3);
          [rewrite len_suf; lia|rewrite len_suf; lia|lia
          |right; apply (cap_le (N + M)); [lia|done]|].
        rewrite (pre_of_suf old N N), (pre_of_suf new M N) in Hok2 by lia.
        rewrite H2. eexists _, s3. split; [done|]. split_and!.
        -- apply (script_perm _ _ _ _ _ ops2);
             [by rewrite ms_insert_range_perm, app_nil_r|].
           apply (script_after_prefix _ _ _ _ N);
             rewrite ?(len_pre old N), ?(len_pre new M); try done; lia.
        -- right. by apply Hk3.
        -- eauto using keeps_trans.
      * replace (Z.min N M) with M in Htriv by lia.
        unfold bind. rewrite (ptr_add_ok old M), (ptr_add_ok new M) by lia.
        destruct (IH (suf old M) (N - M) (suf new M) (M - M) (cx + M) (cy + M) s1)
          as (ops2 & s3 & H2 & Hok2 & _ & Hk3);
          [rewrite len_suf; lia|rewrite len_suf; lia|lia
          |right; apply (cap_le (N + M)); [lia|done]|].
        rewrite (pre_of_suf old N M), (pre_of_suf new M M) in Hok2 by lia.
        rewrite H2. eexists _, s3. split; [done|]. split_and!.
        -- apply (script_perm _ _ _ _ _ ops2);
             [by rewrite ms_insert_range_perm, app_nil_r|].
           apply (script_after_prefix _ _ _ _ M);
             rewrite ?(len_pre old N), ?(len_pre new M); try done; lia.
        -- right. by apply Hk3.
        -- eauto using keeps_trans.
      * assert (N = M) as <- by lia. replace (Z.min N N) with N in Htriv by lia.
        exists [], s1. split; [done|]. split_and!; [|by right|done].
        apply (script_after_prefix _ _ _ _ N);
          rewrite ?(len_pre old N), ?(len_pre new N); try done; try lia.
        rewrite !suf_all by (rewrite len_pre; lia). apply script_nil.
  - (* only deletions *)
    assert (M = 0) as -> by lia.
    destruct (Z.ltb_spec 0 N); [|lia].
    pose proof (emit_spec (Z.to_nat N) 0 old cx "del" s ltac:(lia)) as He.
    change (span cx 0 "del") with (@nil (Z * string)) in He.
    change (Z.of_nat 0) with 0 in He. rewrite He.
    eexists _, s. split; [done|]. split_and!; [|done|apply keeps_refl].
    rewrite pre_0. rewrite <- (len_pre old N) at 2 by done.
    apply script_dels.
  - (* only insertions *)
    assert (N = 0) as -> by lia.
    destruct (Z.ltb_spec 0 0); [lia|].
    pose proof (emit_spec (Z.to_nat M) 0 new cy "add" s ltac:(lia)) as He.
    change (span cy 0 "add") with (@nil (Z * string)) in He.
    change (Z.of_nat 0) with 0 in He. rewrite He.
    eexists _, s. split; [done|]. split_and!; [|done|apply keeps_refl].
    rewrite pre_0. rewrite <- (len_pre new M) at 2 by done.
    apply script_adds.
  - (* both sequences are empty *)
    assert (N = 0) as -> by lia. assert (M = 0) as -> by lia.
    exists [], s. split; [done|]. split_and!; [|done|apply keeps_refl].
    rewrite !pre_0. apply script_nil.
Qed.

(** ** The script does not depend on the store, while there is room *)

Lemma emit_store_independent n i seq base tag acc s1 s2 r1 r2 s1' s2' :
  emit n i seq base tag acc s1 = Ok (r1, s1') ->
  emit n i seq base tag acc s2 = Ok (r2, s2') ->
  r1 = r2.
Proof.
  revert i acc. induction n as [|n IH]; intros i acc; simpl.
  - unfold ret. congruence.
  - unfold bind, rd_seq, fault, ret. destruct (i <? 0); [done|].
    destruct (seq !! Z.to_nat i); [|done]. apply IH.
Qed.

(** Two calls with the same arguments, each started in a store with room
    for [N + M], return the same script. *)
Lemma ShortestEditScript_store_independent fuel :
  forall old N new M cx cy s1 s2 ops1 ops2 s1' s2',
    0 <= N <= len old -> 0 <= M <= len new ->
    N + M < Z.of_nat fuel -> room (N + M) s1 -> room (N + M) s2 ->
    ShortestEditScript fuel old N new M cx cy s1 = Ok (ops1, s1') ->
    ShortestEditScript fuel old N new M cx cy s2 = Ok (ops2, s2') ->
    ops1 = ops2.
Proof.
  induction fuel as [|fuel IH];
    intros old N new M cx cy s1 s2 ops1 ops2 s1' s2' HN HM Hfuel Hr1 Hr2; [lia|].
  rewrite !ShortestEditScript_S.
  destruct (Z.ltb_spec 0 N) as [HN0|HN0]; destruct (Z.ltb_spec 0 M) as [HM0|HM0];
    cbn [andb].
  - destruct (FindMiddleSnake_spec old new N M HN HM s1 ltac:(lia) Hr1)
      as (t & s1a & Hf1 & Hok & Hcap1 & Hk1).
    destruct (FindMiddleSnake_spec old new N M HN HM s2 ltac:(lia) Hr2)
      as (t' & s2a & Hf2 & _ & Hcap2 & Hk2).
    assert (t = t') as <-.
    { by eapply (FindMiddleSnake_store_independent old new N M HN HM s1 s2);
        [lia|done|done|apply Hf1|apply Hf2]. }
    unfold bind. rewrite Hf1, Hf2.
    destruct t as [[[[D x] y] u] v]. cbv beta iota.
    destruct Hok as ((Hx & Hu) & (Hy & Hv) & Hdiag & Hrun & HD & Hsum & Hp & Hs & Htriv).
    rewrite (len_pre old N), (len_pre new M) in * by done.
    pose proof (ed_le_sum (pre (pre old N) x) (pre (pre new M) y)) as Hle1.
    pose proof (ed_le_sum (suf (pre old N) u) (suf (pre new M) v)) as Hle2.
    rewrite !len_pre in Hle1 by (rewrite ?len_pre; lia).
    rewrite !len_suf in Hle2 by (rewrite ?len_pre; lia).
    rewrite (len_pre old N), (len_pre new M) in * by done.
    destruct ((1 <? D) || (negb (x =? u) && negb (y =? v))) eqn:Hc.
    + assert (Hlt : x + y < N + M /\ (N - u) + (M - v) < N + M).
      { apply orb_prop in Hc as [Hc|Hc].
        - apply Z.ltb_lt in Hc. lia.
        - apply andb_prop in Hc as [Hc _]. apply negb_true_iff, Z.eqb_neq in Hc. lia. }
      assert (Hra : room (x + y) s1a) by (right; apply (cap_le (N + M)); [lia|done]).
      assert (Hrb : room (x + y) s2a) by (right; apply (cap_le (N + M)); [lia|done]).
      destruct (ShortestEditScript_spec fuel old x new y cx cy s1a)
        as (p1 & s1b & Hp1 & _ & _ & Hk1b); [lia|lia|lia|done|].
      destruct (ShortestEditScript_spec fuel old x new y cx cy s2a)
        as (p2 & s2b & Hp2 & _ & _ & Hk2b); [lia|lia|lia|done|].
      assert (p1 = p2) as <-.
      { by eapply (IH old x new y cx cy s1a s2a);
          [lia|lia|lia|done|done|apply Hp1|apply Hp2]. }
      assert (Hrc : room (N - u + (M - v)) s1b)
        by (right; apply (cap_le (N + M)); [lia|by apply Hk1b]).
      assert (Hrd : room (N - u + (M - v)) s2b)
        by (right; apply (cap_le (N + M)); [lia|by apply Hk2b]).
      destruct (ShortestEditScript_spec fuel (suf old u) (N - u) (suf new v) (M - v)
                  (cx + u) (cy + v) s1b)
        as (q1 & s1c & Hq1 & _); [rewrite len_suf; lia|rewrite len_suf; lia|lia|done|].
      destruct (ShortestEditScript_spec fuel (suf old u) (N - u) (suf new v) (M - v)
                  (cx + u) (cy + v) s2b)
        as (q2 & s2c & Hq2 & _); [rewrite len_suf; lia|rewrite len_suf; lia|lia|done|].
      assert (q1 = q2) as <-.
      { by eapply (IH (suf old u) (N - u) (suf new v) (M - v) (cx + u) (cy + v) s1b s2b);
          [rewrite len_suf; lia|rewrite len_suf; lia|lia|done|done|apply Hq1|apply Hq2]. }
      rewrite Hp1, Hp2.
      rewrite !(ptr_add_ok old u), !(ptr_add_ok new v) by lia.
      rewrite Hq1, Hq2. unfold ret. cbv beta iota. congruence.
    + apply orb_false_elim in Hc as [Hc1 Hc2]. apply Z.ltb_ge in Hc1.
      destruct (Z.ltb_spec N M) as [HNM|HNM]; [|destruct (Z.ltb_spec M N) as [HMN|HMN]].
      * assert (Hra : room (N - N + (M - N)) s1a)
          by (right; apply (cap_le (N + M)); [lia|done]).
        assert (Hrb : room (N - N + (M - N)) s2a)
          by (right; apply (cap_le (N + M)); [lia|done]).
        destruct (ShortestEditScript_spec fuel (suf old N) (N - N) (suf new N) (M - N)
                    (cx + N) (cy + N) s1a)
          as (q1 & s1c & Hq1 & _); [rewrite len_suf; lia|rewrite len_suf; lia|lia|done|].
        destruct (ShortestEditScript_spec fuel (suf old N) (N - N) (suf new N) (M - N)
                    (cx + N) (cy + N) s2a)
          as (q2 & s2c & Hq2 & _); [rewrite len_suf; lia|rewrite len_suf; lia|lia|done|].
        assert (q1 = q2) as <-.
        { by eapply (IH (suf old N) (N - N) (suf new N) (M - N) (cx + N) (cy + N) s1a s2a);
            [rewrite len_suf; lia|rewrite len_suf; lia|lia|done|done|apply Hq1|apply Hq2]. }
        rewrite !(ptr_add_ok old N), !(ptr_add_ok new N) by lia.
        rewrite Hq1, Hq2. unfold ret. cbv beta iota. congruence.
      * assert (Hra : room (N - M + (M - M)) s1a)
          by (right; apply (cap_le (N + M)); [lia|done]).
        assert (Hrb : room (N - M + (M - M)) s2a)
          by (right; apply (cap_le (N + M)); [lia|done]).
        destruct (ShortestEditScript_spec fuel (suf old M) (N - M) (suf new M) (M - M)
                    (cx + M) (cy + M) s1a)
          as (q1 & s1c & Hq1 & _); [rewrite len_suf; lia|rewrite len_suf; lia|lia|done|].
        destruct (ShortestEditScript_spec fuel (suf old M) (N - M) (suf new M) (M - M)
                    (cx + M) (cy + M) s2a)
          as (q2 & s2c & Hq2 & _); [rewrite len_suf; lia|rewrite len_suf; lia|lia|done|].
        assert (q1 = q2) as <-.
        { by eapply (IH (suf old M) (N - M) (suf new M) (M - M) (cx + M) (cy + M) s1a s2a);
            [rewrite len_suf; lia|rewrite len_suf; lia|lia|done|done|apply Hq1|apply Hq2]. }
        rewrite !(ptr_add_ok old M), !(ptr_add_ok new M) by lia.
        rewrite Hq1, Hq2. unfold ret. cbv beta iota. congruence.
      * unfold ret. cbv beta iota. congruence.
  - destruct (Z.ltb_spec 0 N); [|lia]. apply emit_store_independent.
  - destruct (Z.ltb_spec 0 N); [lia|]. destruct (Z.ltb_spec 0 M); [|lia].
    apply emit_store_independent.
  - destruct (Z.ltb_spec 0 N); [lia|]. destruct (Z.ltb_spec 0 M); [lia|].
    unfold ret. congruence.
Qed.

(** ** Calls in a store that fits the distance *)

Lemma fits_le e e' s : e' <= e -> fits e s -> fits e' s.
Proof.
  intros Hle [H|(c & Hcap & Hc & He)]; [by left|].
  right. exists c. split_and!; [done|done|lia].
Qed.

Lemma fits_keeps e s s' :
  (exists c, cap c s /\ 1 <= c /\ e <= 2 * c) -> keeps s s' -> fits e s'.
Proof. intros (c & Hcap & Hc & He) Hk. right. exists c. split_and!; [by apply Hk|done|done]. Qed.

(** The sub-problems of a division are not farther apart than the
    problem. *)
Lemma middle_ok_parts a b D x y u v :
  middle_ok a b (D, x, y, u, v) ->
  ed (pre a x) (pre b y) <= ed a b /\ ed (suf a u) (suf b v) <= ed a b.
Proof.
  intros (_ & _ & _ & _ & HD & Hsum & _).
  pose proof (ed_nonneg (pre a x) (pre b y)).
  pose proof (ed_nonneg (suf a u) (suf b v)). lia.
Qed.

Lemma ed_tail_l old new N M :
  0 <= N <= len old -> 0 <= M <= len new -> N <= M ->
  ed (pre (suf old N) (N - N)) (pre (suf new N) (M - N))
  <= ed (pre old N) (pre new M).
Proof.
  intros HN HM Hle. rewrite Z.sub_diag, pre_0, ed_nil_l.
  rewrite len_pre by (rewrite len_suf; lia).
  pose proof (ed_ge_diff (pre old N) (pre new M)) as H.
  rewrite !len_pre in H by done. lia.
Qed.

Lemma ed_tail_r old new N M :
  0 <= N <= len old -> 0 <= M <= len new -> M <= N ->
  ed (pre (suf old M) (N - M)) (pre (suf new M) (M - M))
  <= ed (pre old N) (pre new M).
Proof.
  intros HN HM Hle. rewrite Z.sub_diag, pre_0, ed_nil_r.
  rewrite len_pre by (rewrite len_suf; lia).
  pose proof (ed_ge_diff (pre old N) (pre new M)) as H.
  rewrite !len_pre in H by done. lia.
Qed.

(** [ShortestEditScript] returns a shortest script in every store that
    fits the distance of the two sequences. *)
Lemma ShortestEditScript_fits fuel :
  forall old N new M cx cy s,
    0 <= N <= len old -> 0 <= M <= len new ->
    N + M < Z.of_nat fuel -> fits (ed (pre old N) (pre new M)) s ->
    exists ops s',
      ShortestEditScript fuel old N new M cx cy s = Ok (ops, s') /\
      script_ok (pre old N) (pre new M) cx cy ops /\
      fits (ed (pre old N) (pre new M)) s' /\ keeps s s'.
Proof.
  induction fuel as [|fuel IH]; intros old N new M cx cy s HN HM Hfuel Hfits; [lia|].
  rewrite ShortestEditScript_S.
  destruct (Z.ltb_spec 0 N) as [HN0|HN0]; destruct (Z.ltb_spec 0 M) as [HM0|HM0];
    cbn [andb].
  - destruct (FindMiddleSnake_fits old new N M HN HM s ltac:(lia) Hfits)
      as (t & s1 & Hfms & Hok & _ & Hcap1 & Hk1).
    unfold bind at 1. rewrite Hfms. destruct t as [[[[D x] y] u] v].
    pose proof (middle_ok_parts _ _ _ _ _ _ _ Hok) as [Hpart1 Hpart2].
    destruct Hok as ((Hx & Hu) & (Hy & Hv) & Hdiag & Hrun & HD & Hsum & Hp & Hs & Htriv).
    rewrite (len_pre old N), (len_pre new M) in * by done.
    pose proof (ed_le_sum (pre (pre old N) x) (pre (pre new M) y)) as Hle1.
    pose proof (ed_le_sum (suf (pre old N) u) (suf (pre new M) v)) as Hle2.
    rewrite !len_pre in Hle1 by (rewrite ?len_pre; lia).
    rewrite !len_suf in Hle2 by (rewrite ?len_pre; lia).
    rewrite (len_pre old N), (len_pre new M) in * by done.
    destruct ((1 <? D) || (negb (x =? u) && negb (y =? v))) eqn:Hc.
    + assert (Hlt : x + y < N + M /\ (N - u) + (M - v) < N + M).
      { apply orb_prop in Hc as [Hc|Hc].
        - apply Z.ltb_lt in Hc. lia.
        - apply andb_prop in Hc as [Hc _]. apply negb_true_iff, Z.eqb_neq in Hc. lia. }
      rewrite (pre_of_pre old N x), (pre_of_pre new M y) in Hpart1 by lia.
      rewrite <- (pre_of_suf old N u), <- (pre_of_suf new M v) in Hpart2 by lia.
      destruct (IH old x new y cx cy s1) as (ops1 & s2 & H1 & Hok1 & _ & Hk2);
        [lia|lia|lia|by eapply fits_le, fits_keeps, keeps_refl|].
      rewrite <- (pre_of_pre old N x), <- (pre_of_pre new M y) in Hok1 by lia.
      unfold bind. rewrite H1.
      rewrite (ptr_add_ok old u), (ptr_add_ok new v) by lia.
      destruct (IH (suf old u) (N - u) (suf new v) (M - v) (cx + u) (cy + v) s2)
        as (ops2 & s3 & H2 & Hok2 & _ & Hk3);
        [rewrite len_suf; lia|rewrite len_suf; lia|lia
        |by eapply fits_le, fits_keeps|].
      rewrite (pre_of_suf old N u), (pre_of_suf new M v) in Hok2 by lia.
      rewrite H2. eexists _, s3. split; [done|]. split_and!.
      * apply (script_join _ _ cx cy x y u v ops1 ops2);
          rewrite ?(len_pre old N), ?(len_pre new M); try done; try lia.
        rewrite !ms_insert_range_perm, app_nil_r. apply Permutation_app_comm.
      * eapply fits_keeps; [done|]. eauto using keeps_trans.
      * eauto using keeps_trans.
    + apply orb_false_elim in Hc as [Hc1 Hc2]. apply Z.ltb_ge in Hc1.
      assert (x = u) as Hxu.
      { apply andb_false_iff in Hc2 as [Hc2|Hc2];
          apply negb_false_iff, Z.eqb_eq in Hc2; lia. }
      specialize (Htriv Hc1 Hxu).
      destruct (Z.ltb_spec N M) as [HNM|HNM]; [|destruct (Z.ltb_spec M N) as [HMN|HMN]].
      * replace (Z.min N M) with N in Htriv by lia.
        unfold bind. rewrite (ptr_add_ok old N), (ptr_add_ok new N) by lia.
        destruct (IH (suf old N) (N - N) (suf new N) (M - N) (cx + N) (cy + N) s1)
          as (ops2 & s3 & H2 & Hok2 & _ & Hk3);
          [rewrite len_suf; lia|rewrite len_suf; lia|lia
          |eapply fits_le, fits_keeps, keeps_refl; [apply ed_tail_l; (done || lia)|done]|].
        rewrite (pre_of_suf old N N), (pre_of_suf new M N) in Hok2 by lia.
        rewrite H2. eexists _, s3. split; [done|]. split_and!.
        -- apply (script_perm _ _ _ _ _ ops2);
             [by rewrite ms_insert_range_perm, app_nil_r|].
           apply (script_after_prefix _ _ _ _ N);
             rewrite ?(len_pre old N), ?(len_pre new M); try done; lia.
        -- by eapply fits_keeps.
        -- eauto using keeps_trans.
      * replace (Z.min N M) with M in Htriv by lia.
        unfold bind. rewrite (ptr_add_ok old M), (ptr_add_ok new M) by lia.
        destruct (IH (suf old M) (N - M) (suf new M) (M - M) (cx + M) (cy + M) s1)
          as (ops2 & s3 & H2 & Hok2 & _ & Hk3);
          [rewrite len_suf; lia|rewrite len_suf; lia|lia
          |eapply fits_le, fits_keeps, keeps_refl; [apply ed_tail_r; (done || lia)|done]|].
        rewrite (pre_of_suf old N M), (pre_of_suf new M M) in Hok2 by lia.
        rewrite H2. eexists _, s3. split; [done|]. split_and!.
        -- apply (script_perm _ _ _ _ _ ops2);
             [by rewrite ms_insert_range_perm, app_nil_r|].
           apply (script_after_prefix _ _ _ _ M);
             rewrite ?(len_pre old N), ?(len_pre new M); try done; lia.
        -- by eapply fits_keeps.
        -- eauto using keeps_trans.
      * assert (N = M) as <- by lia. replace (Z.min N N) with N in Htriv by lia.
        exists [], s1. split; [done|]. split_and!; [|by eapply fits_keeps, keeps_refl|done].
        apply (script_after_prefix _ _ _ _ N);
          rewrite ?(len_pre old N), ?(len_pre new N); try done; try lia.
        rewrite !suf_all by (rewrite len_pre; lia). apply script_nil.
  - assert (M = 0) as -> by lia.
    destruct (Z.ltb_spec 0 N); [|lia].
    pose proof (emit_spec (Z.to_nat N) 0 old cx "del" s ltac:(lia)) as He.
    change (span cx 0 "del") with (@nil (Z * string)) in He.
    change (Z.of_nat 0) with 0 in He. rewrite He.
    eexists _, s. split; [done|]. split_and!; [|done|apply keeps_refl].
    rewrite pre_0. rewrite <- (len_pre old N) at 2 by done.
    apply script_dels.
  - assert (N = 0) as -> by lia.
    destruct (Z.ltb_spec 0 0); [lia|].
    pose proof (emit_spec (Z.to_nat M) 0 new cy "add" s ltac:(lia)) as He.
    change (span cy 0 "add") with (@nil (Z * string)) in He.
    change (Z.of_nat 0) with 0 in He. rewrite He.
    eexists _, s. split; [done|]. split_and!; [|done|apply keeps_refl].
    rewrite pre_0. rewrite <- (len_pre new M) at 2 by done.
    apply script_adds.
  - assert (N = 0) as -> by lia. assert (M = 0) as -> by lia.
    exists [], s. split; [done|]. split_and!; [|done|apply keeps_refl].
    rewrite !pre_0. apply script_nil.
Qed.

(** Two calls with the same lengths and offsets, on arrays that agree on
    their first [N] and [M] elements, each started in a store that fits,
    return the same script, whatever the arrays hold further on and
    whatever earlier calls left in the store. *)
Lemma ShortestEditScript_agree fuel1 :
  forall fuel2 old old' N new new' M cx cy s1 s2 ops1 ops2 s1' s2',
    0 <= N <= len old -> 0 <= N <= len old' ->
    0 <= M <= len new -> 0 <= M <= len new' ->
    pre old N = pre old' N -> pre new M = pre new' M ->
    N + M < Z.of_nat fuel1 -> N + M < Z.of_nat fuel2 ->
    fits (ed (pre old N) (pre new M)) s1 ->
    fits (ed (pre old N) (pre new M)) s2 ->
    ShortestEditScript fuel1 old N new M cx cy s1 = Ok (ops1, s1') ->
    ShortestEditScript fuel2 old' N new' M cx cy s2 = Ok (ops2, s2') ->
    ops1 = ops2.
Proof.
  induction fuel1 as [|fuel1 IH];
    intros fuel2 old old' N new new' M cx cy s1 s2 ops1 ops2 s1' s2'
           HN HN' HM HM' Ea Eb Hfuel1 Hfuel2 Hf1 Hf2; [lia|].
  destruct fuel2 as [|fuel2]; [lia|].
  rewrite !ShortestEditScript_S.
  destruct (Z.ltb_spec 0 N) as [HN0|HN0]; destruct (Z.ltb_spec 0 M) as [HM0|HM0];
    cbn [andb].
  - destruct (FindMiddleSnake_fits old new N M HN HM s1 ltac:(lia) Hf1)
      as (t & s1a & Hfms1 & Hok & _ & Hcap1 & Hk1).
    assert (Hf2' : fits (ed (pre old' N) (pre new' M)) s2) by (by rewrite <- Ea, <- Eb).
    destruct (FindMiddleSnake_fits old' new' N M HN' HM' s2 ltac:(lia) Hf2')
      as (t' & s2a & Hfms2 & _ & _ & Hcap2 & Hk2).
    assert (t = t') as <-.
    { by eapply (FindMiddleSnake_agree old old' new new' N M s1 s2);
        [done|done|done|done|done|done|lia|done|done|apply Hfms1|apply Hfms2]. }
    rewrite <- Ea, <- Eb in Hcap2.
    unfold bind. rewrite Hfms1, Hfms2.
    destruct t as [[[[D x] y] u] v]. cbv beta iota.
    pose proof (middle_ok_parts _ _ _ _ _ _ _ Hok) as [Hpart1 Hpart2].
    destruct Hok as ((Hx & Hu) & (Hy & Hv) & Hdiag & Hrun & HD & Hsum & Hp & Hs & Htriv).
    rewrite (len_pre old N), (len_pre new M) in * by done.
    pose proof (ed_le_sum (pre (pre old N) x) (pre (pre new M) y)) as Hle1.
    pose proof (ed_le_sum (suf (pre old N) u) (suf (pre new M) v)) as Hle2.
    rewrite !len_pre in Hle1 by (rewrite ?len_pre; lia).
    rewrite !len_suf in Hle2 by (rewrite ?len_pre; lia).
    rewrite (len_pre old N), (len_pre new M) in * by done.
    destruct ((1 <? D) || (negb (x =? u) && negb (y =? v))) eqn:Hc.
    + assert (Hlt : x + y < N + M /\ (N - u) + (M - v) < N + M).
      { apply orb_prop in Hc as [Hc|Hc].
        - apply Z.ltb_lt in Hc. lia.
        - apply andb_prop in Hc as [Hc _]. apply negb_true_iff, Z.eqb_neq in Hc. lia. }
      rewrite (pre_of_pre old N x), (pre_of_pre new M y) in Hpart1 by lia.
      rewrite <- (pre_of_suf old N u), <- (pre_of_suf new M v) in Hpart2 by lia.
      assert (Eax : pre old x = pre old' x)
        by (rewrite <- (pre_of_pre old N x), <- (pre_of_pre old' N x), Ea by lia; done).
      assert (Eby : pre new y = pre new' y)
        by (rewrite <- (pre_of_pre new M y), <- (pre_of_pre new' M y), Eb by lia; done).
      assert (Eau : pre (suf old u) (N - u) = pre (suf old' u) (N - u))
        by (rewrite !pre_of_suf, Ea by lia; done).
      assert (Ebv : pre (suf new v) (M - v) = pre (suf new' v) (M - v))
        by (rewrite !pre_of_suf, Eb by lia; done).
      assert (Hfa : fits (ed (pre old x) (pre new y)) s1a)
        by (eapply fits_le, fits_keeps; [exact Hpart1|exact Hcap1|apply keeps_refl]).
      assert (Hfb : fits (ed (pre old x) (pre new y)) s2a)
        by (eapply fits_le, fits_keeps; [exact Hpart1|exact Hcap2|apply keeps_refl]).
      destruct (ShortestEditScript_fits fuel1 old x new y cx cy s1a)
        as (p1 & s1b & Hp1 & _ & _ & Hk1b); [lia|lia|lia|done|].
      destruct (ShortestEditScript_fits fuel2 old' x new' y cx cy s2a)
        as (p2 & s2b & Hp2 & _ & _ & Hk2b); [lia|lia|lia|by rewrite <- Eax, <- Eby|].
      assert (p1 = p2) as <-.
      { by eapply (IH fuel2 old old' x new new' y cx cy s1a s2a);
          [lia|lia|lia|lia|done|done|lia|lia|done|done|apply Hp1|apply Hp2]. }
      assert (Hfc : fits (ed (pre (suf old u) (N - u)) (pre (suf new v) (M - v))) s1b)
        by (eapply fits_le, fits_keeps; [exact Hpart2|exact Hcap1|exact Hk1b]).
      assert (Hfd : fits (ed (pre (suf old u) (N - u)) (pre (suf new v) (M - v))) s2b)
        by (eapply fits_le, fits_keeps; [exact Hpart2|exact Hcap2|exact Hk2b]).
      destruct (ShortestEditScript_fits fuel1 (suf old u) (N - u) (suf new v) (M - v)
                  (cx + u) (cy + v) s1b)
        as (q1 & s1c & Hq1 & _); [rewrite len_suf; lia|rewrite len_suf; lia|lia|done|].
      destruct (ShortestEditScript_fits fuel2 (suf old' u) (N - u) (suf new' v) (M - v)
                  (cx + u) (cy + v) s2b)
        as (q2 & s2c & Hq2 & _);
        [rewrite len_suf; lia|rewrite len_suf; lia|lia|by rewrite <- Eau, <- Ebv|].
      assert (q1 = q2) as <-.
      { by eapply (IH fuel2 (suf old u) (suf old' u) (N - u) (suf new v) (suf new' v)
                     (M - v) (cx + u) (cy + v) s1b s2b);
          [rewrite len_suf; lia|rewrite len_suf; lia|rewrite len_suf; lia
          |rewrite len_suf; lia|done|done|lia|lia|done|done|apply Hq1|apply Hq2]. }
      rewrite Hp1, Hp2.
      rewrite (ptr_add_ok old u), (ptr_add_ok new v),
        (ptr_add_ok old' u), (ptr_add_ok new' v) by lia.
      rewrite Hq1, Hq2. unfold ret. cbv beta iota. congruence.
    + apply orb_false_elim in Hc as [Hc1 Hc2]. apply Z.ltb_ge in Hc1.
      destruct (Z.ltb_spec N M) as [HNM|HNM]; [|destruct (Z.ltb_spec M N) as [HMN|HMN]].
      * assert (Eau : pre (suf old N) (N - N) = pre (suf old' N) (N - N))
          by (rewrite !pre_of_suf, Ea by lia; done).
        assert (Ebv : pre (suf new N) (M - N) = pre (suf new' N) (M - N))
          by (rewrite !pre_of_suf, Eb by lia; done).
        assert (Hfc : fits (ed (pre (suf old N) (N - N)) (pre (suf new N) (M - N))) s1a).
        { eapply fits_le, fits_keeps;
            [apply ed_tail_l; (done || lia)|exact Hcap1|apply keeps_refl]. }
        assert (Hfd : fits (ed (pre (suf old N) (N - N)) (pre (suf new N) (M - N))) s2a).
        { eapply fits_le, fits_keeps;
            [apply ed_tail_l; (done || lia)|exact Hcap2|apply keeps_refl]. }
        destruct (ShortestEditScript_fits fuel1 (suf old N) (N - N) (suf new N) (M - N)
                    (cx + N) (cy + N) s1a)
          as (q1 & s1c & Hq1 & _); [rewrite len_suf; lia|rewrite len_suf; lia|lia|done|].
        destruct (ShortestEditScript_fits fuel2 (suf old' N) (N - N) (suf new' N) (M - N)
                    (cx + N) (cy + N) s2a)
          as (q2 & s2c & Hq2 & _);
          [rewrite len_suf; lia|rewrite len_suf; lia|lia|by rewrite <- Eau, <- Ebv|].
        assert (q1 = q2) as <-.
        { by eapply (IH fuel2 (suf old N) (suf old' N) (N - N) (suf new N) (suf new' N)
                       (M - N) (cx + N) (cy + N) s1a s2a);
            [rewrite len_suf; lia|rewrite len_suf; lia|rewrite len_suf; lia
            |rewrite len_suf; lia|done|done|lia|lia|done|done|apply Hq1|apply Hq2]. }
        rewrite (ptr_add_ok old N), (ptr_add_ok new N),
          (ptr_add_ok old' N), (ptr_add_ok new' N) by lia.
        rewrite Hq1, Hq2. unfold ret. cbv beta iota. congruence.
      * assert (Eau : pre (suf old M) (N - M) = pre (suf old' M) (N - M))
          by (rewrite !pre_of_suf, Ea by lia; done).
        assert (Ebv : pre (suf new M) (M - M) = pre (suf new' M) (M - M))
          by (rewrite !pre_of_suf, Eb by lia; done).
        assert (Hfc : fits (ed (pre (suf old M) (N - M)) (pre (suf new M) (M - M))) s1a).
        { eapply fits_le, fits_keeps;
            [apply ed_tail_r; (done || lia)|exact Hcap1|apply keeps_refl]. }
        assert (Hfd : fits (ed (pre (suf old M) (N - M)) (pre (suf new M) (M - M))) s2a).
        { eapply fits_le, fits_keeps;
            [apply ed_tail_r; (done || lia)|exact Hcap2|apply keeps_refl]. }
        destruct (ShortestEditScript_fits fuel1 (suf old M) (N - M) (suf new M) (M - M)
                    (cx + M) (cy + M) s1a)
          as (q1 & s1c & Hq1 & _); [rewrite len_suf; lia|rewrite len_suf; lia|lia|done|].
        destruct (ShortestEditScript_fits fuel2 (suf old' M) (N - M) (suf new' M) (M - M)
                    (cx + M) (cy + M) s2a)
          as (q2 & s2c & Hq2 & _);
          [rewrite len_suf; lia|rewrite len_suf; lia|lia|by rewrite <- Eau, <- Ebv|].
        assert (q1 = q2) as <-.
        { by eapply (IH fuel2 (suf old M) (suf old' M) (N - M) (suf new M) (suf new' M)
                       (M - M) (cx + M) (cy + M) s1a s2a);
            [rewrite len_suf; lia|rewrite len_suf; lia|rewrite len_suf; lia
            |rewrite len_suf; lia|done|done|lia|lia|done|done|apply Hq1|apply Hq2]. }
        rewrite (ptr_add_ok old M), (ptr_add_ok new M),
          (ptr_add_ok old' M), (ptr_add_ok new' M) by lia.
        rewrite Hq1, Hq2. unfold ret. cbv beta iota. congruence.
      * unfold ret. cbv beta iota. congruence.
  - destruct (Z.ltb_spec 0 N); [|lia].
    pose proof (emit_spec (Z.to_nat N) 0 old cx "del" s1 ltac:(lia)) as He1.
    pose proof (emit_spec (Z.to_nat N) 0 old' cx "del" s2 ltac:(lia)) as He2.
    change (span cx 0 "del") with (@nil (Z * string)) in He1, He2.
    change (Z.of_nat 0) with 0 in He1, He2. rewrite He1, He2. congruence.
  - destruct (Z.ltb_spec 0 N); [lia|]. destruct (Z.ltb_spec 0 M); [|lia].
    pose proof (emit_spec (Z.to_nat M) 0 new cy "add" s1 ltac:(lia)) as He1.
    pose proof (emit_spec (Z.to_nat M) 0 new' cy "add" s2 ltac:(lia)) as He2.
    change (span cy 0 "add") with (@nil (Z * string)) in He1, He2.
    change (Z.of_nat 0) with 0 in He1, He2. rewrite He1, He2. congruence.
  - destruct (Z.ltb_spec 0 N); [lia|]. destruct (Z.ltb_spec 0 M); [lia|].
    unfold ret. congruence.
Qed.

(** ** Applying a script *)

Lemma insert_asc_perm p l : insert_asc p l ≡ₚ p :: l.
Proof.
  induction l as [|q l IH]; simpl; [done|].
  destruct (p <=? q); [done|]. rewrite IH. apply Permutation_swap.
Qed.

Lemma sort_asc_perm l : sort_asc l ≡ₚ l.
Proof.
  induction l as [|p l IH]; simpl; [done|].
  unfold sort_asc in *. simpl. by rewrite insert_asc_perm, IH.
Qed.

Lemma insert_asc_sorted p l :
  StronglySorted Z.lt l -> p ∉ l -> StronglySorted Z.lt (insert_asc p l).
Proof.
  induction l as [|q l IH]; simpl; intros Hs Hp.
  - repeat constructor.
  - apply StronglySorted_inv in Hs as [Hs Hq].
    apply not_elem_of_cons in Hp as [Hpq Hp].
    destruct (Z.leb_spec p q).
    + constructor; [by constructor|]. constructor; [lia|].
      rewrite Forall_forall in *. intros r Hr. specialize (Hq r Hr). lia.
    + constructor; [by apply IH|].
      rewrite Forall_forall in *. intros r Hr.
      rewrite insert_asc_perm in Hr.
      apply elem_of_cons in Hr as [->|Hr]; [lia|]. by apply Hq.
Qed.

Lemma sort_asc_sorted l : NoDup l -> StronglySorted Z.lt (sort_asc l).
Proof.
  induction l as [|p l IH]; intros Hnd.
  - constructor.
  - apply NoDup_cons in Hnd as [Hp Hnd]. unfold sort_asc in *. simpl.
    apply insert_asc_sorted; [by apply IH|].
    fold (sort_asc l). by rewrite sort_asc_perm.
Qed.

(** Deleting an index below all struck positions strikes it too. *)
Lemma strike_delete l base p rest :
  0 <= p -> (forall q, q ∈ rest -> base + p < q) ->
  delete (Z.to_nat p) (strike rest base l) = strike ((base + p) :: rest) base l.
Proof.
  revert base p. induction l as [|c l IH]; intros base p Hp Hrest; simpl; [done|].
  assert (Hb : base ∉ rest) by (intros H; apply Hrest in H; lia).
  rewrite (bool_decide_eq_false_2 (base ∈ rest)) by done.
  destruct (Z.eq_dec p 0) as [->|Hne].
  - rewrite Z.add_0_r. rewrite bool_decide_eq_true_2 by left. simpl.
    apply strike_ext. intros i Hi. rewrite elem_of_cons. split; [by right|].
    intros [->|H]; [lia|done].
  - rewrite bool_decide_eq_false_2.
    2:{ intros [H|H]%elem_of_cons; [lia|done]. }
    replace (Z.to_nat p) with (S (Z.to_nat (p - 1))) by lia. simpl. f_equal.
    rewrite (IH (base + 1) (p - 1)); [|lia|].
    + f_equal. f_equal. lia.
    + intros q Hq. apply Hrest in Hq. lia.
Qed.

(** Inserting the element of an index below all other struck positions
    puts it back. *)
Lemma strike_insert l base p c rest :
  0 <= p -> l !! Z.to_nat p = Some c ->
  (forall q, q ∈ rest -> base + p < q) ->
  insert_at p c (strike ((base + p) :: rest) base l) = strike rest base l.
Proof.
  revert base p. induction l as [|d l IH]; intros base p Hp Hc Hrest; [done|].
  simpl. assert (Hb : base ∉ rest) by (intros H; apply Hrest in H; lia).
  rewrite (bool_decide_eq_false_2 (base ∈ rest)) by done.
  destruct (Z.eq_dec p 0) as [->|Hne].
  - rewrite Z.add_0_r. rewrite bool_decide_eq_true_2 by left. simpl in Hc.
    injection Hc as ->. unfold insert_at. simpl. f_equal.
    apply strike_ext. intros i Hi. rewrite elem_of_cons. split; [|by right].
    intros [->|H]; [lia|done].
  - rewrite bool_decide_eq_false_2.
    2:{ intros [H|H]%elem_of_cons; [lia|done]. }
    unfold insert_at.
    replace (Z.to_nat p) with (S (Z.to_nat (p - 1))) in * by lia. simpl in *. f_equal.
    specialize (IH (base + 1) (p - 1) ltac:(lia) Hc).
    replace (base + 1 + (p - 1)) with (base + p) in IH by lia.
    apply IH. intros q Hq. apply Hrest in Hq. lia.
Qed.

Lemma delete_all_desc A ps :
  StronglySorted Z.lt ps -> (forall p, p ∈ ps -> 0 <= p) ->
  fold_left (fun l i => delete_at i l) (reverse ps) A = strike ps 0 A.
Proof.
  induction ps as [|p ps IH]; intros Hs Hr.
  - simpl. symmetry. apply strike_none. intros i _ H. inversion H.
  - apply StronglySorted_inv in Hs as [Hs Hp].
    rewrite reverse_cons, fold_left_app. simpl.
    rewrite IH; [|done|intros q Hq; apply Hr; by right].
    assert (0 <= p) by (apply Hr; left).
    unfold delete_at. destruct (Z.ltb_spec p 0); [lia|].
    rewrite (strike_delete A 0 p ps); [done|done|].
    rewrite Forall_forall in Hp. intros q Hq. apply Hp in Hq. lia.
Qed.

Lemma insert_all_asc B qs :
  StronglySorted Z.lt qs -> (forall q, q ∈ qs -> 0 <= q < len B) ->
  fold_left (fun l j => match B !! Z.to_nat j with
                        | Some c => insert_at j c l
                        | None => l
                        end) qs (strike qs 0 B) = B.
Proof.
  induction qs as [|q qs IH]; intros Hs Hr.
  - simpl. apply strike_none. intros i _ H. inversion H.
  - apply StronglySorted_inv in Hs as [Hs Hq].
    assert (Hq0 : 0 <= q < len B) by (apply Hr; left).
    destruct (lookup_lt_len B q Hq0) as [c Hc]. simpl. rewrite Hc.
    pose proof (strike_insert B 0 q c qs) as Hins. rewrite Z.add_0_l in Hins.
    rewrite Hins; [|lia|done|].
    + apply IH; [done|]. intros r Hr'. apply Hr. by right.
    + rewrite Forall_forall in Hq. intros r Hr'. apply Hq in Hr'. lia.
Qed.

(** A script that is right for [A] and [B] turns [A] into [B]. *)
Lemma apply_script_ok A B ops :
  script_ok A B 0 0 ops -> apply_script A B ops = B.
Proof.
  intros (Hnd & Hr & Hs & _). unfold apply_script, sort_desc.
  rewrite delete_all_desc.
  - rewrite (strike_ext _ (positions "del" ops))
      by (intros i _; by rewrite sort_asc_perm).
    rewrite Hs.
    rewrite (strike_ext (positions "add" ops) (sort_asc (positions "add" ops)))
      by (intros i _; by rewrite sort_asc_perm).
    apply insert_all_asc.
    + by apply sort_asc_sorted, NoDup_positions.
    + intros q Hq. rewrite sort_asc_perm in Hq. apply elem_of_positions, Hr in Hq.
      destruct Hq as [[? ?]|[? ?]]; (done || lia).
  - by apply sort_asc_sorted, NoDup_positions.
  - intros p Hp. rewrite sort_asc_perm in Hp. apply elem_of_positions, Hr in Hp.
    destruct Hp as [[? ?]|[? ?]]; (done || lia).
Qed.

(** ** No script is shorter than the distance *)

Lemma strike_sublist ps base l : strike ps base l `sublist_of` l.
Proof.
  revert base. induction l as [|c l IH]; intros base; simpl; [done|].
  destruct (bool_decide (base ∈ ps)); [by apply sublist_cons|by apply sublist_skip].
Qed.

(** Every position strikes at most one element. *)
Lemma len_strike_ge ps base l : len l - len ps <= len (strike ps base l).
Proof.
  revert ps base. induction l as [|c l IH]; intros ps base; simpl.
  - pose proof (len_nonneg ps). rewrite len_nil. lia.
  - destruct (decide (base ∈ ps)) as [Hin|Hin].
    + rewrite bool_decide_eq_true_2 by done.
      rewrite (strike_ext ps (filter (fun p => p <> base) ps) (base + 1) l).
      2:{ intros i Hi. rewrite list_elem_of_filter. split; [|by intros [_ ?]].
          intros H. split; [lia|done]. }
      specialize (IH (filter (fun p => p <> base) ps) (base + 1)).
      pose proof (length_filter_lt (fun p => p <> base) ps base Hin
                    ltac:(intros H; by apply H)) as Hlt.
      rewrite len_cons. unfold len in *. lia.
    + rewrite bool_decide_eq_false_2 by done. rewrite !len_cons.
      specialize (IH ps (base + 1)). lia.
Qed.

Lemma length_positions ops :
  (length (positions "del" ops) + length (positions "add" ops) <= length ops)%nat.
Proof.
  induction ops as [|[p t] ops IH]; simpl; [done|].
  destruct (String.eqb_spec t "del") as [->|]; simpl; [lia|].
  destruct (String.eqb t "add"); simpl; lia.
Qed.

(** Deletions and insertions that leave the same sequence behind are at
    least as many as the distance. *)
Lemma script_length_ge A B ops :
  strike (positions "del" ops) 0 A = strike (positions "add" ops) 0 B ->
  ed A B <= Z.of_nat (length ops).
Proof.
  intros Heq.
  pose proof (len_strike_ge (positions "del" ops) 0 A) as H1.
  pose proof (len_strike_ge (positions "add" ops) 0 B) as H2.
  pose proof (lcs_upper A B (strike (positions "del" ops) 0 A)
                (strike_sublist _ _ _)) as H3.
  rewrite Heq in H3. specialize (H3 (strike_sublist _ _ _)).
  rewrite Heq in H1. pose proof (length_positions ops).
  unfold ed, len in *. lia.
Qed.

(** ** What the loops can return, in any state *)

Lemma rd_seq_state l i s c s' : rd_seq l i s = Ok (c, s') -> s' = s.
Proof.
  unfold rd_seq. destruct (i <? 0); [done|].
  destruct (l !! Z.to_nat i); [|done]. unfold ret. congruence.
Qed.

Lemma snake_fwd_diag old new N M fuel x y s x' y' s' :
  snake_fwd fuel old new N M x y s = Ok ((x', y'), s') -> x' - y' = x - y.
Proof.
  revert x y s. induction fuel as [|fuel IH]; intros x y s H; [done|].
  rewrite snake_fwd_S in H. destruct ((x <? N) && (y <? M)).
  - unfold bind in H.
    destruct (rd_seq old x s) as [[c s1]| |]; [|done..].
    destruct (rd_seq new y s1) as [[c' s2]| |]; [|done..].
    destruct (c =? c').
    + apply IH in H. lia.
    + unfold ret in H. injection H as -> -> _. done.
  - unfold ret in H. injection H as -> -> _. done.
Qed.

Lemma snake_bwd_diag old new N M fuel x y s x' y' s' :
  snake_bwd fuel old new N M x y s = Ok ((x', y'), s') -> x' - y' = x - y.
Proof.
  revert x y s. induction fuel as [|fuel IH]; intros x y s H; [done|].
  rewrite snake_bwd_S in H. destruct ((x <? N) && (y <? M)).
  - unfold bind in H.
    destruct (rd_seq old (N - x - 1) s) as [[c s1]| |]; [|done..].
    destruct (rd_seq new (M - y - 1) s1) as [[c' s2]| |]; [|done..].
    destruct (c =? c').
    + apply IH in H. lia.
    + unfold ret in H. injection H as -> -> _. done.
  - unfold ret in H. injection H as -> -> _. done.
Qed.

Lemma fwd_iter_shape old N new M D k s t s' :
  fwd_iter old N new M (N - M) D k s = Ok (Return t, s') -> fwd_shape N M D t.
Proof.
  unfold fwd_iter, bind. intros H.
  destruct (pick Fwd D k s) as [[x_i s1]| |]; [|done..].
  destruct (snake_fwd _ old new N M x_i (x_i - k) s1) as [[[x y] s2]| |] eqn:Hs;
    [|done..].
  apply snake_fwd_diag in Hs.
  destruct (wr Fwd k x s2) as [[[] s3]| |]; [|done..].
  destruct ((Z.abs (Z.rem (N - M) 2) =? 1)
            && (- (D - 1) <=? - (k - (N - M))) && (- (k - (N - M)) <=? D - 1))
    eqn:Hc; [|done].
  apply andb_prop in Hc as [Hc _]. apply andb_prop in Hc as [Hodd _].
  apply Z.eqb_eq in Hodd.
  destruct (rd Fwd k s3) as [[a s4]| |]; [|done..].
  destruct (rd Bwd _ s4) as [[b s5]| |]; [|done..].
  destruct (N <=? a + b); [|done].
  unfold ret in H. injection H as <- _.
  exists k, x_i, x. split; [|done]. do 2 f_equal. lia.
Qed.

Lemma bwd_iter_shape old N new M D k s t s' :
  bwd_iter old N new M (N - M) D k s = Ok (Return t, s') -> bwd_shape N M D t.
Proof.
  unfold bwd_iter, bind. intros H.
  destruct (pick Bwd D k s) as [[x_i s1]| |]; [|done..].
  destruct (snake_bwd _ old new N M x_i (x_i - k) s1) as [[[x y] s2]| |] eqn:Hs;
    [|done..].
  apply snake_bwd_diag in Hs.
  destruct (wr Bwd k x s2) as [[[] s3]| |]; [|done..].
  destruct ((Z.rem (N - M) 2 =? 0)
            && (- D <=? - (k - (N - M))) && (- (k - (N - M)) <=? D))
    eqn:Hc; [|done].
  apply andb_prop in Hc as [Hc _]. apply andb_prop in Hc as [Heven _].
  apply Z.eqb_eq in Heven.
  destruct (rd Bwd k s3) as [[a s4]| |]; [|done..].
  destruct (rd Fwd _ s4) as [[b s5]| |]; [|done..].
  destruct (N <=? a + b); [|done].
  unfold ret in H. injection H as <- _.
  exists k, x_i, x. split; [|done]. do 4 f_equal; lia.
Qed.

Lemma for_count_returns {R} n i step (body : Z -> comp (flow R)) s t s' :
  for_count n i step body s = Ok (Return t, s') ->
  exists (m : nat) s1, body (i + step * Z.of_nat m) s1 = Ok (Return t, s').
Proof.
  revert i s. induction n as [|n IH]; intros i s H; [done|].
  simpl in H. unfold bind in H.
  destruct (body i s) as [[[|t1] s1]| |] eqn:Hb; [| |done..].
  - apply IH in H as (m & s2 & H). exists (S m), s2.
    by replace (i + step * Z.of_nat (S m)) with (i + step + step * Z.of_nat m) by lia.
  - unfold ret in H. injection H as -> ->. exists 0%nat, s.
    by replace (i + step * Z.of_nat 0) with i by lia.
Qed.

Lemma round_shape old N new M D s t s' :
  round old N new M (N - M) D s = Ok (Return t, s') ->
  fwd_shape N M D t \/ bwd_shape N M D t.
Proof.
  unfold round, bind. intros H.
  destruct (for_count _ _ 2 (fwd_iter old N new M (N - M) D) s)
    as [[[|t1] s1]| |] eqn:Hf; [| |done..].
  - apply for_count_returns in H as (m & s2 & H). right. by eapply bwd_iter_shape.
  - unfold ret in H. injection H as -> ->.
    apply for_count_returns in Hf as (m & s2 & H). left. by eapply fwd_iter_shape.
Qed.

Lemma search_shape old N new M s t s' :
  search old N new M s = Ok (Return t, s') ->
  exists D, 0 <= D /\ (fwd_shape N M D t \/ bwd_shape N M D t).
Proof.
  unfold search. intros H. apply for_count_returns in H as (m & s1 & H).
  apply round_shape in H. exists (0 + 1 * Z.of_nat m). split; [lia|done].
Qed.

Lemma FindMiddleSnake_shape old N new M s t s' :
  FindMiddleSnake old N new M s = Ok (t, s') ->
  t = (0, 0, 0, 0, 0) \/
  exists D, 0 <= D /\ (fwd_shape N M D t \/ bwd_shape N M D t).
Proof.
  unfold FindMiddleSnake, bind. intros H.
  destruct (setup (M + N) s) as [[[] s1]| |]; [|done..].
  destruct (search old N new M s1) as [[[|t1] s2]| |] eqn:Hs; [| |done..].
  - left. simpl in H. unfold ret in H. congruence.
  - right. simpl in H. unfold ret in H. injection H as -> ->. by eapply search_shape.
Qed.

(** ** The arrays are constructed once *)

Lemma stable_ret {A} (a : A) : stable (ret a).
Proof. intros s a' s' H. unfold ret in H. by injection H as _ ->. Qed.

Lemma stable_bind {A B} (m : comp A) (f : A -> comp B) :
  stable m -> (forall a, stable (f a)) -> stable (bind m f).
Proof.
  intros Hm Hf s b s' H w bd Hb. unfold bind in H.
  destruct (m s) as [[a s1]| |] eqn:Hms; [|done..].
  eapply Hf; [exact H|]. eapply Hm; [exact Hms|done].
Qed.

Lemma stable_rd w j : stable (rd w j).
Proof.
  intros s a s' H. unfold rd in H.
  destruct (sel w s) as [v|]; [|done]. destruct (V_get v j); [|done].
  by injection H as _ ->.
Qed.

Lemma stable_wr w j x : stable (wr w j x).
Proof.
  intros s a s' H w' b Hb. unfold wr in H.
  destruct (sel w s) as [v|] eqn:Hv; [|done].
  unfold V_set in H. destruct ((start_ v <=? j) && (j <=? end_ v)); [|done].
  injection H as _ <-. unfold bounds in *.
  destruct w, w'; simpl in *; rewrite ?Hv in Hb; done.
Qed.

Lemma stable_static_init w MAX : stable (static_init w MAX).
Proof.
  intros s a s' H w' b Hb. unfold static_init in H.
  destruct (sel w s) as [v|] eqn:Hv; [by injection H as _ <-|].
  destruct (V_new (- MAX) MAX); [|done]. injection H as _ <-.
  unfold bounds in *. destruct w, w'; simpl in *; rewrite ?Hv in Hb; done.
Qed.

Lemma stable_rd_seq l i : stable (rd_seq l i).
Proof. intros s a s' H. apply rd_seq_state in H as ->. done. Qed.

Lemma stable_for_count {R} n i step (body : Z -> comp (flow R)) :
  (forall j, stable (body j)) -> stable (for_count n i step body).
Proof.
  intros Hb. revert i. induction n as [|n IH]; intros i; simpl.
  - apply stable_ret.
  - apply stable_bind; [done|]. intros [|t]; [apply IH|apply stable_ret].
Qed.

Lemma stable_snake_fwd fuel old new N M x y :
  stable (snake_fwd fuel old new N M x y).
Proof.
  revert x y. induction fuel as [|fuel IH]; intros x y; [by intros s a s' H|].
  rewrite snake_fwd_S. destruct ((x <? N) && (y <? M)); [|apply stable_ret].
  apply stable_bind; [apply stable_rd_seq|]. intros c.
  apply stable_bind; [apply stable_rd_seq|]. intros c'.
  destruct (c =? c'); [apply IH|apply stable_ret].
Qed.

Lemma stable_snake_bwd fuel old new N M x y :
  stable (snake_bwd fuel old new N M x y).
Proof.
  revert x y. induction fuel as [|fuel IH]; intros x y; [by intros s a s' H|].
  rewrite snake_bwd_S. destruct ((x <? N) && (y <? M)); [|apply stable_ret].
  apply stable_bind; [apply stable_rd_seq|]. intros c.
  apply stable_bind; [apply stable_rd_seq|]. intros c'.
  destruct (c =? c'); [apply IH|apply stable_ret].
Qed.

Ltac stable_step :=
  first [ apply stable_ret | apply stable_rd | apply stable_wr
        | apply stable_rd_seq | apply stable_static_init
        | apply stable_snake_fwd | apply stable_snake_bwd
        | apply stable_bind; [|intros ?]
        | match goal with |- stable (if ?c then _ else _) => destruct c end
        | match goal with |- stable (let '(_, _) := ?p in _) => destruct p end ].

Lemma stable_pick w D k : stable (pick w D k).
Proof. unfold pick. repeat stable_step. Qed.

Lemma stable_fwd_iter old N new M Delta D k :
  stable (fwd_iter old N new M Delta D k).
Proof. unfold fwd_iter. repeat (stable_step || apply stable_pick). Qed.

Lemma stable_bwd_iter old N new M Delta D k :
  stable (bwd_iter old N new M Delta D k).
Proof. unfold bwd_iter. repeat (stable_step || apply stable_pick). Qed.

Lemma stable_round old N new M Delta D : stable (round old N new M Delta D).
Proof.
  unfold round. apply stable_bind.
  - apply stable_for_count. intros j. apply stable_fwd_iter.
  - intros [|t]; [|apply stable_ret].
    apply stable_for_count. intros j. apply stable_bwd_iter.
Qed.

(** Once the arrays exist, no call of [FindMiddleSnake] replaces or
    resizes them, whatever the lengths it is called with. *)
Lemma stable_FindMiddleSnake old N new M : stable (FindMiddleSnake old N new M).
Proof.
  unfold FindMiddleSnake, setup, search, finish. repeat stable_step.
  - apply stable_for_count. intros j. apply stable_round.
  - match goal with
    | |- stable (match ?r with Next => _ | Return _ => _ end) => destruct r
    end; apply stable_ret.
Qed.

Lemma rd_after_wr w j x s s' :
  wr w j x s = Ok (tt, s') -> rd w j s' = Ok (x, s').
Proof.
  unfold wr, rd. destruct (sel w s) as [v|]; [|done].
  unfold V_set. destruct ((start_ v <=? j) && (j <=? end_ v)) eqn:Hin; [|done].
  intros H. injection H as <-. rewrite sel_upd_same.
  unfold V_get. simpl. rewrite Hin, lookup_insert_eq. done.
Qed.

(** What decides that the graph is divided, and what it implies for the
    two parts. *)
Lemma middle_ok_divides a b D x y u v :
  middle_ok a b (D, x, y, u, v) ->
  (1 <? D) || (negb (x =? u) && negb (y =? v)) = true ->
  (0 <= x /\ 0 <= y /\ x + y < len a + len b) /\
  (0 <= len a - u /\ 0 <= len b - v /\
   (len a - u) + (len b - v) < len a + len b).
Proof.
  intros ((Hx & Hu) & (Hy & Hv) & Hdiag & Hrun & HD & Hsum & Hp & Hs & Htriv) Hc.
  pose proof (ed_le_sum (pre a x) (pre b y)) as Hle1.
  pose proof (ed_le_sum (suf a u) (suf b v)) as Hle2.
  rewrite !len_pre in Hle1 by lia. rewrite !len_suf in Hle2 by lia.
  apply orb_prop in Hc as [Hc|Hc].
  - apply Z.ltb_lt in Hc. lia.
  - apply andb_prop in Hc as [Hc _]. apply negb_true_iff, Z.eqb_neq in Hc. lia.
Qed.

(** ** Calls on arrays that an earlier call has sized *)

Lemma sized_cap c s : sized c s -> cap c s.
Proof.
  intros [Hf Hb]. unfold bounds in Hf, Hb. simpl in Hf, Hb.
  destruct (Vf s) as [vf|] eqn:Ef; [|done]. destruct (Vb s) as [vb|] eqn:Eb; [|done].
  injection Hf as Hf1 Hf2. injection Hb as Hb1 Hb2.
  exists vf, vb. unfold wide. split_and!; (done || lia).
Qed.

Lemma sized_stable {A} (m : comp A) c s a s' :
  stable m -> m s = Ok (a, s') -> sized c s -> sized c s'.
Proof. intros Hm Hrun [Hf Hb]. split; by eapply Hm. Qed.

Lemma stable_setup MAX : stable (setup MAX).
Proof. unfold setup. repeat stable_step. Qed.

Lemma stable_search old N new M : stable (search old N new M).
Proof. unfold search. apply stable_for_count. intros j. apply stable_round. Qed.

Lemma stable_ptr_add l u : stable (ptr_add l u).
Proof.
  unfold ptr_add. destruct ((0 <=? u) && (u <=? Z.of_nat (length l)));
    [apply stable_ret|by intros s a s' H].
Qed.

Lemma stable_emit n i seq base tag rtn : stable (emit n i seq base tag rtn).
Proof.
  revert i rtn. induction n as [|n IH]; intros i rtn; simpl; [apply stable_ret|].
  apply stable_bind; [apply stable_rd_seq|]. intros _. apply IH.
Qed.

(** Once the arrays exist, no call of [ShortestEditScript] replaces or
    resizes them. *)
Lemma stable_ShortestEditScript fuel old N new M cx cy :
  stable (ShortestEditScript fuel old N new M cx cy).
Proof.
  revert old N new M cx cy.
  induction fuel as [|fuel IH]; intros old N new M cx cy; [by intros s a s' H|].
  rewrite ShortestEditScript_S.
  destruct ((0 <? N) && (0 <? M)).
  - apply stable_bind; [apply stable_FindMiddleSnake|].
    intros [[[[D x] y] u] v].
    destruct ((1 <? D) || (negb (x =? u) && negb (y =? v))).
    + repeat (apply stable_bind; [first [apply IH|apply stable_ptr_add]|intros ?]).
      apply stable_ret.
    + destruct (N <? M); [|destruct (M <? N)].
      * repeat (apply stable_bind; [first [apply IH|apply stable_ptr_add]|intros ?]).
        apply stable_ret.
      * repeat (apply stable_bind; [first [apply IH|apply stable_ptr_add]|intros ?]).
        apply stable_ret.
      * apply stable_ret.
  - destruct (0 <? N); [apply stable_emit|].
    destruct (0 <? M); [apply stable_emit|apply stable_ret].
Qed.

Lemma bind_Ok {A B} (m : comp A) (f : A -> comp B) s b s' :
  bind m f s = Ok (b, s') -> exists a s1, m s = Ok (a, s1) /\ f a s1 = Ok (b, s').
Proof.
  unfold bind. destruct (m s) as [[a s1]| |]; [|done..]. intros H. by exists a, s1.
Qed.

Lemma static_init_sizes w MAX s u s' :
  sel w s = None -> static_init w MAX s = Ok (u, s') ->
  bounds w s' = Some (- MAX, MAX) /\
  forall w', w' <> w -> sel w' s' = sel w' s.
Proof.
  intros Hnone H. unfold static_init in H. rewrite Hnone in H.
  unfold V_new in H. destruct (MAX - - MAX + 1 <? 0); [done|].
  injection H as _ <-. split.
  - unfold bounds. by rewrite sel_upd_same.
  - intros w' Hne. by apply sel_upd_other.
Qed.

(** The first call constructs both arrays with the bounds
    [-(N + M) .. N + M]. *)
Lemma FindMiddleSnake_sizes old N new M s t s' :
  Vf s = None -> Vb s = None ->
  FindMiddleSnake old N new M s = Ok (t, s') -> sized (M + N) s'.
Proof.
  intros Hf Hb Hrun. unfold FindMiddleSnake in Hrun.
  apply bind_Ok in Hrun as (u & s1 & Hset & Hrest).
  unfold setup in Hset.
  apply bind_Ok in Hset as (u1 & sa & Ha & Hset).
  apply bind_Ok in Hset as (u2 & sb & Hb' & Hset).
  destruct (static_init_sizes Fwd (M + N) s u1 sa Hf Ha) as [Hbf Hother].
  destruct (static_init_sizes Bwd (M + N) sa u2 sb) as [Hbb _]; [|done|].
  { rewrite (Hother Bwd) by done. done. }
  assert (Hsb : sized (M + N) sb).
  { split; [|done]. by eapply stable_static_init. }
  assert (Hs1 : sized (M + N) s1).
  { eapply sized_stable; [|exact Hset|done]. repeat stable_step. }
  eapply sized_stable; [|exact Hrest|done].
  apply stable_bind; [apply stable_search|].
  intros [|t']; apply stable_ret.
Qed.

Lemma for_count_S {R} n i step (body : Z -> comp (flow R)) :
  for_count (S n) i step body
  = (r <- body i ;;
     match r with
     | Return t => ret (Return t)
     | Next => for_count n (i + step) step body
     end).
Proof. reflexivity. Qed.

(** A loop of [n1 + n2] iterations is its first [n1] iterations and, when
    these fall through, the [n2] others. *)
Lemma for_count_app {R} n1 n2 i step (body : Z -> comp (flow R)) s :
  for_count (n1 + n2) i step body s
  = match for_count n1 i step body s with
    | Ok (Next, s1) => for_count n2 (i + step * Z.of_nat n1) step body s1
    | other => other
    end.
Proof.
  revert i s. induction n1 as [|n1 IH]; intros i s.
  - simpl. unfold ret. f_equal. lia.
  - rewrite Nat.add_succ_l, !for_count_S. unfold bind.
    destruct (body i s) as [[[|t] s1]| |]; [|done..].
    rewrite IH. replace (i + step + step * Z.of_nat n1)
      with (i + step * Z.of_nat (S n1)) by lia. done.
Qed.

Lemma wr_outside w j x s lo hi :
  bounds w s = Some (lo, hi) -> j < lo \/ hi < j -> wr w j x s = Fault.
Proof.
  intros Hb Hj. unfold bounds in Hb. unfold wr, V_set.
  destruct (sel w s) as [v|]; [|done]. injection Hb as <- <-.
  destruct (Z.leb_spec (start_ v) j); destruct (Z.leb_spec j (end_ v)); (done || lia).
Qed.

Lemma round_result_distance a b D t :
  round_result a b D t -> t.1.1.1.1 = 2 * Z.of_nat D - 1 \/ t.1.1.1.1 = 2 * Z.of_nat D.
Proof. intros [(k & _ & ->)|(_ & k & _ & ->)]; [by left|by right]. Qed.

Lemma middle_ok_distance a b t : middle_ok a b t -> t.1.1.1.1 = ed a b.
Proof. destruct t as [[[[D x] y] u] v]. by intros (_ & _ & _ & _ & HD & _). Qed.

Section Overrun.
Variables (old new : list Z) (N M : Z).
Hypothesis HN : 0 <= N <= len old.
Hypothesis HM : 0 <= M <= len new.

Local Abbreviation a := (pre old N).
Local Abbreviation b := (pre new M).

(** On arrays with the bounds [-c .. c], the first [c + 1] rounds of a
    search over sequences more than [2c] apart all fall through. *)
Lemma rounds_fall_through (c : nat) s :
  cap (Z.of_nat c) s -> (1 <= c)%nat -> 2 * Z.of_nat c < ed a b ->
  ready Fwd a b 0 s -> ready Bwd (reverse a) (reverse b) 0 s ->
  exists s',
    for_count (S c) 0 1 (round old N new M (N - M)) s = Ok (Next, s') /\
    ready Fwd a b (S c) s'.
Proof.
  intros Hcap Hc Hfar Hf Hb.
  pose (I := fun (m : nat) (s1 : statics) =>
    keeps s s1 /\ ready Fwd a b m s1 /\ ready Bwd (reverse a) (reverse b) m s1 /\
    2 * Z.of_nat m <= ed a b + 1).
  pose (Q := fun (t : snake_tuple) (s1 : statics) => False).
  destruct (for_count_rule I Q (S c) 0 1 (round old N new M (N - M))) with (s := s)
    as (r & s' & Hrun & Hpost).
  - intros m s1 Hm (Hk1 & Hf1 & Hb1 & Hd1).
    replace (0 + 1 * Z.of_nat m) with (Z.of_nat m) by lia.
    destruct (round_spec old new N M HN HM m (Z.of_nat c) s1 (Hk1 _ Hcap)
                ltac:(lia) Hf1 Hb1 Hd1) as (r & s2 & Hr & Hk2 & Hp).
    exists r, s2. split; [done|]. destruct r as [|t].
    + destruct Hp as (Hf2 & Hb2 & Hd2 & _).
      split_and!; [by eapply keeps_trans|done|done|done].
    + destruct Hp as [Hok Hres]. unfold Q.
      apply middle_ok_distance in Hok. apply round_result_distance in Hres. lia.
  - split_and!; [apply keeps_refl|done|done|]. lia.
  - destruct r as [|t]; [|done]. exists s'. split; [done|]. apply Hpost.
Qed.

(** The next round begins with a write to [Vf[-(c + 1)]]. *)
Lemma round_overruns (c : nat) s :
  sized (Z.of_nat c) s -> ready Fwd a b (S c) s ->
  round old N new M (N - M) (Z.of_nat (S c)) s = Fault.
Proof.
  intros [Hbf _] Hf. unfold round.
  replace (Z.to_nat (Z.of_nat (S c) + 1)) with (S (S c)) by lia.
  rewrite for_count_S. unfold bind at 1 2.
  assert (L : lane (Z.of_nat (S c)) (- Z.of_nat (S c))) by (exists 0; lia).
  destruct (entry_fr_lb a b (S c) _ L) as [[Hx0 Hy0] _].
  assert (fwd_iter old N new M (N - M) (Z.of_nat (S c)) (- Z.of_nat (S c)) s = Fault)
    as ->; [|done].
  unfold fwd_iter, bind.
  rewrite (pick_spec Fwd s (before a b (S c)) (Z.of_nat (S c)) (- Z.of_nat (S c)));
    [|intros _; apply Hf; exists 0; lia|done].
  fold (entry a b (S c) (- Z.of_nat (S c))).
  rewrite (snake_fwd_spec old new N M HN HM) by lia.
  rewrite (wr_outside Fwd _ _ s (- Z.of_nat c) (Z.of_nat c)); [done|done|lia].
Qed.

(** A call on arrays with the bounds [-c .. c], for sequences more than
    [2c] apart, writes outside [Vf]. *)
Lemma FindMiddleSnake_overruns (c : nat) s :
  (1 <= c)%nat -> sized (Z.of_nat c) s -> 2 * Z.of_nat c < ed a b ->
  FindMiddleSnake old N new M s = Fault.
Proof.
  intros Hc Hsized Hfar.
  pose proof (ed_le_sum a b) as Hsum.
  rewrite (len_pre old N HN), (len_pre new M HM) in Hsum.
  destruct (setup_cap (M + N) (Z.of_nat c) s (sized_cap _ _ Hsized) ltac:(lia))
    as (s1 & Hset & Hcap1 & Hk1 & Hf & Hb).
  pose proof (sized_stable _ _ _ _ _ (stable_setup (M + N)) Hset Hsized) as Hsized1.
  destruct (rounds_fall_through c s1 Hcap1 Hc Hfar) as (s2 & Hrun & Hf2);
    [by intros j ->|by intros j ->|].
  assert (Hsized2 : sized (Z.of_nat c) s2).
  { eapply sized_stable; [|exact Hrun|done].
    apply stable_for_count. intros j. apply stable_round. }
  unfold FindMiddleSnake, bind. rewrite Hset.
  assert (search old N new M s1 = Fault) as ->; [|done].
  unfold search.
  assert (Hhalf : Z.of_nat c + 1 <= ceil_half (M + N)).
  { unfold ceil_half. apply Z.div_le_lower_bound; lia. }
  replace (Z.to_nat (ceil_half (M + N) + 1))
    with (S c + S (Z.to_nat (ceil_half (M + N)) - S c))%nat by lia.
  rewrite for_count_app, Hrun, for_count_S. unfold bind.
  replace (0 + 1 * Z.of_nat (S c)) with (Z.of_nat (S c)) by lia.
  by rewrite round_overruns.
Qed.
End Overrun.

(** A first call of [ShortestEditScript] on two non-empty sequences leaves
    arrays with the bounds [-(N + M) .. N + M]. *)
Lemma ShortestEditScript_sizes fuel old N new M cx cy s ops s' :
  Vf s = None -> Vb s = None -> 0 < N -> 0 < M ->
  ShortestEditScript fuel old N new M cx cy s = Ok (ops, s') ->
  sized (M + N) s'.
Proof.
  intros Hf Hb HN HM H. destruct fuel as [|fuel]; [done|].
  rewrite ShortestEditScript_S in H.
  destruct (Z.ltb_spec 0 N); [|lia]. destruct (Z.ltb_spec 0 M); [|lia].
  cbn [andb] in H. apply bind_Ok in H as (t & s1 & Hfms & Hrest).
  eapply sized_stable; [|exact Hrest|by eapply FindMiddleSnake_sizes].
  destruct t as [[[[D x] y] u] v].
  destruct ((1 <? D) || (negb (x =? u) && negb (y =? v))).
  - repeat (apply stable_bind;
            [first [apply stable_ShortestEditScript|apply stable_ptr_add]|intros ?]).
    apply stable_ret.
  - destruct (N <? M); [|destruct (M <? N)].
    + repeat (apply stable_bind;
              [first [apply stable_ShortestEditScript|apply stable_ptr_add]|intros ?]).
      apply stable_ret.
    + repeat (apply stable_bind;
              [first [apply stable_ShortestEditScript|apply stable_ptr_add]|intros ?]).
      apply stable_ret.
    + apply stable_ret.
Qed.

Lemma ShortestEditScript_overruns fuel old N new M cx cy (c : nat) s :
  0 < N <= len old -> 0 < M <= len new ->
  (1 <= c)%nat -> sized (Z.of_nat c) s ->
  2 * Z.of_nat c < ed (pre old N) (pre new M) ->
  ShortestEditScript (S fuel) old N new M cx cy s = Fault.
Proof.
  intros HN HM Hc Hsized Hfar. rewrite ShortestEditScript_S.
  destruct (Z.ltb_spec 0 N); [|lia]. destruct (Z.ltb_spec 0 M); [|lia].
  cbn [andb]. unfold bind.
  by rewrite (FindMiddleSnake_overruns old new N M ltac:(lia) ltac:(lia) c s).
Qed.

(** ** What a shortest script keeps *)

Lemma script_ok_kept a b cx cy ops :
  script_ok a b cx cy ops ->
  strike (positions "del" ops) cx a `sublist_of` a /\
  strike (positions "del" ops) cx a `sublist_of` b /\
  len (strike (positions "del" ops) cx a) = lcs a b /\
  len (positions "del" ops) = len a - lcs a b /\
  len (positions "add" ops) = len b - lcs a b.
Proof.
  intros (_ & _ & Heq & Hlen).
  pose proof (len_strike_ge (positions "del" ops) cx a) as H1.
  pose proof (len_strike_ge (positions "add" ops) cy b) as H2.
  pose proof (strike_sublist (positions "del" ops) cx a) as Hsa.
  pose proof (strike_sublist (positions "add" ops) cy b) as Hsb.
  rewrite <- Heq in Hsb, H2.
  pose proof (lcs_upper a b _ Hsa Hsb) as H3.
  pose proof (length_positions ops) as H4.
  unfold ed, len in *. split_and!; (done || lia).
Qed.

(** ** The display of [main] *)

Lemma old_column_app x y : old_column (x ++ y) = old_column x ++ old_column y.
Proof. induction x as [|[c|c|ca cb|] x IH]; simpl; by rewrite ?IH. Qed.

Lemma new_column_app x y : new_column (x ++ y) = new_column x ++ new_column y.
Proof. induction x as [|[c|c|ca cb|] x IH]; simpl; by rewrite ?IH. Qed.

Lemma column_Removed l :
  old_column (map Removed l) = l /\ new_column (map Removed l) = [].
Proof. induction l as [|c l [IH1 IH2]]; simpl; [done|]. by rewrite IH1, IH2. Qed.

Lemma column_Added l :
  old_column (map Added l) = [] /\ new_column (map Added l) = l.
Proof. induction l as [|c l [IH1 IH2]]; simpl; [done|]. by rewrite IH1, IH2. Qed.

Lemma walk_S fuel a b len_a len_b it i j :
  walk (S fuel) a b len_a len_b it i j
  = if (i <? len_a) && (j <? len_b) then
      if at_op it "add" j then
        c <- rd_seq b j ;;
        r <- walk fuel a b len_a len_b (tail it) i (j + 1) ;;
        let '(i', j', out) := r in
        ret (i', j', Added c :: Break :: out)
      else if at_op it "del" i then
        c <- rd_seq a i ;;
        r <- walk fuel a b len_a len_b (tail it) (i + 1) j ;;
        let '(i', j', out) := r in
        ret (i', j', Removed c :: Break :: out)
      else
        ca <- rd_seq a i ;;
        cb <- rd_seq b j ;;
        r <- walk fuel a b len_a len_b it (i + 1) (j + 1) ;;
        let '(i', j', out) := r in
        ret (i', j', Same ca cb :: Break :: out)
    else ret (i, j, []).
Proof. reflexivity. Qed.

(** The loop of lines 230-253 stops at the end of one of the arrays, and
    what it has printed by then are the elements that it has passed. *)
Lemma walk_spec fuel a b :
  forall it i j s,
    0 <= i <= len a -> 0 <= j <= len b ->
    (len a - i) + (len b - j) < Z.of_nat fuel ->
    exists i' j' out,
      walk fuel a b (len a) (len b) it i j s = Ok ((i', j', out), s) /\
      i <= i' <= len a /\ j <= j' <= len b /\ (i' = len a \/ j' = len b) /\
      old_column out ++ suf a i' = suf a i /\
      new_column out ++ suf b j' = suf b j.
Proof.
  induction fuel as [|fuel IH]; intros it i j s Hi Hj Hfuel; [lia|].
  rewrite walk_S.
  destruct (Z.ltb_spec i (len a)) as [Hia|Hia];
    [destruct (Z.ltb_spec j (len b)) as [Hjb|Hjb]|]; cbn [andb].
  - destruct (lookup_lt_len a i) as [ca Hca]; [lia|].
    destruct (lookup_lt_len b j) as [cb Hcb]; [lia|].
    destruct (at_op it "add" j); [|destruct (at_op it "del" i)].
    + destruct (IH (tail it) i (j + 1) s) as (i' & j' & out & Hw & Hi' & Hj' & He & Ho & Hn);
        [lia|lia|lia|].
      unfold bind. rewrite (rd_seq_ok b j cb), Hw by (done || lia).
      exists i', j', (Added cb :: Break :: out).
      do 4 (split; [done || lia|]). split; [done|].
      simpl. rewrite Hn. symmetry. apply suf_succ; [lia|done].
    + destruct (IH (tail it) (i + 1) j s) as (i' & j' & out & Hw & Hi' & Hj' & He & Ho & Hn);
        [lia|lia|lia|].
      unfold bind. rewrite (rd_seq_ok a i ca), Hw by (done || lia).
      exists i', j', (Removed ca :: Break :: out).
      do 4 (split; [done || lia|]). split; [|done].
      simpl. rewrite Ho. symmetry. apply suf_succ; [lia|done].
    + destruct (IH it (i + 1) (j + 1) s) as (i' & j' & out & Hw & Hi' & Hj' & He & Ho & Hn);
        [lia|lia|lia|].
      unfold bind. rewrite (rd_seq_ok a i ca), (rd_seq_ok b j cb), Hw by (done || lia).
      exists i', j', (Same ca cb :: Break :: out).
      do 4 (split; [done || lia|]). split.
      * simpl. rewrite Ho. symmetry. apply suf_succ; [lia|done].
      * simpl. rewrite Hn. symmetry. apply suf_succ; [lia|done].
  - exists i, j, []. do 3 (split; [done || lia|]). split; [right; lia|done].
  - exists i, j, []. do 3 (split; [done || lia|]). split; [left; lia|done].
Qed.

Lemma leftover_spec (n : nat) seq i print s :
  0 <= i -> len seq - i = Z.of_nat n ->
  leftover n seq i print s = Ok (map print (suf seq i), s).
Proof.
  revert i. induction n as [|n IH]; intros i Hi Hn; simpl.
  - rewrite suf_all by lia. done.
  - destruct (lookup_lt_len seq i) as [c Hc]; [lia|].
    unfold bind. rewrite (rd_seq_ok seq i c), IH by (done || lia).
    rewrite (suf_succ seq i c) by done. done.
Qed.

Lemma display_spec fuel a b result s :
  len a + len b < Z.of_nat fuel ->
  exists out,
    display fuel a b result s = Ok (out, s) /\
    old_column out = a /\ new_column out = b.
Proof.
  intros Hfuel. unfold display. fold (len a) (len b).
  pose proof (len_nonneg a). pose proof (len_nonneg b).
  destruct (walk_spec fuel a b result 0 0 s)
    as (i & j & out & Hw & Hi & Hj & He & Ho & Hn); [lia|lia|lia|].
  unfold bind. rewrite Hw.
  rewrite (leftover_spec _ a i Removed s), (leftover_spec _ b j Added s) by lia.
  eexists. split; [done|].
  rewrite !old_column_app, !new_column_app.
  destruct (column_Removed (suf a i)) as [-> ->].
  destruct (column_Added (suf b j)) as [-> ->].
  rewrite app_nil_r, app_nil_l, Ho, Hn, !suf_0. done.
Qed.

(** ** Swapping the two sequences *)

Lemma lcs_sym s t : lcs s t = lcs t s.
Proof.
  destruct (lcs_witness s t) as (w & Hs & Ht & Hw).
  destruct (lcs_witness t s) as (w' & Ht' & Hs' & Hw').
  pose proof (lcs_upper t s w Ht Hs). pose proof (lcs_upper s t w' Hs' Ht'). lia.
Qed.

Lemma ed_sym s t : ed s t = ed t s.
Proof. unfold ed. rewrite (lcs_sym s t). lia. Qed.

(** ** The order of the operations *)

Lemma pair_lt_key p q : tagged p -> tagged q -> pair_lt p q = (key p <? key q).
Proof.
  destruct p as [p t], q as [q u]. unfold tagged, pair_lt, key. simpl.
  intros [->| ->] [->| ->]; simpl;
    destruct (Z.ltb_spec p q); destruct (Z.eqb_spec p q); simpl;
    symmetry; first [apply Z.ltb_lt; lia|apply Z.ltb_ge; lia].
Qed.

Lemma ms_insert_tagged p l : tagged p -> Forall tagged l -> Forall tagged (ms_insert p l).
Proof. intros Hp Hl. rewrite ms_insert_perm. by constructor. Qed.

Lemma ms_insert_ascending p l :
  tagged p -> Forall tagged l -> ascending l -> ascending (ms_insert p l).
Proof.
  intros Hp Hl Hs. induction Hs as [|q l Hs IH Hq]; simpl.
  - repeat constructor.
  - apply Forall_cons in Hl as [Htq Hl].
    rewrite pair_lt_key by done. destruct (Z.ltb_spec (key p) (key q)) as [Hlt|Hge].
    + constructor; [by constructor|]. constructor; [lia|].
      eapply Forall_impl; [exact Hq|]. intros y Hy. simpl in Hy. lia.
    + constructor; [by apply IH|]. rewrite ms_insert_perm. by constructor.
Qed.

Lemma ms_insert_range_ascending l r :
  Forall tagged l -> Forall tagged r -> ascending l ->
  ascending (ms_insert_range l r) /\ Forall tagged (ms_insert_range l r).
Proof.
  unfold ms_insert_range. revert l.
  induction r as [|p r IH]; intros l Hl Hr Hs; simpl; [done|].
  apply Forall_cons in Hr as [Hp Hr].
  apply IH; [by apply ms_insert_tagged|done|by apply ms_insert_ascending].
Qed.

Lemma emit_ascending n i seq base tag rtn s r s' :
  tag = "add"%string \/ tag = "del"%string ->
  Forall tagged rtn -> ascending rtn ->
  emit n i seq base tag rtn s = Ok (r, s') ->
  ascending r /\ Forall tagged r.
Proof.
  intros Htag. revert i rtn s.
  induction n as [|n IH]; intros i rtn s Ht Hs Hrun; simpl in Hrun.
  - unfold ret in Hrun. by injection Hrun as <- _.
  - apply bind_Ok in Hrun as (c & s1 & _ & Hrun).
    assert (Hp : tagged (base + i, tag)) by exact Htag.
    apply (IH _ _ _ (ms_insert_tagged _ _ Hp Ht)
             (ms_insert_ascending _ _ Hp Ht Hs) Hrun).
Qed.

(** The operations come in ascending order, from whatever store and for
    whatever arguments the call returns. *)
Lemma ShortestEditScript_ascending fuel :
  forall old N new M cx cy s ops s',
    ShortestEditScript fuel old N new M cx cy s = Ok (ops, s') ->
    ascending ops /\ Forall tagged ops.
Proof.
  assert (Hnil : ascending [] /\ Forall tagged []) by (split; constructor).
  induction fuel as [|fuel IH]; intros old N new M cx cy s ops s' Hrun; [done|].
  rewrite ShortestEditScript_S in Hrun.
  destruct ((0 <? N) && (0 <? M)).
  - apply bind_Ok in Hrun as ([[[[D x] y] u] v] & s1 & _ & Hrun).
    destruct ((1 <? D) || (negb (x =? u) && negb (y =? v))).
    + apply bind_Ok in Hrun as (r1 & s2 & H1 & Hrun).
      apply bind_Ok in Hrun as (old' & s3 & _ & Hrun).
      apply bind_Ok in Hrun as (new' & s4 & _ & Hrun).
      apply bind_Ok in Hrun as (r2 & s5 & H2 & Hrun).
      unfold ret in Hrun. injection Hrun as <- _.
      apply IH in H1 as [_ Ht1]. apply IH in H2 as [_ Ht2].
      destruct (ms_insert_range_ascending [] r1) as [Ha Hb]; [done|done|apply Hnil|].
      by apply ms_insert_range_ascending.
    + destruct (N <? M); [|destruct (M <? N)].
      * apply bind_Ok in Hrun as (old' & s3 & _ & Hrun).
        apply bind_Ok in Hrun as (new' & s4 & _ & Hrun).
        apply bind_Ok in Hrun as (r2 & s5 & H2 & Hrun).
        unfold ret in Hrun. injection Hrun as <- _.
        apply IH in H2 as [_ Ht2].
        apply ms_insert_range_ascending; [done|done|apply Hnil].
      * apply bind_Ok in Hrun as (old' & s3 & _ & Hrun).
        apply bind_Ok in Hrun as (new' & s4 & _ & Hrun).
        apply bind_Ok in Hrun as (r2 & s5 & H2 & Hrun).
        unfold ret in Hrun. injection Hrun as <- _.
        apply IH in H2 as [_ Ht2].
        apply ms_insert_range_ascending; [done|done|apply Hnil].
      * unfold ret in Hrun. by injection Hrun as <- _.
  - destruct (0 <? N); [|destruct (0 <? M)].
    + eapply emit_ascending; [by right|constructor|constructor|exact Hrun].
    + eapply emit_ascending; [by left|constructor|constructor|exact Hrun].
    + unfold ret in Hrun. by injection Hrun as <- _.
Qed.

Lemma ascending_pair_lt ops :
  ascending ops -> Forall tagged ops ->
  StronglySorted (fun p q => pair_lt q p = false) ops /\
  StronglySorted (fun p q => p.1 <= q.1) ops.
Proof.
  intros Hs. induction Hs as [|p l Hs IH Hp]; intros Ht; [split; constructor|].
  apply Forall_cons in Ht as [Htp Ht]. destruct (IH Ht) as [IH1 IH2].
  split; (constructor; [done|]).
  - apply Forall_forall. intros q Hq.
    rewrite (pair_lt_key q p); [|by eapply Forall_forall in Ht|done].
    apply Z.ltb_ge. by eapply Forall_forall in Hp.
  - apply Forall_forall. intros q Hq.
    pose proof (proj1 (Forall_forall _ _) Hp q Hq) as Hle. simpl in Hle.
    unfold key in Hle.
    destruct (String.eqb p.2 "add"); destruct (String.eqb q.2 "add"); lia.
Qed.

(** ** The two offsets *)

Lemma span_shift_del base dx dy n :
  span (base + dx) n "del" = map (shift dx dy) (span base n "del").
Proof.
  unfold span. rewrite map_map. apply map_ext. intros i.
  unfold shift. simpl. f_equal. lia.
Qed.

Lemma span_shift_add base dx dy n :
  span (base + dy) n "add" = map (shift dx dy) (span base n "add").
Proof.
  unfold span. rewrite map_map. apply map_ext. intros i.
  unfold shift. simpl. f_equal. lia.
Qed.

Lemma shift_join dx dy (p1 p2 q1 q2 : Diff) :
  p1 ≡ₚ map (shift dx dy) p2 -> q1 ≡ₚ map (shift dx dy) q2 ->
  ms_insert_range (ms_insert_range [] p1) q1
  ≡ₚ map (shift dx dy) (ms_insert_range (ms_insert_range [] p2) q2).
Proof.
  intros Hp Hq.
  assert (H2 : ms_insert_range (ms_insert_range [] p2) q2 ≡ₚ q2 ++ p2)
    by (by rewrite !ms_insert_range_perm, app_nil_r).
  rewrite (Permutation_map (shift dx dy) H2), map_app.
  rewrite !ms_insert_range_perm, app_nil_r. by rewrite Hp, Hq.
Qed.

Lemma shift_single dx dy (q1 q2 : Diff) :
  q1 ≡ₚ map (shift dx dy) q2 ->
  ms_insert_range [] q1 ≡ₚ map (shift dx dy) (ms_insert_range [] q2).
Proof.
  intros Hq.
  assert (H2 : ms_insert_range [] q2 ≡ₚ q2)
    by (by rewrite ms_insert_range_perm, app_nil_r).
  rewrite (Permutation_map (shift dx dy) H2).
  by rewrite ms_insert_range_perm, app_nil_r.
Qed.

(** The script for the offsets [cx + dx] and [cy + dy] is the script for
    [cx] and [cy] with every deletion moved by [dx] and every insertion
    by [dy]. *)
Lemma ShortestEditScript_shift fuel1 :
  forall fuel2 old N new M cx cy dx dy s1 s2 ops1 ops2 s1' s2',
    0 <= N <= len old -> 0 <= M <= len new ->
    N + M < Z.of_nat fuel1 -> N + M < Z.of_nat fuel2 ->
    fits (ed (pre old N) (pre new M)) s1 ->
    fits (ed (pre old N) (pre new M)) s2 ->
    ShortestEditScript fuel1 old N new M (cx + dx) (cy + dy) s1 = Ok (ops1, s1') ->
    ShortestEditScript fuel2 old N new M cx cy s2 = Ok (ops2, s2') ->
    ops1 ≡ₚ map (shift dx dy) ops2.
Proof.
  induction fuel1 as [|fuel1 IH];
    intros fuel2 old N new M cx cy dx dy s1 s2 ops1 ops2 s1' s2'
           HN HM Hfuel1 Hfuel2 Hf1 Hf2; [lia|].
  destruct fuel2 as [|fuel2]; [lia|].
  rewrite !ShortestEditScript_S.
  destruct (Z.ltb_spec 0 N) as [HN0|HN0]; destruct (Z.ltb_spec 0 M) as [HM0|HM0];
    cbn [andb].
  - destruct (FindMiddleSnake_fits old new N M HN HM s1 ltac:(lia) Hf1)
      as (t & s1a & Hfms1 & Hok & _ & Hcap1 & Hk1).
    destruct (FindMiddleSnake_fits old new N M HN HM s2 ltac:(lia) Hf2)
      as (t' & s2a & Hfms2 & _ & _ & Hcap2 & Hk2).
    assert (t = t') as <-.
    { by eapply (FindMiddleSnake_agree old old new new N M s1 s2);
        [done|done|done|done|done|done|lia|done|done|apply Hfms1|apply Hfms2]. }
    unfold bind. rewrite Hfms1, Hfms2.
    destruct t as [[[[D x] y] u] v]. cbv beta iota.
    pose proof (middle_ok_parts _ _ _ _ _ _ _ Hok) as [Hpart1 Hpart2].
    destruct Hok as ((Hx & Hu) & (Hy & Hv) & Hdiag & Hrun & HD & Hsum & Hp & Hs & Htriv).
    rewrite (len_pre old N), (len_pre new M) in * by done.
    pose proof (ed_le_sum (pre (pre old N) x) (pre (pre new M) y)) as Hle1.
    pose proof (ed_le_sum (suf (pre old N) u) (suf (pre new M) v)) as Hle2.
    rewrite !len_pre in Hle1 by (rewrite ?len_pre; lia).
    rewrite !len_suf in Hle2 by (rewrite ?len_pre; lia).
    rewrite (len_pre old N), (len_pre new M) in * by done.
    destruct ((1 <? D) || (negb (x =? u) && negb (y =? v))) eqn:Hc.
    + assert (Hlt : x + y < N + M /\ (N - u) + (M - v) < N + M).
      { apply orb_prop in Hc as [Hc|Hc].
        - apply Z.ltb_lt in Hc. lia.
        - apply andb_prop in Hc as [Hc _]. apply negb_true_iff, Z.eqb_neq in Hc. lia. }
      rewrite (pre_of_pre old N x), (pre_of_pre new M y) in Hpart1 by lia.
      rewrite <- (pre_of_suf old N u), <- (pre_of_suf new M v) in Hpart2 by lia.
      assert (Hfa : fits (ed (pre old x) (pre new y)) s1a)
        by (eapply fits_le, fits_keeps; [exact Hpart1|exact Hcap1|apply keeps_refl]).
      assert (Hfb : fits (ed (pre old x) (pre new y)) s2a)
        by (eapply fits_le, fits_keeps; [exact Hpart1|exact Hcap2|apply keeps_refl]).
      destruct (ShortestEditScript_fits fuel1 old x new y (cx + dx) (cy + dy) s1a)
        as (p1 & s1b & Hp1 & _ & _ & Hk1b); [lia|lia|lia|done|].
      destruct (ShortestEditScript_fits fuel2 old x new y cx cy s2a)
        as (p2 & s2b & Hp2 & _ & _ & Hk2b); [lia|lia|lia|done|].
      assert (Hpp : p1 ≡ₚ map (shift dx dy) p2).
      { by eapply (IH fuel2 old x new y cx cy dx dy s1a s2a);
          [lia|lia|lia|lia|done|done|apply Hp1|apply Hp2]. }
      assert (Hfc : fits (ed (pre (suf old u) (N - u)) (pre (suf new v) (M - v))) s1b)
        by (eapply fits_le, fits_keeps; [exact Hpart2|exact Hcap1|exact Hk1b]).
      assert (Hfd : fits (ed (pre (suf old u) (N - u)) (pre (suf new v) (M - v))) s2b)
        by (eapply fits_le, fits_keeps; [exact Hpart2|exact Hcap2|exact Hk2b]).
      replace (cx + dx + u) with (cx + u + dx) by lia.
      replace (cy + dy + v) with (cy + v + dy) by lia.
      destruct (ShortestEditScript_fits fuel1 (suf old u) (N - u) (suf new v) (M - v)
                  (cx + u + dx) (cy + v + dy) s1b)
        as (q1 & s1c & Hq1 & _); [rewrite len_suf; lia|rewrite len_suf; lia|lia|done|].
      destruct (ShortestEditScript_fits fuel2 (suf old u) (N - u) (suf new v) (M - v)
                  (cx + u) (cy + v) s2b)
        as (q2 & s2c & Hq2 & _); [rewrite len_suf; lia|rewrite len_suf; lia|lia|done|].
      assert (Hqq : q1 ≡ₚ map (shift dx dy) q2).
      { by eapply (IH fuel2 (suf old u) (N - u) (suf new v) (M - v)
                     (cx + u) (cy + v) dx dy s1b s2b);
          [rewrite len_suf; lia|rewrite len_suf; lia|lia|lia|done|done
          |apply Hq1|apply Hq2]. }
      rewrite Hp1, Hp2.
      rewrite !(ptr_add_ok old u), !(ptr_add_ok new v) by lia.
      rewrite Hq1, Hq2. unfold ret. cbv beta iota.
      intros H1 H2. injection H1 as <- _. injection H2 as <- _.
      by apply shift_join.
    + apply orb_false_elim in Hc as [Hc1 Hc2]. apply Z.ltb_ge in Hc1.
      destruct (Z.ltb_spec N M) as [HNM|HNM]; [|destruct (Z.ltb_spec M N) as [HMN|HMN]].
      * assert (Hfc : fits (ed (pre (suf old N) (N - N)) (pre (suf new N) (M - N))) s1a).
        { eapply fits_le, fits_keeps;
            [apply ed_tail_l; (done || lia)|exact Hcap1|apply keeps_refl]. }
        assert (Hfd : fits (ed (pre (suf old N) (N - N)) (pre (suf new N) (M - N))) s2a).
        { eapply fits_le, fits_keeps;
            [apply ed_tail_l; (done || lia)|exact Hcap2|apply keeps_refl]. }
        replace (cx + dx + N) with (cx + N + dx) by lia.
        replace (cy + dy + N) with (cy + N + dy) by lia.
        destruct (ShortestEditScript_fits fuel1 (suf old N) (N - N) (suf new N) (M - N)
                    (cx + N + dx) (cy + N + dy) s1a)
          as (q1 & s1c & Hq1 & _); [rewrite len_suf; lia|rewrite len_suf; lia|lia|done|].
        destruct (ShortestEditScript_fits fuel2 (suf old N) (N - N) (suf new N) (M - N)
                    (cx + N) (cy + N) s2a)
          as (q2 & s2c & Hq2 & _); [rewrite len_suf; lia|rewrite len_suf; lia|lia|done|].
        assert (Hqq : q1 ≡ₚ map (shift dx dy) q2).
        { by eapply (IH fuel2 (suf old N) (N - N) (suf new N) (M - N)
                       (cx + N) (cy + N) dx dy s1a s2a);
            [rewrite len_suf; lia|rewrite len_suf; lia|lia|lia|done|done
            |apply Hq1|apply Hq2]. }
        rewrite !(ptr_add_ok old N), !(ptr_add_ok new N) by lia.
        rewrite Hq1, Hq2. unfold ret. cbv beta iota.
        intros H1 H2. injection H1 as <- _. injection H2 as <- _.
        by apply shift_single.
      * assert (Hfc : fits (ed (pre (suf old M) (N - M)) (pre (suf new M) (M - M))) s1a).
        { eapply fits_le, fits_keeps;
            [apply ed_tail_r; (done || lia)|exact Hcap1|apply keeps_refl]. }
        assert (Hfd : fits (ed (pre (suf old M) (N - M)) (pre (suf new M) (M - M))) s2a).
        { eapply fits_le, fits_keeps;
            [apply ed_tail_r; (done || lia)|exact Hcap2|apply keeps_refl]. }
        replace (cx + dx + M) with (cx + M + dx) by lia.
        replace (cy + dy + M) with (cy + M + dy) by lia.
        destruct (ShortestEditScript_fits fuel1 (suf old M) (N - M) (suf new M) (M - M)
                    (cx + M + dx) (cy + M + dy) s1a)
          as (q1 & s1c & Hq1 & _); [rewrite len_suf; lia|rewrite len_suf; lia|lia|done|].
        destruct (ShortestEditScript_fits fuel2 (suf old M) (N - M) (suf new M) (M - M)
                    (cx + M) (cy + M) s2a)
          as (q2 & s2c & Hq2 & _); [rewrite len_suf; lia|rewrite len_suf; lia|lia|done|].
        assert (Hqq : q1 ≡ₚ map (shift dx dy) q2).
        { by eapply (IH fuel2 (suf old M) (N - M) (suf new M) (M - M)
                       (cx + M) (cy + M) dx dy s1a s2a);
            [rewrite len_suf; lia|rewrite len_suf; lia|lia|lia|done|done
            |apply Hq1|apply Hq2]. }
        rewrite !(ptr_add_ok old M), !(ptr_add_ok new M) by lia.
        rewrite Hq1, Hq2. unfold ret. cbv beta iota.
        intros H1 H2. injection H1 as <- _. injection H2 as <- _.
        by apply shift_single.
      * unfold ret. intros H1 H2. injection H1 as <- _. injection H2 as <- _. done.
  - destruct (Z.ltb_spec 0 N); [|lia].
    pose proof (emit_spec (Z.to_nat N) 0 old (cx + dx) "del" s1 ltac:(lia)) as He1.
    pose proof (emit_spec (Z.to_nat N) 0 old cx "del" s2 ltac:(lia)) as He2.
    change (span (cx + dx) 0 "del") with (@nil (Z * string)) in He1.
    change (span cx 0 "del") with (@nil (Z * string)) in He2.
    change (Z.of_nat 0) with 0 in He1, He2. rewrite He1, He2.
    intros H1 H2. injection H1 as <- _. injection H2 as <- _.
    by rewrite (span_shift_del cx dx dy).
  - destruct (Z.ltb_spec 0 N); [lia|]. destruct (Z.ltb_spec 0 M); [|lia].
    pose proof (emit_spec (Z.to_nat M) 0 new (cy + dy) "add" s1 ltac:(lia)) as He1.
    pose proof (emit_spec (Z.to_nat M) 0 new cy "add" s2 ltac:(lia)) as He2.
    change (span (cy + dy) 0 "add") with (@nil (Z * string)) in He1.
    change (span cy 0 "add") with (@nil (Z * string)) in He2.
    change (Z.of_nat 0) with 0 in He1, He2. rewrite He1, He2.
    intros H1 H2. injection H1 as <- _. injection H2 as <- _.
    by rewrite (span_shift_add cy dx dy).
  - destruct (Z.ltb_spec 0 N); [lia|]. destruct (Z.ltb_spec 0 M); [lia|].
    unfold ret. intros H1 H2. injection H1 as <- _. injection H2 as <- _. done.
Qed.

(** ** A run that returns, returns the same on wider arrays *)


#[local] Instance add_inj (c : Z) : Inj (=) (=) (fun k : Z => k + c).
Proof. intros x y H. lia. Qed.






















(** * Part IV: the claims *)

Lemma room_fresh n : room n fresh.
Proof. by left. Qed.

Lemma diff_spec (A B : list Z) (fuel : nat) (s : statics) :
  len A + len B < Z.of_nat fuel -> room (len A + len B) s ->
  exists ops s', diff fuel A B s = Ok (ops, s') /\ script_ok A B 0 0 ops.
Proof.
  intros Hfuel Hroom. unfold diff. fold (len A) (len B).
  destruct (ShortestEditScript_spec fuel A (len A) B (len B) 0 0 s)
    as (ops & s' & H & Hok & _); [pose proof (len_nonneg A); lia
                                 |pose proof (len_nonneg B); lia|done|done|].
  rewrite !pre_all in Hok by lia. by exists ops, s'.
Qed.

(** While the static arrays are wide enough, the script is a function of
    the two sequences alone: two calls with the same sequences, started in
    any two such stores, return the same operations in the same order. *)
Lemma diff_store_independent (A B : list Z) (fuel : nat) (s1 s2 : statics) :
  len A + len B < Z.of_nat fuel ->
  room (len A + len B) s1 -> room (len A + len B) s2 ->
  exists ops s1' s2',
    diff fuel A B s1 = Ok (ops, s1') /\ diff fuel A B s2 = Ok (ops, s2').
Proof.
  intros Hfuel Hr1 Hr2.
  destruct (diff_spec A B fuel s1 Hfuel Hr1) as (ops1 & s1' & H1 & _).
  destruct (diff_spec A B fuel s2 Hfuel Hr2) as (ops2 & s2' & H2 & _).
  assert (ops1 = ops2) as <-; [|by exists ops1, s1', s2'].
  unfold diff in H1, H2. fold (len A) (len B) in H1, H2.
  pose proof (len_nonneg A). pose proof (len_nonneg B).
  by eapply (ShortestEditScript_store_independent fuel A (len A) B (len B) 0 0 s1 s2);
    [lia|lia|done|done|done|apply H1|apply H2].
Qed.

(** A later call, on arrays that the first call has made too small: the
    search of [{1, 2, 3}] and [{4, 5, 6}] on arrays with the bounds
    [-2 .. 2] writes [Vf[-3]], whatever the recursion budget. *)
Lemma small_arrays_overrun (s1 : statics) :
  FindMiddleSnake [1; 2; 3] 3 [4; 5; 6] 3 s1 = Fault ->
  forall fuel, diff (S fuel) [1; 2; 3] [4; 5; 6] s1 = Fault.
Proof.
  intros Hfms fuel. unfold diff. change (Z.of_nat (length [1; 2; 3])) with 3.
  change (Z.of_nat (length [4; 5; 6])) with 3.
  rewrite ShortestEditScript_S. cbn [Z.ltb Z.compare andb].
  unfold bind. by rewrite Hfms.
Qed.

(** C1, the program at a later call.  In a new process the script of
    [{1, 2, 3}] and [{4, 5, 6}] rebuilds [{4, 5, 6}]; in a process that
    has computed the script of [{1}] and [{2}] before, the same call
    returns no script: its search writes outside the static arrays. *)
Theorem reconstruction_fails_after_smaller_call :
  (exists ops s',
     diff 7 [1; 2; 3] [4; 5; 6] fresh = Ok (ops, s') /\
     apply_script [1; 2; 3] [4; 5; 6] ops = [4; 5; 6]) /\
  (exists ops1 s1,
     diff 3 [1] [2] fresh = Ok (ops1, s1) /\
     apply_script [1] [2] ops1 = [2] /\
     forall fuel, diff (S fuel) [1; 2; 3] [4; 5; 6] s1 = Fault).
Proof.
  split.
  - eexists _, _. split; [vm_compute; reflexivity|]. vm_compute. reflexivity.
  - eexists _, _. split; [vm_compute; reflexivity|].
    split; [vm_compute; reflexivity|].
    apply small_arrays_overrun. vm_compute. reflexivity.
Qed.

(** C2, the program at a later call.  In a new process the script of
    [{1, 2, 3}] and [{4, 5, 6}] has [3 + 3 - 2 * LCS = 6] operations; in a
    process that has computed the script of [{1}] and [{2}] before, the
    same call returns no multiset whose operations could be counted. *)
Theorem minimality_fails_after_smaller_call :
  (exists ops s',
     diff 7 [1; 2; 3] [4; 5; 6] fresh = Ok (ops, s') /\
     Z.of_nat (length ops)
     = len [1; 2; 3] + len [4; 5; 6] - 2 * lcs [1; 2; 3] [4; 5; 6] /\
     length ops = 6%nat) /\
  (exists ops1 s1,
     diff 3 [1] [2] fresh = Ok (ops1, s1) /\
     Z.of_nat (length ops1) = len [1] + len [2] - 2 * lcs [1] [2] /\
     forall fuel, diff (S fuel) [1; 2; 3] [4; 5; 6] s1 = Fault).
Proof.
  split.
  - eexists _, _. split; [vm_compute; reflexivity|].
    split; vm_compute; reflexivity.
  - eexists _, _. split; [vm_compute; reflexivity|].
    split; [vm_compute; reflexivity|].
    apply small_arrays_overrun. vm_compute. reflexivity.
Qed.



(** C4, the program at a second call.  After a call with [N + M = 2] both
    arrays have the bounds [-2 .. 2]; a second call, with [N + M = 3], runs
    on the same arrays, which keep those bounds; and a call with
    [N + M = 6] writes outside them. *)
Theorem second_call_reuses_arrays :
  exists t1 s1 t2 s2,
    FindMiddleSnake [1] 1 [2] 1 fresh = Ok (t1, s1) /\
    bounds Fwd s1 = Some (-2, 2) /\ bounds Bwd s1 = Some (-2, 2) /\
    FindMiddleSnake [1; 2] 2 [3] 1 s1 = Ok (t2, s2) /\
    bounds Fwd s2 = Some (-2, 2) /\ bounds Bwd s2 = Some (-2, 2) /\
    FindMiddleSnake [1; 2; 3] 3 [4; 5; 6] 3 s1 = Fault.
Proof.
  eexists _, _, _, _. split; [vm_compute; reflexivity|].
  split; [vm_compute; reflexivity|]. split; [vm_compute; reflexivity|].
  split; [vm_compute; reflexivity|].
  split; [vm_compute; reflexivity|]. split; [vm_compute; reflexivity|].
  vm_compute. reflexivity.
Qed.

(** The function returns what an iteration of the first inner loop
    returns: round [D] is reached after the rounds before it have fallen
    through, and diagonal [k = -D + 2m] after the [m] diagonals before
    it. *)
Lemma fwd_return_is_the_result (old new : list Z) (N M : Z) (D m : nat)
  (s s1 sD sk s3 : statics) (t : snake_tuple) :
  (D < Z.to_nat (ceil_half (M + N) + 1))%nat -> (m <= D)%nat ->
  setup (M + N) s = Ok (tt, s1) ->
  for_count D 0 1 (round old N new M (N - M)) s1 = Ok (Next, sD) ->
  for_count m (- Z.of_nat D) 2 (fwd_iter old N new M (N - M) (Z.of_nat D)) sD
  = Ok (Next, sk) ->
  fwd_iter old N new M (N - M) (Z.of_nat D) (- Z.of_nat D + 2 * Z.of_nat m) sk
  = Ok (Return t, s3) ->
  FindMiddleSnake old N new M s = Ok (t, s3).
Proof.
  intros HD Hm Hset Hrounds Hlanes Hit.
  unfold FindMiddleSnake, bind. rewrite Hset. unfold search.
  replace (Z.to_nat (ceil_half (M + N) + 1))
    with (D + S (Z.to_nat (ceil_half (M + N) + 1) - S D))%nat by lia.
  rewrite for_count_app, Hrounds, for_count_S. unfold bind.
  replace (0 + 1 * Z.of_nat D) with (Z.of_nat D) by lia.
  unfold round at 1. unfold bind.
  replace (Z.to_nat (Z.of_nat D + 1)) with (m + S (D - m))%nat by lia.
  rewrite for_count_app, Hlanes, for_count_S. unfold bind. by rewrite Hit.
Qed.

(** The same for the second inner loop, which begins when the first one
    has fallen through. *)
Lemma bwd_return_is_the_result (old new : list Z) (N M : Z) (D m : nat)
  (s s1 sD sF sk s3 : statics) (t : snake_tuple) :
  (D < Z.to_nat (ceil_half (M + N) + 1))%nat -> (m <= D)%nat ->
  setup (M + N) s = Ok (tt, s1) ->
  for_count D 0 1 (round old N new M (N - M)) s1 = Ok (Next, sD) ->
  for_count (S D) (- Z.of_nat D) 2 (fwd_iter old N new M (N - M) (Z.of_nat D)) sD
  = Ok (Next, sF) ->
  for_count m (- Z.of_nat D) 2 (bwd_iter old N new M (N - M) (Z.of_nat D)) sF
  = Ok (Next, sk) ->
  bwd_iter old N new M (N - M) (Z.of_nat D) (- Z.of_nat D + 2 * Z.of_nat m) sk
  = Ok (Return t, s3) ->
  FindMiddleSnake old N new M s = Ok (t, s3).
Proof.
  intros HD Hm Hset Hrounds Hfwd Hlanes Hit.
  unfold FindMiddleSnake, bind. rewrite Hset. unfold search.
  replace (Z.to_nat (ceil_half (M + N) + 1))
    with (D + S (Z.to_nat (ceil_half (M + N) + 1) - S D))%nat by lia.
  rewrite for_count_app, Hrounds, for_count_S. unfold bind.
  replace (0 + 1 * Z.of_nat D) with (Z.of_nat D) by lia.
  unfold round at 1. unfold bind.
  replace (Z.to_nat (Z.of_nat D + 1)) with (S D) by lia.
  rewrite Hfwd.
  replace (S D) with (m + S (D - m))%nat by lia.
  rewrite for_count_app, Hlanes, for_count_S. unfold bind. by rewrite Hit.
Qed.

(** C5 (the two overlap checks).  Let a call of [FindMiddleSnake] have
    executed lines 76-83, let the rounds before round [D] have fallen
    through and, in the first inner loop of round [D], the diagonals
    before [k]; on diagonal [k] let [x_i] be the starting point, [(x, y)]
    the end of the snake, and let [x] be stored in [Vf[k]].  If [N - M] is
    odd, [k' = -(k - Delta)] lies in [-(D - 1) .. D - 1] and
    [Vf[k] + Vb[k'] >= N], then the function returns
    [(2D - 1, x_i, y_i, x, y)].  In the second inner loop of round [D],
    when the first one has fallen through, the same holds with [N - M]
    even, [k'] in [-D .. D], [Vb[k] + Vf[k'] >= N] and the tuple
    [(2D, N - x, M - y, N - x_i, M - y_i)]. *)
Theorem overlap_checks (old new : list Z) (N M : Z) :
  (forall (D m : nat) (k : Z) (s s1 sD sk sp s2 s3 : statics) (x_i x y vb : Z),
     (D < Z.to_nat (ceil_half (M + N) + 1))%nat -> (m <= D)%nat ->
     k = - Z.of_nat D + 2 * Z.of_nat m ->
     setup (M + N) s = Ok (tt, s1) ->
     for_count D 0 1 (round old N new M (N - M)) s1 = Ok (Next, sD) ->
     for_count m (- Z.of_nat D) 2
       (fwd_iter old N new M (N - M) (Z.of_nat D)) sD = Ok (Next, sk) ->
     pick Fwd (Z.of_nat D) k sk = Ok (x_i, sp) ->
     snake_fwd (S (Z.to_nat (N - x_i))) old new N M x_i (x_i - k) sp
       = Ok ((x, y), s2) ->
     wr Fwd k x s2 = Ok (tt, s3) ->
     rd Bwd (- (k - (N - M))) s3 = Ok (vb, s3) ->
     Z.abs (Z.rem (N - M) 2) = 1 ->
     - (Z.of_nat D - 1) <= - (k - (N - M)) <= Z.of_nat D - 1 ->
     N <= x + vb ->
     FindMiddleSnake old N new M s
     = Ok ((2 * Z.of_nat D - 1, x_i, x_i - k, x, y), s3)) /\
  (forall (D m : nat) (k : Z) (s s1 sD sF sk sp s2 s3 : statics)
          (x_i x y vf : Z),
     (D < Z.to_nat (ceil_half (M + N) + 1))%nat -> (m <= D)%nat ->
     k = - Z.of_nat D + 2 * Z.of_nat m ->
     setup (M + N) s = Ok (tt, s1) ->
     for_count D 0 1 (round old N new M (N - M)) s1 = Ok (Next, sD) ->
     for_count (S D) (- Z.of_nat D) 2
       (fwd_iter old N new M (N - M) (Z.of_nat D)) sD = Ok (Next, sF) ->
     for_count m (- Z.of_nat D) 2
       (bwd_iter old N new M (N - M) (Z.of_nat D)) sF = Ok (Next, sk) ->
     pick Bwd (Z.of_nat D) k sk = Ok (x_i, sp) ->
     snake_bwd (S (Z.to_nat (N - x_i))) old new N M x_i (x_i - k) sp
       = Ok ((x, y), s2) ->
     wr Bwd k x s2 = Ok (tt, s3) ->
     rd Fwd (- (k - (N - M))) s3 = Ok (vf, s3) ->
     Z.rem (N - M) 2 = 0 ->
     - Z.of_nat D <= - (k - (N - M)) <= Z.of_nat D ->
     N <= x + vf ->
     FindMiddleSnake old N new M s
     = Ok ((2 * Z.of_nat D, N - x, M - y, N - x_i, M - (x_i - k)), s3)).
Proof.
  split.
  - intros D m k s s1 sD sk sp s2 s3 x_i x y vb HD Hm -> Hset Hrounds Hlanes
           Hp Hs Hw Hr Hodd [Hlo Hhi] Hge.
    apply (fwd_return_is_the_result old new N M D m s s1 sD sk s3); try done.
    unfold fwd_iter, bind. rewrite Hp, Hs, Hw.
    apply Z.eqb_eq in Hodd. apply Z.leb_le in Hlo, Hhi, Hge.
    rewrite Hodd, Hlo, Hhi. simpl.
    rewrite (rd_after_wr _ _ _ _ _ Hw), Hr, Hge. done.
  - intros D m k s s1 sD sF sk sp s2 s3 x_i x y vf HD Hm -> Hset Hrounds Hfwd
           Hlanes Hp Hs Hw Hr Heven [Hlo Hhi] Hge.
    apply (bwd_return_is_the_result old new N M D m s s1 sD sF sk s3); try done.
    unfold bwd_iter, bind. rewrite Hp, Hs, Hw.
    apply Z.eqb_eq in Heven. apply Z.leb_le in Hlo, Hhi, Hge.
    rewrite Heven, Hlo, Hhi. simpl.
    rewrite (rd_after_wr _ _ _ _ _ Hw), Hr, Hge. done.
Qed.

Lemma overlap_checks_witness :
  FindMiddleSnake main_a 9 main_b 10 fresh
  = Ok ((2 * Z.of_nat 3 - 1, 4, 4 - -1, 6, 7),
        store_after (wr Fwd (-1) 6) store_before_fwd_check) /\
  FindMiddleSnake [1; 2; 3; 4] 4 [1; 9; 3; 4] 4 fresh
  = Ok ((2 * Z.of_nat 1, 4 - 2, 4 - 3, 4 - 2, 4 - (2 - -1)),
        store_after (wr Bwd (-1) 2) store_before_bwd_check).
Proof.
  split.
  - apply (proj1 (overlap_checks main_a main_b 9 10) 3%nat 1%nat (-1) fresh
             (store_after (setup (10 + 9)) fresh)
             (store_after (for_count 3 0 1 (round main_a 9 main_b 10 (9 - 10)))
                (store_after (setup (10 + 9)) fresh))
             store_before_fwd_check store_before_fwd_check store_before_fwd_check
             (store_after (wr Fwd (-1) 6) store_before_fwd_check) 4 6 7 5);
      try (vm_compute; reflexivity); try lia.
    apply Nat.ltb_lt. vm_compute. reflexivity.
  - apply (proj2 (overlap_checks [1; 2; 3; 4] [1; 9; 3; 4] 4 4) 1%nat 0%nat (-1)
             fresh
             (store_after (setup (4 + 4)) fresh)
             (store_after (for_count 1 0 1 (round [1; 2; 3; 4] 4 [1; 9; 3; 4] 4 (4 - 4)))
                (store_after (setup (4 + 4)) fresh))
             store_before_bwd_check store_before_bwd_check store_before_bwd_check
             store_before_bwd_check
             (store_after (wr Bwd (-1) 2) store_before_bwd_check) 2 2 3 2);
      try (vm_compute; reflexivity); try lia.
    apply Nat.ltb_lt. vm_compute. reflexivity.
Defined.




(** C7, the program at a repeated call.  The script of [{1, 2, 3}] and
    [{4, 5, 6}] is computed by a first call, but the same call faults
    (it writes outside the static arrays) in a process that has computed
    the script of [{1}] and [{2}] before. *)
Theorem earlier_call_changes_outcome :
  (exists ops s', diff 7 [1; 2; 3] [4; 5; 6] fresh = Ok (ops, s')) /\
  (exists ops1 s1,
     diff 3 [1] [2] fresh = Ok (ops1, s1) /\
     diff 7 [1; 2; 3] [4; 5; 6] s1 = Fault).
Proof.
  split.
  - eexists _, _. vm_compute. reflexivity.
  - eexists _, _. split; [vm_compute; reflexivity|]. vm_compute. reflexivity.
Qed.

(** C8 (one diagonal).  Every tuple [(D, x, y, u, v)] that
    [FindMiddleSnake] returns, in whatever state and for whatever
    arguments, satisfies [x - y = u - v]; hence the test
    [D > 1 || (x != u && y != v)] of [ShortestEditScript] has the value of
    [D > 1 || x != u]. *)
Theorem snake_on_one_diagonal (old new : list Z) (N M : Z) (s s' : statics)
  (D x y u v : Z) :
  FindMiddleSnake old N new M s = Ok ((D, x, y, u, v), s') ->
  x - y = u - v /\
  (1 <? D) || (negb (x =? u) && negb (y =? v)) = (1 <? D) || negb (x =? u).
Proof.
  intros H. assert (Hd : x - y = u - v).
  { apply FindMiddleSnake_shape in H
      as [H|(D' & _ & [(k & x_i & x' & H & _)|(k & x_i & x' & H & _)])];
      injection H as -> -> -> -> ->; lia. }
  split; [done|]. f_equal.
  destruct (Z.eqb_spec x u), (Z.eqb_spec y v); simpl; (done || lia).
Qed.

Lemma snake_on_one_diagonal_witness :
  FindMiddleSnake main_a 9 main_b 10 fresh
  = Ok ((5, 4, 5, 6, 7), store_after (FindMiddleSnake main_a 9 main_b 10) fresh) /\
  4 - 5 = 6 - 7 /\
  (1 <? 5) || (negb (4 =? 6) && negb (5 =? 7)) = (1 <? 5) || negb (4 =? 6).
Proof.
  assert (H : FindMiddleSnake main_a 9 main_b 10 fresh
              = Ok ((5, 4, 5, 6, 7),
                    store_after (FindMiddleSnake main_a 9 main_b 10) fresh))
    by (vm_compute; reflexivity).
  split; [exact H|].
  exact (snake_on_one_diagonal main_a main_b 9 10 fresh _ 5 4 5 6 7 H).
Defined.

(** C9, the program at a later call.  In a new process the call for
    [{1, 2, 3}] and [{4, 5, 6}] returns; in a process that has computed
    the script of [{1}] and [{2}] before, the first [FindMiddleSnake] of
    the same call writes outside the static arrays, and the call has no
    result, whatever the recursion budget. *)
Theorem totality_fails_after_smaller_call :
  (exists ops s',
     ShortestEditScript 7 [1; 2; 3] 3 [4; 5; 6] 3 0 0 fresh = Ok (ops, s')) /\
  (exists ops1 s1,
     ShortestEditScript 3 [1] 1 [2] 1 0 0 fresh = Ok (ops1, s1) /\
     bounds Fwd s1 = Some (-2, 2) /\
     FindMiddleSnake [1; 2; 3] 3 [4; 5; 6] 3 s1 = Fault /\
     forall fuel,
       ShortestEditScript (S fuel) [1; 2; 3] 3 [4; 5; 6] 3 0 0 s1 = Fault).
Proof.
  split.
  - eexists _, _. vm_compute. reflexivity.
  - eexists _, _. split; [vm_compute; reflexivity|].
    split; [vm_compute; reflexivity|].
    split; [vm_compute; reflexivity|].
    apply small_arrays_overrun. vm_compute. reflexivity.
Qed.

(** C10 (parity).  Whenever the loop of [FindMiddleSnake] is left by one
    of the two overlap checks, [FindMiddleSnake] returns the tuple of that
    check, and the returned edit distance has the parity of [N - M]: it is
    [2D - 1] for some round [D] and [N - M] is odd, or it is [2D] and
    [N - M] is even. *)
Theorem returned_distance_parity (old new : list Z) (N M : Z)
  (s s1 s' : statics) (D x y u v : Z) :
  setup (M + N) s = Ok (tt, s1) ->
  search old N new M s1 = Ok (Return (D, x, y, u, v), s') ->
  FindMiddleSnake old N new M s = Ok ((D, x, y, u, v), s') /\
  ((exists d, 0 <= d /\ D = 2 * d - 1) /\ Z.abs (Z.rem (N - M) 2) = 1 \/
   (exists d, 0 <= d /\ D = 2 * d) /\ Z.rem (N - M) 2 = 0) /\
  Z.odd D = Z.odd (N - M).
Proof.
  intros Hset Hsearch. split.
  { unfold FindMiddleSnake, bind. by rewrite Hset, Hsearch. }
  apply search_shape in Hsearch
    as (d & Hd & [(k & x_i & x' & H & Hpar)|(k & x_i & x' & H & Hpar)]);
    injection H as -> _ _ _ _.
  - split; [left; split; [by exists d|done]|].
    destruct (rem2_cases (N - M)) as [q [[_ Hq]|[Hq _]]]; [lia|].
    rewrite Hq. replace (2 * d - 1) with (1 + 2 * (d - 1)) by lia.
    replace (2 * q + 1) with (1 + 2 * q) by lia.
    by rewrite !Z.odd_add_mul_2.
  - split; [right; split; [by exists d|done]|].
    destruct (rem2_cases (N - M)) as [q [[Hq _]|[_ Hq]]]; [|lia].
    rewrite Hq. replace (2 * d) with (0 + 2 * d) by lia.
    replace (2 * q) with (0 + 2 * q) by lia.
    by rewrite !Z.odd_add_mul_2.
Qed.

Lemma returned_distance_parity_witness :
  FindMiddleSnake main_a 9 main_b 10 fresh
  = Ok ((5, 4, 5, 6, 7),
        store_after (search main_a 9 main_b 10) (store_after (setup (10 + 9)) fresh)) /\
  ((exists d, 0 <= d /\ 5 = 2 * d - 1) /\ Z.abs (Z.rem (9 - 10) 2) = 1 \/
   (exists d, 0 <= d /\ 5 = 2 * d) /\ Z.rem (9 - 10) 2 = 0) /\
  Z.odd 5 = Z.odd (9 - 10).
Proof.
  apply (returned_distance_parity main_a main_b 9 10 fresh
           (store_after (setup (10 + 9)) fresh)); vm_compute; reflexivity.
Defined.

(** * Further properties of the program *)

Lemma fits_fresh e : fits e fresh.
Proof. by left. Qed.

Lemma run_segment old new N M x y u v :
  0 <= N <= len old -> 0 <= M <= len new ->
  0 <= x <= u -> u <= N -> 0 <= y <= v -> v <= M -> u - x = v - y ->
  run (pre old N) (pre new M) x y (u - x) ->
  pre (suf old x) (u - x) = pre (suf new y) (v - y).
Proof.
  intros HN HM Hx Hu Hy Hv Hd Hrun. rewrite <- Hd.
  unfold pre, suf. apply list_eq. intros i.
  destruct (decide (i < Z.to_nat (u - x))%nat) as [Hi|Hi].
  - rewrite !lookup_take_lt, !lookup_drop by done.
    destruct (Hrun (Z.of_nat i) ltac:(lia)) as (_ & _ & Heq).
    rewrite !lookup_pre in Heq by lia.
    replace (Z.to_nat x + i)%nat with (Z.to_nat (x + Z.of_nat i)) by lia.
    replace (Z.to_nat y + i)%nat with (Z.to_nat (y + Z.of_nat i)) by lia.
    done.
  - rewrite !lookup_take_ge by lia. done.
Qed.

(** X1 (the distance).  For sequences of at least [N] and [M] elements
    with [N + M >= 1], in a store that fits their distance,
    [FindMiddleSnake] returns, as the first component of its tuple, the
    number of edits [N + M - 2 * LCS] that turn the first [N] elements of
    [old_sequence] into the first [M] elements of [new_sequence]. *)
Theorem FindMiddleSnake_distance (old new : list Z) (N M : Z) (s : statics) :
  0 <= N <= len old -> 0 <= M <= len new -> 1 <= N + M ->
  fits (ed (pre old N) (pre new M)) s ->
  exists D x y u v s',
    FindMiddleSnake old N new M s = Ok ((D, x, y, u, v), s') /\
    D = N + M - 2 * lcs (pre old N) (pre new M).
Proof.
  intros HN HM Hpos Hfits.
  destruct (FindMiddleSnake_fits old new N M HN HM s Hpos Hfits)
    as ([[[[D x] y] u] v] & s' & Hrun & Hok & _).
  exists D, x, y, u, v, s'. split; [done|].
  destruct Hok as (_ & _ & _ & _ & HD & _).
  rewrite HD. unfold ed. by rewrite !len_pre.
Qed.

Lemma FindMiddleSnake_distance_witness :
  exists D x y u v s',
    FindMiddleSnake main_a 9 main_b 10 fresh = Ok ((D, x, y, u, v), s') /\
    D = 9 + 10 - 2 * lcs (pre main_a 9) (pre main_b 10).
Proof.
  apply (FindMiddleSnake_distance main_a main_b 9 10 fresh);
    [split; [lia|vm_compute; discriminate]
    |split; [lia|vm_compute; discriminate]
    |lia|apply fits_fresh].
Defined.

(** X2 (the snake).  Under the same conditions the returned points
    [(x, y)] and [(u, v)] lie inside the graph, [(u, v)] not before
    [(x, y)], and the elements between them are equal:
    [old_sequence[x .. u)] is [new_sequence[y .. v)]. *)
Theorem FindMiddleSnake_snake (old new : list Z) (N M : Z) (s : statics) :
  0 <= N <= len old -> 0 <= M <= len new -> 1 <= N + M ->
  fits (ed (pre old N) (pre new M)) s ->
  exists D x y u v s',
    FindMiddleSnake old N new M s = Ok ((D, x, y, u, v), s') /\
    (0 <= x /\ x <= u /\ u <= N) /\ (0 <= y /\ y <= v /\ v <= M) /\
    pre (suf old x) (u - x) = pre (suf new y) (v - y).
Proof.
  intros HN HM Hpos Hfits.
  destruct (FindMiddleSnake_fits old new N M HN HM s Hpos Hfits)
    as ([[[[D x] y] u] v] & s' & Hrun & Hok & _).
  exists D, x, y, u, v, s'. split; [done|].
  destruct Hok as ((Hx & Hu) & (Hy & Hv) & Hdiag & Hsnake & _).
  rewrite (len_pre old N), (len_pre new M) in * by done.
  split; [lia|]. split; [lia|].
  by apply (run_segment old new N M).
Qed.

Lemma FindMiddleSnake_snake_witness :
  exists D x y u v s',
    FindMiddleSnake main_a 9 main_b 10 fresh = Ok ((D, x, y, u, v), s') /\
    (0 <= x /\ x <= u /\ u <= 9) /\ (0 <= y /\ y <= v /\ v <= 10) /\
    pre (suf main_a x) (u - x) = pre (suf main_b y) (v - y).
Proof.
  apply (FindMiddleSnake_snake main_a main_b 9 10 fresh);
    [split; [lia|vm_compute; discriminate]
    |split; [lia|vm_compute; discriminate]
    |lia|apply fits_fresh].
Defined.

(** X3 (the middle).  Under the same conditions the two sub-problems
    that [ShortestEditScript] goes on with, [(old, x, new, y)] before the
    snake and [(old + u, N - u, new + v, M - v)] after it, have distances
    that add up to the returned [D], and neither is more than
    [ceil (D / 2)]. *)
Theorem FindMiddleSnake_halves (old new : list Z) (N M : Z) (s : statics) :
  0 <= N <= len old -> 0 <= M <= len new -> 1 <= N + M ->
  fits (ed (pre old N) (pre new M)) s ->
  exists D x y u v s',
    FindMiddleSnake old N new M s = Ok ((D, x, y, u, v), s') /\
    ed (pre old x) (pre new y)
    + ed (pre (suf old u) (N - u)) (pre (suf new v) (M - v)) = D /\
    2 * ed (pre old x) (pre new y) <= D + 1 /\
    2 * ed (pre (suf old u) (N - u)) (pre (suf new v) (M - v)) <= D + 1.
Proof.
  intros HN HM Hpos Hfits.
  destruct (FindMiddleSnake_fits old new N M HN HM s Hpos Hfits)
    as ([[[[D x] y] u] v] & s' & Hrun & Hok & _).
  exists D, x, y, u, v, s'. split; [done|].
  destruct Hok as ((Hx & Hu) & (Hy & Hv) & _ & _ & _ & Hsum & Hp & Hs & _).
  rewrite (len_pre old N), (len_pre new M) in * by done.
  rewrite (pre_of_pre old N x), (pre_of_pre new M y) in * by lia.
  rewrite !pre_of_suf by lia. done.
Qed.

Lemma FindMiddleSnake_halves_witness :
  exists D x y u v s',
    FindMiddleSnake main_a 9 main_b 10 fresh = Ok ((D, x, y, u, v), s') /\
    ed (pre main_a x) (pre main_b y)
    + ed (pre (suf main_a u) (9 - u)) (pre (suf main_b v) (10 - v)) = D /\
    2 * ed (pre main_a x) (pre main_b y) <= D + 1 /\
    2 * ed (pre (suf main_a u) (9 - u)) (pre (suf main_b v) (10 - v)) <= D + 1.
Proof.
  apply (FindMiddleSnake_halves main_a main_b 9 10 fresh);
    [split; [lia|vm_compute; discriminate]
    |split; [lia|vm_compute; discriminate]
    |lia|apply fits_fresh].
Defined.

(** X4 (what a call depends on).  [FindMiddleSnake] returns the same
    tuple for two pairs of arrays that agree on their first [N] and [M]
    elements, from any two stores that fit: it reads nothing beyond these
    elements, and what earlier calls have left in the static arrays has no
    influence. *)
Theorem FindMiddleSnake_reads_prefixes (old old' new new' : list Z) (N M : Z)
  (s1 s2 : statics) :
  0 <= N <= len old -> 0 <= N <= len old' ->
  0 <= M <= len new -> 0 <= M <= len new' ->
  pre old N = pre old' N -> pre new M = pre new' M ->
  1 <= N + M ->
  fits (ed (pre old N) (pre new M)) s1 -> fits (ed (pre old N) (pre new M)) s2 ->
  exists t s1' s2',
    FindMiddleSnake old N new M s1 = Ok (t, s1') /\
    FindMiddleSnake old' N new' M s2 = Ok (t, s2').
Proof.
  intros HN HN' HM HM' Ea Eb Hpos Hf1 Hf2.
  destruct (FindMiddleSnake_fits old new N M HN HM s1 Hpos Hf1)
    as (t & s1' & H1 & _).
  assert (Hf2' : fits (ed (pre old' N) (pre new' M)) s2) by (by rewrite <- Ea, <- Eb).
  destruct (FindMiddleSnake_fits old' new' N M HN' HM' s2 Hpos Hf2')
    as (t' & s2' & H2 & _).
  exists t, s1', s2'. split; [done|]. rewrite H2. do 2 f_equal.
  symmetry. by eapply (FindMiddleSnake_agree old old' new new' N M s1 s2).
Qed.

Lemma FindMiddleSnake_reads_prefixes_witness :
  exists t s1' s2',
    FindMiddleSnake main_a 9 main_b 10 fresh = Ok (t, s1') /\
    FindMiddleSnake (main_a ++ [5; 6]) 9 (main_b ++ [7]) 10
      (store_after (FindMiddleSnake [1; 2; 3] 3 [3; 4; 5; 6; 7; 8; 9] 7) fresh)
    = Ok (t, s2').
Proof.
  apply (FindMiddleSnake_reads_prefixes main_a (main_a ++ [5; 6])
           main_b (main_b ++ [7]) 9 10 fresh
           (store_after (FindMiddleSnake [1; 2; 3] 3 [3; 4; 5; 6; 7; 8; 9] 7) fresh));
    [split; [lia|vm_compute; discriminate]
    |split; [lia|vm_compute; discriminate]
    |split; [lia|vm_compute; discriminate]
    |split; [lia|vm_compute; discriminate]
    |reflexivity|reflexivity|lia|apply fits_fresh|].
  right. exists 10. split_and!; [|lia|apply Z.leb_le; vm_compute; reflexivity].
  eexists _, _. split_and!; [vm_compute; reflexivity|vm_compute; reflexivity| |];
    split; vm_compute; discriminate.
Defined.

(** X5 (the arrays are sized once).  Once a static array exists, no call
    of [FindMiddleSnake] and no call of [ShortestEditScript], whatever its
    arguments, replaces it or changes its bounds. *)
Theorem static_bounds_never_change (w : which) (lo hi : Z) (s : statics) :
  bounds w s = Some (lo, hi) ->
  (forall old N new M t s',
     FindMiddleSnake old N new M s = Ok (t, s') -> bounds w s' = Some (lo, hi)) /\
  (forall fuel old N new M cx cy ops s',
     ShortestEditScript fuel old N new M cx cy s = Ok (ops, s') ->
     bounds w s' = Some (lo, hi)).
Proof.
  intros Hb. split.
  - intros old N new M t s' Hrun.
    by apply (stable_FindMiddleSnake old N new M s t s' Hrun).
  - intros fuel old N new M cx cy ops s' Hrun.
    by apply (stable_ShortestEditScript fuel old N new M cx cy s ops s' Hrun).
Qed.

Lemma static_bounds_never_change_witness :
  bounds Fwd (store_after (FindMiddleSnake [1] 1 [2] 1) fresh) = Some (-2, 2) /\
  (forall old N new M t s',
     FindMiddleSnake old N new M (store_after (FindMiddleSnake [1] 1 [2] 1) fresh)
     = Ok (t, s') -> bounds Fwd s' = Some (-2, 2)) /\
  (forall fuel old N new M cx cy ops s',
     ShortestEditScript fuel old N new M cx cy
       (store_after (FindMiddleSnake [1] 1 [2] 1) fresh) = Ok (ops, s') ->
     bounds Fwd s' = Some (-2, 2)).
Proof.
  split; [vm_compute; reflexivity|].
  apply (static_bounds_never_change Fwd (-2) 2
           (store_after (FindMiddleSnake [1] 1 [2] 1) fresh)).
  vm_compute. reflexivity.
Defined.

(** X6 (a first call needs an element).  In a process that has not yet
    constructed the static arrays, a call of [FindMiddleSnake] with
    [N + M <= 0] has no defined result: with [N + M = 0] the arrays get
    the single cell [0] and the seed [Vf[1] = 0] is written outside it,
    and with [N + M < 0] the size of the allocation is negative. *)
Theorem FindMiddleSnake_needs_an_element (old new : list Z) (N M : Z)
  (s : statics) :
  Vf s = None -> Vb s = None -> N + M <= 0 ->
  FindMiddleSnake old N new M s = Fault.
Proof.
  intros Hf Hb Hle. unfold FindMiddleSnake, setup, bind.
  unfold static_init at 1. simpl. rewrite Hf. unfold V_new.
  destruct (Z.ltb_spec (M + N - - (M + N) + 1) 0) as [Hneg|Hsize]; [done|].
  unfold static_init. simpl. rewrite Hb. unfold V_new.
  destruct (Z.ltb_spec (M + N - - (M + N) + 1) 0); [done|].
  unfold wr, V_set. simpl.
  destruct (Z.leb_spec 1 (M + N)); [lia|]. by rewrite andb_false_r.
Qed.

Lemma FindMiddleSnake_needs_an_element_witness :
  FindMiddleSnake [] 0 [] 0 fresh = Fault.
Proof.
  apply (FindMiddleSnake_needs_an_element [] [] 0 0 fresh); [reflexivity|reflexivity|lia].
Defined.

Lemma sized_fits c e s : 1 <= c -> e <= 2 * c -> sized c s -> fits e s.
Proof. intros Hc He Hs. right. exists c. split_and!; [by apply sized_cap|done|done]. Qed.

(** X7 (arrays of an earlier call, within reach).  On arrays that an
    earlier call has constructed with the bounds [-c .. c], a call for
    sequences whose distance is at most [2c] returns that distance, however
    long the sequences are, and leaves the bounds as they are. *)
Theorem FindMiddleSnake_within_reach (old new : list Z) (N M c : Z)
  (s : statics) :
  0 <= N <= len old -> 0 <= M <= len new -> 1 <= N + M ->
  1 <= c -> sized c s ->
  ed (pre old N) (pre new M) <= 2 * c ->
  exists D x y u v s',
    FindMiddleSnake old N new M s = Ok ((D, x, y, u, v), s') /\
    D = ed (pre old N) (pre new M) /\ sized c s'.
Proof.
  intros HN HM Hpos Hc Hsized Hnear.
  destruct (FindMiddleSnake_fits old new N M HN HM s Hpos (sized_fits c _ s Hc Hnear Hsized))
    as ([[[[D x] y] u] v] & s' & Hrun & Hok & _).
  exists D, x, y, u, v, s'. split; [done|]. split.
  - by destruct Hok as (_ & _ & _ & _ & HD & _).
  - eapply sized_stable; [apply stable_FindMiddleSnake|exact Hrun|done].
Qed.

Lemma FindMiddleSnake_within_reach_witness :
  exists D x y u v s',
    FindMiddleSnake [1; 2; 3; 4; 5; 6] 6 [1; 2; 3; 4; 5; 7] 6
      (store_after (FindMiddleSnake [1] 1 [2] 1) fresh)
    = Ok ((D, x, y, u, v), s') /\
    D = ed (pre [1; 2; 3; 4; 5; 6] 6) (pre [1; 2; 3; 4; 5; 7] 6) /\
    sized 2 s'.
Proof.
  apply (FindMiddleSnake_within_reach [1; 2; 3; 4; 5; 6] [1; 2; 3; 4; 5; 7] 6 6 2
           (store_after (FindMiddleSnake [1] 1 [2] 1) fresh));
    [split; [lia|vm_compute; discriminate]
    |split; [lia|vm_compute; discriminate]
    |lia|lia
    |split; vm_compute; reflexivity
    |apply Z.leb_le; vm_compute; reflexivity].
Defined.

(** X8 (arrays of an earlier call, out of reach).  On arrays with the
    bounds [-c .. c], a call for sequences whose distance is more than
    [2c] has no defined result: round [c + 1] of the search begins with a
    write to [Vf[-(c + 1)]], outside the array. *)
Theorem FindMiddleSnake_out_of_reach (old new : list Z) (N M c : Z)
  (s : statics) :
  0 <= N <= len old -> 0 <= M <= len new ->
  1 <= c -> sized c s ->
  2 * c < ed (pre old N) (pre new M) ->
  FindMiddleSnake old N new M s = Fault.
Proof.
  intros HN HM Hc Hsized Hfar.
  apply (FindMiddleSnake_overruns old new N M HN HM (Z.to_nat c)).
  - lia.
  - by rewrite Z2Nat.id by lia.
  - by rewrite Z2Nat.id by lia.
Qed.

Lemma FindMiddleSnake_out_of_reach_witness :
  FindMiddleSnake [1; 2; 3] 3 [4; 5; 6] 3
    (store_after (FindMiddleSnake [1] 1 [2] 1) fresh) = Fault.
Proof.
  apply (FindMiddleSnake_out_of_reach [1; 2; 3] [4; 5; 6] 3 3 2
           (store_after (FindMiddleSnake [1] 1 [2] 1) fresh));
    [split; [lia|vm_compute; discriminate]
    |split; [lia|vm_compute; discriminate]
    |lia
    |split; vm_compute; reflexivity
    |apply Z.ltb_lt; vm_compute; reflexivity].
Defined.

Lemma diff_fits (A B : list Z) (fuel : nat) (s : statics) :
  len A + len B < Z.of_nat fuel -> fits (ed A B) s ->
  exists ops s', diff fuel A B s = Ok (ops, s') /\ script_ok A B 0 0 ops.
Proof.
  intros Hfuel Hfits. unfold diff. fold (len A) (len B).
  pose proof (len_nonneg A). pose proof (len_nonneg B).
  destruct (ShortestEditScript_fits fuel A (len A) B (len B) 0 0 s)
    as (ops & s' & H1 & Hok & _); [lia|lia|done|by rewrite !pre_all by lia|].
  rewrite !pre_all in Hok by lia. by exists ops, s'.
Qed.

Lemma diff_sizes (A0 B0 : list Z) (fuel0 : nat) (ops0 : Diff) (s0 s1 : statics) :
  Vf s0 = None -> Vb s0 = None -> 0 < len A0 -> 0 < len B0 ->
  diff fuel0 A0 B0 s0 = Ok (ops0, s1) -> sized (len A0 + len B0) s1.
Proof.
  intros Hf Hb HA HB Hrun. rewrite Z.add_comm.
  by apply (ShortestEditScript_sizes fuel0 A0 (len A0) B0 (len B0) 0 0 s0 ops0 s1).
Qed.

(** X9 (a later script, within reach).  In a process whose first script
    was computed for the non-empty sequences [A0] and [B0], a later call
    for sequences [A] and [B] whose distance is at most
    [2 * (len A0 + len B0)] returns a script of [ed A B] operations that
    turns [A] into [B], whatever the lengths of [A] and [B]. *)
Theorem later_script_within_reach (A0 B0 A B : list Z) (fuel0 fuel : nat)
  (ops0 : Diff) (s1 : statics) :
  0 < len A0 -> 0 < len B0 ->
  diff fuel0 A0 B0 fresh = Ok (ops0, s1) ->
  len A + len B < Z.of_nat fuel ->
  ed A B <= 2 * (len A0 + len B0) ->
  exists ops s2,
    diff fuel A B s1 = Ok (ops, s2) /\
    apply_script A B ops = B /\ Z.of_nat (length ops) = ed A B.
Proof.
  intros HA0 HB0 Hfirst Hfuel Hnear.
  pose proof (diff_sizes A0 B0 fuel0 ops0 fresh s1 eq_refl eq_refl HA0 HB0 Hfirst)
    as Hsized.
  destruct (diff_fits A B fuel s1 Hfuel) as (ops & s2 & Hrun & Hok).
  { apply (sized_fits (len A0 + len B0)); [lia|done|done]. }
  exists ops, s2. split; [done|]. split; [by apply apply_script_ok|].
  by destruct Hok as (_ & _ & _ & Hlen).
Qed.

Lemma later_script_within_reach_witness :
  exists ops s2,
    diff 20 [1; 2; 3; 4; 5; 6; 7] [1; 2; 9; 4; 5; 6; 7]
      (store_after (diff 3 [1] [2]) fresh) = Ok (ops, s2) /\
    apply_script [1; 2; 3; 4; 5; 6; 7] [1; 2; 9; 4; 5; 6; 7] ops
    = [1; 2; 9; 4; 5; 6; 7] /\
    Z.of_nat (length ops) = ed [1; 2; 3; 4; 5; 6; 7] [1; 2; 9; 4; 5; 6; 7].
Proof.
  apply (later_script_within_reach [1] [2] [1; 2; 3; 4; 5; 6; 7] [1; 2; 9; 4; 5; 6; 7]
           3 20 [(0, "add"%string); (0, "del"%string)]
           (store_after (diff 3 [1] [2]) fresh));
    [reflexivity|reflexivity|vm_compute; reflexivity|reflexivity
    |apply Z.leb_le; vm_compute; reflexivity].
Defined.

(** X10 (a later script, out of reach).  In the same process a later call
    for non-empty sequences whose distance is more than
    [2 * (len A0 + len B0)] has no defined result: its search writes
    outside the static arrays. *)
Theorem later_script_out_of_reach (A0 B0 A B : list Z) (fuel0 fuel : nat)
  (ops0 : Diff) (s1 : statics) :
  0 < len A0 -> 0 < len B0 ->
  diff fuel0 A0 B0 fresh = Ok (ops0, s1) ->
  0 < len A -> 0 < len B ->
  2 * (len A0 + len B0) < ed A B ->
  diff (S fuel) A B s1 = Fault.
Proof.
  intros HA0 HB0 Hfirst HA HB Hfar.
  pose proof (diff_sizes A0 B0 fuel0 ops0 fresh s1 eq_refl eq_refl HA0 HB0 Hfirst)
    as Hsized.
  unfold diff. fold (len A) (len B).
  apply (ShortestEditScript_overruns fuel A (len A) B (len B) 0 0
           (Z.to_nat (len A0 + len B0))).
  - lia.
  - lia.
  - lia.
  - by rewrite Z2Nat.id by lia.
  - rewrite Z2Nat.id, !pre_all by lia. done.
Qed.

Lemma later_script_out_of_reach_witness :
  diff 7 [1; 2; 3] [4; 5; 6] (store_after (diff 3 [1] [2]) fresh) = Fault.
Proof.
  apply (later_script_out_of_reach [1] [2] [1; 2; 3] [4; 5; 6] 3 6
           [(0, "add"%string); (0, "del"%string)]
           (store_after (diff 3 [1] [2]) fresh));
    [reflexivity|reflexivity|vm_compute; reflexivity|reflexivity|reflexivity
    |apply Z.ltb_lt; vm_compute; reflexivity].
Defined.

(** X11 (what the script keeps).  The elements of [A] that the script
    does not delete are, in order, the elements of [B] that it does not
    insert, and they are a longest common subsequence of [A] and [B]. *)
Theorem script_keeps_longest_common_subsequence (A B : list Z) (fuel : nat)
  (s : statics) :
  len A + len B < Z.of_nat fuel -> fits (ed A B) s ->
  exists ops s' w,
    diff fuel A B s = Ok (ops, s') /\
    w = strike (positions "del" ops) 0 A /\
    w = strike (positions "add" ops) 0 B /\
    w `sublist_of` A /\ w `sublist_of` B /\ len w = lcs A B.
Proof.
  intros Hfuel Hfits.
  destruct (diff_fits A B fuel s Hfuel Hfits) as (ops & s' & Hrun & Hok).
  exists ops, s', (strike (positions "del" ops) 0 A).
  destruct (script_ok_kept A B 0 0 ops Hok) as (Ha & Hb & Hlen & _).
  destruct Hok as (_ & _ & Heq & _). done.
Qed.

Lemma script_keeps_longest_common_subsequence_witness :
  exists ops s' w,
    diff 20 main_a main_b fresh = Ok (ops, s') /\
    w = strike (positions "del" ops) 0 main_a /\
    w = strike (positions "add" ops) 0 main_b /\
    w `sublist_of` main_a /\ w `sublist_of` main_b /\ len w = lcs main_a main_b.
Proof.
  apply (script_keeps_longest_common_subsequence main_a main_b 20 fresh);
    [reflexivity|apply fits_fresh].
Defined.

(** X12 (how many of each).  The script has [len A - LCS] deletions and
    [len B - LCS] insertions. *)
Theorem script_counts (A B : list Z) (fuel : nat) (s : statics) :
  len A + len B < Z.of_nat fuel -> fits (ed A B) s ->
  exists ops s',
    diff fuel A B s = Ok (ops, s') /\
    len (positions "del" ops) = len A - lcs A B /\
    len (positions "add" ops) = len B - lcs A B.
Proof.
  intros Hfuel Hfits.
  destruct (diff_fits A B fuel s Hfuel Hfits) as (ops & s' & Hrun & Hok).
  exists ops, s'. split; [done|].
  by destruct (script_ok_kept A B 0 0 ops Hok) as (_ & _ & _ & Hd & Ha).
Qed.

Lemma script_counts_witness :
  exists ops s',
    diff 20 main_a main_b fresh = Ok (ops, s') /\
    len (positions "del" ops) = len main_a - lcs main_a main_b /\
    len (positions "add" ops) = len main_b - lcs main_a main_b.
Proof.
  apply (script_counts main_a main_b 20 fresh); [reflexivity|apply fits_fresh].
Defined.

(** X13 (the indices of a script).  For offsets with
    [INT_MIN <= current_x], [current_x + N <= INT_MAX],
    [INT_MIN <= current_y] and [current_y + M <= INT_MAX], so that no
    index and no offset that the call computes leaves [int]: every
    operation that
    [ShortestEditScript(old, N, new, M, current_x, current_y)] returns is a
    deletion at an index in [current_x .. current_x + N - 1] or an
    insertion at an index in [current_y .. current_y + M - 1], and no
    operation occurs twice. *)
Theorem script_indices (old new : list Z) (N M cx cy : Z) (fuel : nat)
  (s : statics) :
  0 <= N <= len old -> 0 <= M <= len new -> N + M < Z.of_nat fuel ->
  INT_MIN <= cx -> cx + N <= INT_MAX -> INT_MIN <= cy -> cy + M <= INT_MAX ->
  fits (ed (pre old N) (pre new M)) s ->
  exists ops s',
    ShortestEditScript fuel old N new M cx cy s = Ok (ops, s') /\
    NoDup ops /\
    forall p t, (p, t) ∈ ops ->
      (t = "del"%string /\ cx <= p < cx + N) \/
      (t = "add"%string /\ cy <= p < cy + M).
Proof.
  intros HN HM Hfuel _ _ _ _ Hfits.
  destruct (ShortestEditScript_fits fuel old N new M cx cy s HN HM Hfuel Hfits)
    as (ops & s' & Hrun & (Hnd & Hin & _) & _).
  exists ops, s'. split; [done|]. split; [done|].
  intros p t Hp. specialize (Hin p t Hp).
  by rewrite (len_pre old N), (len_pre new M) in Hin.
Qed.

Lemma script_indices_witness :
  exists ops s',
    ShortestEditScript 20 main_a 9 main_b 10 100 200 fresh = Ok (ops, s') /\
    NoDup ops /\
    forall p t, (p, t) ∈ ops ->
      (t = "del"%string /\ 100 <= p < 100 + 9) \/
      (t = "add"%string /\ 200 <= p < 200 + 10).
Proof.
  apply (script_indices main_a main_b 9 10 100 200 20 fresh);
    [split; [lia|vm_compute; discriminate]
    |split; [lia|vm_compute; discriminate]
    |lia|vm_compute; discriminate|vm_compute; discriminate
    |vm_compute; discriminate|vm_compute; discriminate|apply fits_fresh].
Defined.

(** X14 (equal sequences).  The script is empty exactly when the two
    sequences are equal. *)
Theorem script_empty_iff_equal (A B : list Z) (fuel : nat) (s : statics) :
  len A + len B < Z.of_nat fuel -> fits (ed A B) s ->
  exists ops s', diff fuel A B s = Ok (ops, s') /\ (ops = [] <-> A = B).
Proof.
  intros Hfuel Hfits.
  destruct (diff_fits A B fuel s Hfuel Hfits) as (ops & s' & Hrun & Hok).
  exists ops, s'. split; [done|]. destruct Hok as (_ & _ & _ & Hlen). split.
  - intros ->. apply ed_zero_eq. by rewrite <- Hlen.
  - intros ->. rewrite ed_refl in Hlen. apply nil_length_inv. lia.
Qed.

Lemma script_empty_iff_equal_witness :
  exists ops s',
    diff 20 main_a main_a fresh = Ok (ops, s') /\ (ops = [] <-> main_a = main_a).
Proof.
  apply (script_empty_iff_equal main_a main_a 20 fresh);
    [reflexivity|apply fits_fresh].
Defined.

(** X15 (what a script depends on).  [ShortestEditScript] returns the
    same operations in the same order for two pairs of arrays that agree
    on their first [N] and [M] elements, from any two stores that fit: it
    uses no element beyond these, and what earlier calls have left in the
    static arrays has no influence. *)
Theorem ShortestEditScript_reads_prefixes (old old' new new' : list Z)
  (N M cx cy : Z) (fuel1 fuel2 : nat) (s1 s2 : statics) :
  0 <= N <= len old -> 0 <= N <= len old' ->
  0 <= M <= len new -> 0 <= M <= len new' ->
  pre old N = pre old' N -> pre new M = pre new' M ->
  N + M < Z.of_nat fuel1 -> N + M < Z.of_nat fuel2 ->
  fits (ed (pre old N) (pre new M)) s1 ->
  fits (ed (pre old N) (pre new M)) s2 ->
  exists ops s1' s2',
    ShortestEditScript fuel1 old N new M cx cy s1 = Ok (ops, s1') /\
    ShortestEditScript fuel2 old' N new' M cx cy s2 = Ok (ops, s2').
Proof.
  intros HN HN' HM HM' Ea Eb Hfuel1 Hfuel2 Hf1 Hf2.
  destruct (ShortestEditScript_fits fuel1 old N new M cx cy s1 HN HM Hfuel1 Hf1)
    as (ops & s1' & H1 & _).
  assert (Hf2' : fits (ed (pre old' N) (pre new' M)) s2) by (by rewrite <- Ea, <- Eb).
  destruct (ShortestEditScript_fits fuel2 old' N new' M cx cy s2 HN' HM' Hfuel2 Hf2')
    as (ops' & s2' & H2 & _).
  exists ops, s1', s2'. split; [done|]. rewrite H2. do 2 f_equal. symmetry.
  by eapply (ShortestEditScript_agree fuel1 fuel2 old old' N new new' M cx cy s1 s2).
Qed.

Lemma ShortestEditScript_reads_prefixes_witness :
  exists ops s1' s2',
    ShortestEditScript 20 main_a 9 main_b 10 0 0 fresh = Ok (ops, s1') /\
    ShortestEditScript 25 (main_a ++ [5; 6]) 9 (main_b ++ [7]) 10 0 0
      (store_after (diff 20 [1; 2; 3] [3; 4; 5; 6; 7; 8; 9]) fresh)
    = Ok (ops, s2').
Proof.
  apply (ShortestEditScript_reads_prefixes main_a (main_a ++ [5; 6])
           main_b (main_b ++ [7]) 9 10 0 0 20 25 fresh
           (store_after (diff 20 [1; 2; 3] [3; 4; 5; 6; 7; 8; 9]) fresh));
    [split; [lia|vm_compute; discriminate]
    |split; [lia|vm_compute; discriminate]
    |split; [lia|vm_compute; discriminate]
    |split; [lia|vm_compute; discriminate]
    |reflexivity|reflexivity|lia|lia|apply fits_fresh|].
  apply (sized_fits 10); [lia|apply Z.leb_le; vm_compute; reflexivity|].
  split; vm_compute; reflexivity.
Defined.


(** X17 (the display of [main]).  For any two arrays and any multiset of
    operations, the loops of lines 230-268 end without reading outside the
    arrays, and what they print shows every element of the first array
    once and in order (on the lines marked [-] and the unmarked lines), and
    every element of the second array once and in order (on the lines
    marked [+] and the unmarked lines). *)
Theorem display_covers (a b : list Z) (result : Diff) (fuel : nat)
  (s : statics) :
  len a + len b < Z.of_nat fuel ->
  exists out,
    display fuel a b result s = Ok (out, s) /\
    old_column out = a /\ new_column out = b.
Proof.
  intros Hfuel.
  destruct (display_spec fuel a b result s Hfuel) as (out & Hrun & Ha & Hb).
  by exists out.
Qed.

Lemma display_covers_witness :
  exists out,
    display 20 main_a main_b [(2, "del"%string); (5, "add"%string)] fresh
    = Ok (out, fresh) /\
    old_column out = main_a /\ new_column out = main_b.
Proof.
  apply (display_covers main_a main_b [(2, "del"%string); (5, "add"%string)] 20 fresh).
  reflexivity.
Defined.

(** The display is not an alignment for every script: the multiset
    yields its elements by index, deletions and insertions mixed, and the
    loop waits for the element at the iterator.  Here the insertion at
    index [2] stands behind the deletion at index [1], and [7] and [3]
    are shown as one unchanged line. *)
Lemma display_can_pair_unequal :
  exists s,
    diff 20 [7; 8] [1; 2; 3; 7] fresh
    = Ok ([(0, "add"); (1, "add"); (1, "del"); (2, "add")]%string, s) /\
    display 20 [7; 8] [1; 2; 3; 7]
      [(0, "add"); (1, "add"); (1, "del"); (2, "add")]%string s
    = Ok ([Added 1; Break; Added 2; Break; Same 7 3; Break; Removed 8; Break;
           Added 7], s).
Proof. eexists. split; vm_compute; reflexivity. Qed.

(** [main] runs to its end: it prints the listing of a shortest script of
    its two arrays and a display that shows both arrays. *)
Lemma main_spec (fuel : nat) :
  (20 <= fuel)%nat ->
  exists result out s,
    main fuel fresh = Ok (listing result ++ flat_map show out, s) /\
    apply_script main_a main_b result = main_b /\
    old_column out = main_a /\ new_column out = main_b.
Proof.
  intros Hfuel.
  assert (Hlen : len main_a + len main_b < Z.of_nat fuel).
  { change (len main_a + len main_b) with 19. lia. }
  destruct (diff_fits main_a main_b fuel fresh Hlen (fits_fresh _))
    as (result & s & Hrun & Hok).
  destruct (display_spec fuel main_a main_b result s Hlen) as (out & Hd & Ha & Hb).
  exists result, out, s. unfold main, bind. rewrite Hrun, Hd.
  split; [done|]. split; [by apply apply_script_ok|done].
Qed.

(** X18 (the same call again).  A call that is repeated in the store that
    it has left behind returns the same operations in the same order. *)
Theorem repeated_script_is_the_same (A B : list Z) (fuel : nat) (s : statics) :
  len A + len B < Z.of_nat fuel -> fits (ed A B) s ->
  exists ops s1 s2,
    diff fuel A B s = Ok (ops, s1) /\ diff fuel A B s1 = Ok (ops, s2).
Proof.
  intros Hfuel Hfits. unfold diff. fold (len A) (len B).
  pose proof (len_nonneg A). pose proof (len_nonneg B).
  assert (Hf : fits (ed (pre A (len A)) (pre B (len B))) s)
    by (by rewrite !pre_all by lia).
  destruct (ShortestEditScript_fits fuel A (len A) B (len B) 0 0 s)
    as (ops & s1 & H1 & _ & Hf1 & _); [lia|lia|done|done|].
  destruct (ShortestEditScript_fits fuel A (len A) B (len B) 0 0 s1)
    as (ops' & s2 & H2 & _); [lia|lia|done|done|].
  exists ops, s1, s2. split; [done|]. rewrite H2. do 2 f_equal. symmetry.
  by eapply (ShortestEditScript_agree fuel fuel A A (len A) B B (len B) 0 0 s s1);
    [lia|lia|lia|lia|done|done|done|done|done|done|apply H1|apply H2].
Qed.

Lemma repeated_script_is_the_same_witness :
  exists ops s1 s2,
    diff 20 main_a main_b fresh = Ok (ops, s1) /\
    diff 20 main_a main_b s1 = Ok (ops, s2).
Proof.
  apply (repeated_script_is_the_same main_a main_b 20 fresh);
    [reflexivity|apply fits_fresh].
Defined.

(** X19 (the two sequences swapped).  The script from [B] to [A] has as
    many operations as the script from [A] to [B]: as many insertions as
    the other has deletions, and as many deletions as the other has
    insertions. *)
Theorem script_of_swapped_sequences (A B : list Z) (fuel : nat)
  (s1 s2 : statics) :
  len A + len B < Z.of_nat fuel -> fits (ed A B) s1 -> fits (ed A B) s2 ->
  exists ops ops' s1' s2',
    diff fuel A B s1 = Ok (ops, s1') /\ diff fuel B A s2 = Ok (ops', s2') /\
    length ops = length ops' /\
    len (positions "del" ops) = len (positions "add" ops') /\
    len (positions "add" ops) = len (positions "del" ops').
Proof.
  intros Hfuel Hf1 Hf2.
  destruct (diff_fits A B fuel s1 Hfuel Hf1) as (ops & s1' & H1 & Hok1).
  destruct (diff_fits B A fuel s2) as (ops' & s2' & H2 & Hok2);
    [lia|by rewrite ed_sym|].
  exists ops, ops', s1', s2'. split; [done|]. split; [done|].
  destruct (script_ok_kept A B 0 0 ops Hok1) as (_ & _ & _ & Hd1 & Ha1).
  destruct (script_ok_kept B A 0 0 ops' Hok2) as (_ & _ & _ & Hd2 & Ha2).
  destruct Hok1 as (_ & _ & _ & Hl1). destruct Hok2 as (_ & _ & _ & Hl2).
  rewrite (lcs_sym B A) in Hd2, Ha2. rewrite (ed_sym B A) in Hl2.
  split; [lia|]. split; lia.
Qed.

Lemma script_of_swapped_sequences_witness :
  exists ops ops' s1' s2',
    diff 20 main_a main_b fresh = Ok (ops, s1') /\
    diff 20 main_b main_a fresh = Ok (ops', s2') /\
    length ops = length ops' /\
    len (positions "del" ops) = len (positions "add" ops') /\
    len (positions "add" ops) = len (positions "del" ops').
Proof.
  apply (script_of_swapped_sequences main_a main_b 20 fresh fresh);
    [reflexivity|apply fits_fresh|apply fits_fresh].
Defined.

(** X20 (the order of the operations).  Whenever [ShortestEditScript]
    returns, from whatever store and for whatever arguments, the returned
    multiset yields its operations in ascending order: no operation is
    less, by [operator<] of the pairs, than one before it, so the indices
    never decrease, deletions and insertions mixed. *)
Theorem script_in_ascending_order (fuel : nat) (old new : list Z)
  (N M cx cy : Z) (s s' : statics) (ops : Diff) :
  ShortestEditScript fuel old N new M cx cy s = Ok (ops, s') ->
  StronglySorted (fun p q => pair_lt q p = false) ops /\
  StronglySorted (fun p q => p.1 <= q.1) ops.
Proof.
  intros Hrun.
  destruct (ShortestEditScript_ascending fuel old N new M cx cy s ops s' Hrun)
    as [Hasc Htag].
  by apply ascending_pair_lt.
Qed.

Lemma script_in_ascending_order_witness :
  StronglySorted (fun p q => pair_lt q p = false)
    [(2, "add"); (2, "del"); (4, "add"); (7, "add"); (7, "del")]%string /\
  StronglySorted (fun p q : Z * string => p.1 <= q.1)
    [(2, "add"); (2, "del"); (4, "add"); (7, "add"); (7, "del")]%string.
Proof.
  apply (script_in_ascending_order 20 main_a main_b 9 10 0 0 fresh
           (store_after (ShortestEditScript 20 main_a 9 main_b 10 0 0) fresh)).
  vm_compute. reflexivity.
Defined.

(** X21 (the offsets).  For offsets with [INT_MIN <= current_x],
    [current_x + N <= INT_MAX], [INT_MIN <= current_y] and
    [current_y + M <= INT_MAX], so that no index and no offset that the
    call computes leaves [int], [current_x] and [current_y] only move the
    indices: the multiset returned for the offsets [current_x] and
    [current_y] holds the operations of the multiset returned for the
    offsets [0] and [0], each deletion with [current_x] added to its index
    and each insertion with [current_y] added. *)
Theorem script_offsets (old new : list Z) (N M cx cy : Z) (fuel : nat)
  (s1 s2 : statics) :
  0 <= N <= len old -> 0 <= M <= len new -> N + M < Z.of_nat fuel ->
  INT_MIN <= cx -> cx + N <= INT_MAX -> INT_MIN <= cy -> cy + M <= INT_MAX ->
  fits (ed (pre old N) (pre new M)) s1 ->
  fits (ed (pre old N) (pre new M)) s2 ->
  exists ops ops0 s1' s2',
    ShortestEditScript fuel old N new M cx cy s1 = Ok (ops, s1') /\
    ShortestEditScript fuel old N new M 0 0 s2 = Ok (ops0, s2') /\
    ops ≡ₚ map (shift cx cy) ops0.
Proof.
  intros HN HM Hfuel _ _ _ _ Hf1 Hf2.
  destruct (ShortestEditScript_fits fuel old N new M cx cy s1 HN HM Hfuel Hf1)
    as (ops & s1' & H1 & _).
  destruct (ShortestEditScript_fits fuel old N new M 0 0 s2 HN HM Hfuel Hf2)
    as (ops0 & s2' & H2 & _).
  exists ops, ops0, s1', s2'. split; [done|]. split; [done|].
  by apply (ShortestEditScript_shift fuel fuel old N new M 0 0 cx cy s1 s2
              ops ops0 s1' s2').
Qed.

Lemma script_offsets_witness :
  exists ops ops0 s1' s2',
    ShortestEditScript 20 main_a 9 main_b 10 100 200 fresh = Ok (ops, s1') /\
    ShortestEditScript 20 main_a 9 main_b 10 0 0 fresh = Ok (ops0, s2') /\
    ops ≡ₚ map (shift 100 200) ops0.
Proof.
  apply (script_offsets main_a main_b 9 10 100 200 20 fresh fresh);
    [split; [lia|vm_compute; discriminate]
    |split; [lia|vm_compute; discriminate]
    |lia|vm_compute; discriminate|vm_compute; discriminate
    |vm_compute; discriminate|vm_compute; discriminate
    |apply fits_fresh|apply fits_fresh].
Defined.

(** X22 (the script is right where the arrays fit).  In a new process,
    and in every store whose static arrays reach far enough for the
    distance of [A] and [B], the call
    [ShortestEditScript(A, len A, B, len B, 0, 0)] returns a script;
    applying its deletions to [A], largest index first, and then its
    insertions, smallest index first, yields [B]; it has
    [len A + len B - 2 * LCS(A, B)] operations; and no choice of deletions
    from [A] and insertions into [B] that leave the same sequence behind
    has fewer. *)
Theorem script_correct_where_arrays_fit (A B : list Z) (fuel : nat)
  (s : statics) :
  len A + len B < Z.of_nat fuel -> fits (ed A B) s ->
  exists ops s',
    diff fuel A B s = Ok (ops, s') /\
    apply_script A B ops = B /\
    Z.of_nat (length ops) = len A + len B - 2 * lcs A B /\
    forall ops',
      strike (positions "del" ops') 0 A = strike (positions "add" ops') 0 B ->
      (length ops <= length ops')%nat.
Proof.
  intros Hfuel Hfits.
  destruct (diff_fits A B fuel s Hfuel Hfits) as (ops & s' & Hrun & Hok).
  exists ops, s'. split; [done|]. split; [by apply apply_script_ok|].
  destruct Hok as (_ & _ & _ & Hlen). split; [exact Hlen|].
  intros ops' Hops'. apply script_length_ge in Hops'. lia.
Qed.

Lemma script_correct_where_arrays_fit_witness :
  exists ops s',
    diff 20 main_a main_b fresh = Ok (ops, s') /\
    apply_script main_a main_b ops = main_b /\
    Z.of_nat (length ops) = len main_a + len main_b - 2 * lcs main_a main_b /\
    forall ops',
      strike (positions "del" ops') 0 main_a
      = strike (positions "add" ops') 0 main_b ->
      (length ops <= length ops')%nat.
Proof.
  apply (script_correct_where_arrays_fit main_a main_b 20 fresh);
    [reflexivity|apply fits_fresh].
Defined.

(** X23 (the recursion goes down).  Whenever [ShortestEditScript] divides
    the graph at the tuple that [FindMiddleSnake] returns, that is when
    [D > 1 || (x != u && y != v)], the two sub-problems have lengths that
    are not negative and add up to less than [N + M]. *)
Theorem subproblems_are_smaller (old new : list Z) (N M : Z) (s : statics) :
  0 < N <= len old -> 0 < M <= len new ->
  fits (ed (pre old N) (pre new M)) s ->
  exists D x y u v s',
    FindMiddleSnake old N new M s = Ok ((D, x, y, u, v), s') /\
    ((1 <? D) || (negb (x =? u) && negb (y =? v)) = true ->
     (0 <= x /\ 0 <= y /\ x + y < N + M) /\
     (0 <= N - u /\ 0 <= M - v /\ (N - u) + (M - v) < N + M)).
Proof.
  intros HN HM Hfits.
  destruct (FindMiddleSnake_fits old new N M ltac:(lia) ltac:(lia) s ltac:(lia) Hfits)
    as ([[[[D x] y] u] v] & s' & Hrun & Hok & _).
  exists D, x, y, u, v, s'. split; [done|]. intros Hc.
  pose proof (middle_ok_divides _ _ _ _ _ _ _ Hok Hc) as Hdiv.
  rewrite (len_pre old N), (len_pre new M) in Hdiv by lia. done.
Qed.

Lemma subproblems_are_smaller_witness :
  exists D x y u v s',
    FindMiddleSnake main_a 9 main_b 10 fresh = Ok ((D, x, y, u, v), s') /\
    ((1 <? D) || (negb (x =? u) && negb (y =? v)) = true ->
     (0 <= x /\ 0 <= y /\ x + y < 9 + 10) /\
     (0 <= 9 - u /\ 0 <= 10 - v /\ (9 - u) + (10 - v) < 9 + 10)).
Proof.
  apply (subproblems_are_smaller main_a main_b 9 10 fresh);
    [split; [lia|vm_compute; discriminate]
    |split; [lia|vm_compute; discriminate]
    |apply fits_fresh].
Defined.
